(** * Active-Alchemy: an active-record layer over a session/engine ORM

    Shallow embedding of [active_alchemy/active_alchemy.py].

    The Python program is stateful and raises exceptions, so every method
    is a computation in a state-and-exception monad: it takes the world
    it runs in and gives back an outcome (a returned value or a raised
    exception) together with the world it leaves behind.  Mutations made
    before an exception is raised stay in place, as in Python.

    The wrapped libraries (the ORM session and query,
    [sqlalchemy.create_engine], [inflection.underscore], user supplied
    constructors and callables) are interfaces: type classes whose
    instances the theorems quantify over.  [json] is modelled in full,
    since a claim is about what its decoder gives back. *)

From Stdlib Require Import ZArith Ascii String.
From Stdlib Require DecimalPos DecimalFacts.
From stdpp Require Import base option list gmap strings fin_maps.

#[local] Set Warnings "-clear-no-such-hyp".

Open Scope Z_scope.
Open Scope string_scope.
Open Scope list_scope.

(** ** Python values, exceptions and the effect monad *)

Module Py.

(** Object identities: model instances, engines, classes. *)
Definition loc := nat.

(** The exception classes that occur.  [KeyboardInterrupt] and
    [SystemExit] derive from [BaseException] only; every other class
    derives from [Exception]. *)
Inductive exn_class :=
| AttributeError
| TypeError
| ValueError
| KeyboardInterrupt
| SystemExit
| LibraryError (name : string).

Record exn := Exn { exn_type : exn_class; exn_msg : string }.

(** [isinstance(e, Exception)] *)
Definition isinstance_Exception (e : exn) : bool :=
  match exn_type e with
  | KeyboardInterrupt | SystemExit => false
  | _ => true
  end.

(** The values that attributes, options and arguments hold.  A
    [datetime.datetime] and an [arrow.Arrow] are represented by the
    string their [isoformat()] returns; [VDate] is a [datetime.date]
    (which is not a [datetime.datetime]); [VArrowType] is an instance
    of the column type [sqlalchemy_utils.ArrowType], which has no
    [isoformat] method.  A [str] is a sequence of characters with codes
    below 256; a [dict] value has [str] keys, and its entries are in
    insertion order. *)
#[warnings="-register-all"]
Inductive pyval :=
| VNone
| VBool (b : bool)
| VInt (n : Z)
| VStr (s : string)
| VList (items : list pyval)
| VTuple (items : list pyval)
| VDict (entries : list (string * pyval))
| VDate (iso : string)
| VDateTime (iso : string)
| VArrow (iso : string)
| VArrowType
| VRef (l : loc)
| VExn (e : exn)
| VCallable (f : nat).

#[global] Instance exn_class_eq_dec : EqDecision exn_class.
Proof. solve_decision. Defined.

#[global] Instance exn_eq_dec : EqDecision exn.
Proof. solve_decision. Defined.

Lemma pyval_eq_dec_aux : ∀ x y : pyval, {x = y} + {x ≠ y}.
Proof.
  fix IH 1. intros x y.
  decide equality;
    solve [ apply (List.list_eq_dec IH)
          | apply Z.eq_dec | apply String.string_dec | apply Nat.eq_dec
          | apply Bool.bool_dec | apply exn_eq_dec
          | apply List.list_eq_dec; intros [k1 v1] [k2 v2];
            destruct (String.string_dec k1 k2) as [->|Hk];
            [ destruct (IH v1 v2) as [->|Hv];
              [ by left | right; congruence ]
            | right; congruence ] ].
Defined.

#[global] Instance pyval_eq_dec : EqDecision pyval := pyval_eq_dec_aux.

(** Truth value of an object, as [not x] tests it. *)
Definition truthy (v : pyval) : bool :=
  match v with
  | VNone => false
  | VBool b => b
  | VInt n => negb (Z.eqb n 0)
  | VStr s => negb (String.eqb s "")
  | VList items | VTuple items => negb (bool_decide (items = []))
  | VDict entries => negb (bool_decide (entries = []))
  | _ => true
  end.

(** A Python [dict] with string keys: the entries in insertion order,
    every key once.  Assigning to a key that is present replaces its
    value in place; a new key goes to the end. *)
Definition dict := list (string * pyval).

Fixpoint dict_set (k : string) (v : pyval) (d : dict) : dict :=
  match d with
  | [] => [(k, v)]
  | (k', v') :: d' =>
      if String.eqb k' k then (k', v) :: d' else (k', v') :: dict_set k v d'
  end.

Fixpoint dict_get (k : string) (d : dict) : option pyval :=
  match d with
  | [] => None
  | (k', v') :: d' => if String.eqb k' k then Some v' else dict_get k d'
  end.

Definition dict_keys (d : dict) : list string := d.*1.

(** The number a [bool] or an [int] is; [bool] is a subclass of [int]. *)
Definition as_int (v : pyval) : option Z :=
  match v with
  | VBool b => Some (if b then 1 else 0)
  | VInt n => Some n
  | _ => None
  end.

(** [x == y]: [True == 1]; lists and tuples compare item by item,
    dictionaries key by key whatever the order; the other objects by
    identity. *)
Fixpoint py_eq (x y : pyval) : bool :=
  let fix items_eq (xs ys : list pyval) : bool :=
    match xs, ys with
    | [], [] => true
    | a :: xs', b :: ys' => py_eq a b && items_eq xs' ys'
    | _, _ => false
    end in
  let fix entries_eq (xs : list (string * pyval)) (ys : dict) : bool :=
    match xs with
    | [] => true
    | (k, a) :: xs' =>
        match dict_get k ys with
        | Some b => py_eq a b && entries_eq xs' ys
        | None => false
        end
    end in
  match x, y with
  | VList xs, VList ys => items_eq xs ys
  | VTuple xs, VTuple ys => items_eq xs ys
  | VDict xs, VDict ys => Nat.eqb (length xs) (length ys) && entries_eq xs ys
  | _, _ =>
      match as_int x, as_int y with
      | Some a, Some b => Z.eqb a b
      | None, None => bool_decide (x = y)
      | _, _ => false
      end
  end.

(** Outcome of a call: a returned value or a raised exception. *)
Inductive outcome (A : Type) :=
| Ret (a : A)
| Raise (e : exn).
Arguments Ret {A} a.
Arguments Raise {A} e.

(** A computation over a world of type [W]. *)
Definition M (W A : Type) : Type := W → outcome A * W.

Definition ret {W A} (a : A) : M W A := fun w => (Ret a, w).

Definition raise {W A} (e : exn) : M W A := fun w => (Raise e, w).

Definition bind {W A B} (m : M W A) (k : A → M W B) : M W B :=
  fun w =>
    match m w with
    | (Ret a, w') => k a w'
    | (Raise e, w') => (Raise e, w')
    end.

(** [try: body  except Exception as e: handler(e)].  An exception that
    is not an instance of [Exception] is not caught. *)
Definition try_except {W A} (body : M W A) (handler : exn → M W A) : M W A :=
  fun w =>
    match body w with
    | (Ret a, w') => (Ret a, w')
    | (Raise e, w') =>
        if isinstance_Exception e then handler e w' else (Raise e, w')
    end.

(** The [AttributeError] of an attribute access on [None]. *)
Definition none_has_no_attribute (attr : string) : exn :=
  Exn AttributeError ("'NoneType' object has no attribute '" ++ attr ++ "'").

(** The [AttributeError] of [getattr] on an object without the attribute. *)
Definition no_attribute (attr : string) : exn :=
  Exn AttributeError ("object has no attribute '" ++ attr ++ "'").

End Py.

Export Py.

Declare Scope py_scope.
Delimit Scope py_scope with py.
Notation "'do' x <~ m ; k" := (bind m (fun x => k))
  (at level 10, x name, m at level 100, k at level 200,
   format "'[v' 'do'  x  <~  m ; '/' k ']'") : py_scope.
Notation "'run' m ; k" := (bind m (fun _ => k))
  (at level 10, m at level 100, k at level 200,
   format "'[v' 'run'  m ; '/' k ']'") : py_scope.
Open Scope py_scope.


(** ** A model of [json.dumps] and [json.loads]

    The standard library's encoder and decoder with their default
    settings ([ensure_ascii], separators [", "] and [": "], strict
    strings), on the values of [pyval].  Floats are not values of the
    model: where the decoder would make one, and where an escape names a
    character above 255, the result is [Beyond].  The interpreter's
    limit on the number of digits of an integer it converts is left
    out. *)

Module Json.

Definition quote : ascii := "034"%char.

Definition backslash : ascii := "092"%char.

Definition code (c : ascii) : N := N_of_ascii c.

(** *** Encoding *)

(** One hexadecimal digit, in lower case. *)
Definition hex_digit (n : N) : ascii :=
  ascii_of_N (if (n <? 10)%N then 48 + n else 87 + n).

(** The replacement of one character by [py_encode_basestring_ascii]. *)
Definition escape_char (c : ascii) : string :=
  if Ascii.eqb c quote then String backslash (String quote "")
  else if Ascii.eqb c backslash then String backslash (String backslash "")
  else if (code c =? 10)%N then String backslash "n"
  else if (code c =? 13)%N then String backslash "r"
  else if (code c =? 9)%N then String backslash "t"
  else if (code c =? 8)%N then String backslash "b"
  else if (code c =? 12)%N then String backslash "f"
  else if (32 <=? code c)%N && (code c <=? 126)%N then String c ""
  else String backslash
         (String "u" (String "0" (String "0"
            (String (hex_digit (code c / 16))
               (String (hex_digit (code c mod 16)) ""))))).

Fixpoint escape (s : string) : string :=
  match s with
  | EmptyString => EmptyString
  | String c rest => escape_char c +:+ escape rest
  end.

Definition encode_string (s : string) : string :=
  String quote (escape s +:+ String quote "").

(** The decimal digits of a number, most significant first. *)
Fixpoint uint_digits (d : Decimal.uint) : string :=
  match d with
  | Decimal.Nil => EmptyString
  | Decimal.D0 d => String "0" (uint_digits d)
  | Decimal.D1 d => String "1" (uint_digits d)
  | Decimal.D2 d => String "2" (uint_digits d)
  | Decimal.D3 d => String "3" (uint_digits d)
  | Decimal.D4 d => String "4" (uint_digits d)
  | Decimal.D5 d => String "5" (uint_digits d)
  | Decimal.D6 d => String "6" (uint_digits d)
  | Decimal.D7 d => String "7" (uint_digits d)
  | Decimal.D8 d => String "8" (uint_digits d)
  | Decimal.D9 d => String "9" (uint_digits d)
  end.

(** [int.__repr__] *)
Definition print_int (z : Z) : string :=
  match z with
  | Z0 => "0"
  | Zpos p => uint_digits (Pos.to_uint p)
  | Zneg p => String "-" (uint_digits (Pos.to_uint p))
  end.

(** [", ".join(chunks)] *)
Fixpoint join (chunks : list string) : string :=
  match chunks with
  | [] => EmptyString
  | [chunk] => chunk
  | chunk :: rest => chunk +:+ ", " +:+ join rest
  end.

Definition not_serializable : exn :=
  Exn TypeError "Object is not JSON serializable".

(** [json.dumps(v)].  A tuple is written as a list; an object the
    encoder does not know raises [TypeError]. *)
Fixpoint dumps (v : pyval) : outcome string :=
  let fix chunks (items : list pyval) : outcome (list string) :=
    match items with
    | [] => Ret []
    | x :: rest =>
        match dumps x with
        | Ret sx =>
            match chunks rest with
            | Ret l => Ret (sx :: l)
            | Raise e => Raise e
            end
        | Raise e => Raise e
        end
    end in
  let fix members (entries : list (string * pyval)) : outcome (list string) :=
    match entries with
    | [] => Ret []
    | (k, x) :: rest =>
        match dumps x with
        | Ret sx =>
            match members rest with
            | Ret l => Ret ((encode_string k +:+ ": " +:+ sx) :: l)
            | Raise e => Raise e
            end
        | Raise e => Raise e
        end
    end in
  match v with
  | VNone => Ret "null"
  | VBool true => Ret "true"
  | VBool false => Ret "false"
  | VInt n => Ret (print_int n)
  | VStr s => Ret (encode_string s)
  | VList items | VTuple items =>
      match chunks items with
      | Ret l => Ret ("[" +:+ join l +:+ "]")
      | Raise e => Raise e
      end
  | VDict entries =>
      match members entries with
      | Ret l => Ret ("{" +:+ join l +:+ "}")
      | Raise e => Raise e
      end
  | _ => Raise not_serializable
  end.

(** The values JSON has: [None], booleans, integers, strings, and lists
    and dictionaries of such values.  (A dictionary has every key
    once.) *)
Fixpoint native (v : pyval) : bool :=
  match v with
  | VNone | VBool _ | VInt _ | VStr _ => true
  | VList items => forallb native items
  | VDict entries =>
      bool_decide (NoDup (dict_keys entries))
      && forallb (fun kv => native kv.2) entries
  | _ => false
  end.

(** *** Decoding *)

(** The result of scanning one piece of the text: the value and the
    text that follows it, a text that is not JSON ([JSONDecodeError]),
    or a value beyond the model. *)
Inductive parsed (A : Type) :=
| Parsed (a : A) (rest : string)
| Malformed
| Beyond.
Arguments Parsed {A} a rest.
Arguments Malformed {A}.
Arguments Beyond {A}.

Definition is_ws (c : ascii) : bool :=
  (code c =? 32)%N || (code c =? 9)%N || (code c =? 10)%N || (code c =? 13)%N.

Fixpoint skip_ws (s : string) : string :=
  match s with
  | String c rest => if is_ws c then skip_ws rest else s
  | EmptyString => s
  end.

Definition digit_of (c : ascii) : option N :=
  if (48 <=? code c)%N && (code c <=? 57)%N then Some (code c - 48)%N else None.

Definition hex_of (c : ascii) : option N :=
  if (48 <=? code c)%N && (code c <=? 57)%N then Some (code c - 48)%N
  else if (97 <=? code c)%N && (code c <=? 102)%N then Some (code c - 87)%N
  else if (65 <=? code c)%N && (code c <=? 70)%N then Some (code c - 55)%N
  else None.

Definition hex4 (a b c d : ascii) : option N :=
  match hex_of a, hex_of b, hex_of c, hex_of d with
  | Some x, Some y, Some z, Some t => Some (((x * 16 + y) * 16 + z) * 16 + t)%N
  | _, _, _, _ => None
  end.

(** The character an escape letter stands for. *)
Definition unescape (e : ascii) : option ascii :=
  if Ascii.eqb e quote then Some quote
  else if Ascii.eqb e backslash then Some backslash
  else if Ascii.eqb e "/" then Some "/"%char
  else if Ascii.eqb e "b" then Some (ascii_of_N 8)
  else if Ascii.eqb e "f" then Some (ascii_of_N 12)
  else if Ascii.eqb e "n" then Some (ascii_of_N 10)
  else if Ascii.eqb e "r" then Some (ascii_of_N 13)
  else if Ascii.eqb e "t" then Some (ascii_of_N 9)
  else None.

Definition push (c : ascii) (r : parsed string) : parsed string :=
  match r with
  | Parsed s rest => Parsed (String c s) rest
  | Malformed => Malformed
  | Beyond => Beyond
  end.

(** [scanstring], from the character after the opening quote. *)
Fixpoint scan_string (s : string) : parsed string :=
  match s with
  | EmptyString => Malformed
  | String c rest =>
      if Ascii.eqb c quote then Parsed EmptyString rest
      else if Ascii.eqb c backslash then
        match rest with
        | EmptyString => Malformed
        | String e rest1 =>
            if Ascii.eqb e "u" then
              match rest1 with
              | String h1 (String h2 (String h3 (String h4 rest2))) =>
                  match hex4 h1 h2 h3 h4 with
                  | Some n =>
                      if (n <? 256)%N then push (ascii_of_N n) (scan_string rest2)
                      else Beyond
                  | None => Malformed
                  end
              | _ => Malformed
              end
            else
              match unescape e with
              | Some c' => push c' (scan_string rest1)
              | None => Malformed
              end
        end
      else if (code c <? 32)%N then Malformed
      else push c (scan_string rest)
  end.

(** The digits at the head of the text, read onto [acc]. *)
Fixpoint scan_digits (acc : N) (s : string) : N * string :=
  match s with
  | String c rest =>
      match digit_of c with
      | Some d => scan_digits (10 * acc + d) rest
      | None => (acc, s)
      end
  | EmptyString => (acc, s)
  end.

Definition starts_with_digit (s : string) : bool :=
  match s with
  | String c _ => bool_decide (is_Some (digit_of c))
  | EmptyString => false
  end.

(** Whether a fraction or an exponent follows the integer part, which
    makes the number a float. *)
Definition float_follows (s : string) : bool :=
  match s with
  | String c rest =>
      if Ascii.eqb c "." then starts_with_digit rest
      else if Ascii.eqb c "e" || Ascii.eqb c "E" then
        match rest with
        | String sign rest' =>
            if Ascii.eqb sign "+" || Ascii.eqb sign "-"
            then starts_with_digit rest' else starts_with_digit rest
        | EmptyString => false
        end
      else false
  | EmptyString => false
  end.

(** A number: an optional minus, then [0] or a digit from 1 to 9 and any
    digits. *)
Definition scan_number (s : string) : parsed pyval :=
  let '(negative, s1) :=
    match s with
    | String c rest => if Ascii.eqb c "-" then (true, rest) else (false, s)
    | EmptyString => (false, s)
    end in
  match s1 with
  | String c rest =>
      match digit_of c with
      | Some d =>
          let '(n, rest') := if (d =? 0)%N then (0%N, rest) else scan_digits d rest in
          if float_follows rest' then Beyond
          else Parsed (VInt (if negative then - Z.of_N n else Z.of_N n)) rest'
      | None => Malformed
      end
  | EmptyString => Malformed
  end.

(** [s] without its prefix [p], when it has it. *)
Fixpoint strip_prefix (p s : string) : option string :=
  match p, s with
  | EmptyString, _ => Some s
  | String a p', String b s' => if Ascii.eqb a b then strip_prefix p' s' else None
  | String _ _, EmptyString => None
  end.

(** The scanner.  [fuel] bounds the nesting and the number of items; the
    length of the text is enough. *)
Fixpoint scan_value (fuel : nat) (s : string) : parsed pyval :=
  match fuel with
  | O => Beyond
  | S fuel =>
      match s with
      | EmptyString => Malformed
      | String c rest =>
          if Ascii.eqb c quote then
            match scan_string rest with
            | Parsed str rest' => Parsed (VStr str) rest'
            | Malformed => Malformed
            | Beyond => Beyond
            end
          else if Ascii.eqb c "{" then
            match skip_ws rest with
            | String c' rest' =>
                if Ascii.eqb c' "}" then Parsed (VDict []) rest'
                else scan_members fuel (String c' rest') []
            | EmptyString => Malformed
            end
          else if Ascii.eqb c "[" then
            match skip_ws rest with
            | String c' rest' =>
                if Ascii.eqb c' "]" then Parsed (VList []) rest'
                else scan_items fuel (String c' rest') []
            | EmptyString => Malformed
            end
          else
            match strip_prefix "null" s, strip_prefix "true" s, strip_prefix "false" s with
            | Some rest', _, _ => Parsed VNone rest'
            | _, Some rest', _ => Parsed (VBool true) rest'
            | _, _, Some rest' => Parsed (VBool false) rest'
            | None, None, None =>
                match strip_prefix "NaN" s, strip_prefix "Infinity" s,
                      strip_prefix "-Infinity" s with
                | None, None, None => scan_number s
                | _, _, _ => Beyond
                end
            end
      end
  end
with scan_items (fuel : nat) (s : string) (acc : list pyval) : parsed pyval :=
  match fuel with
  | O => Beyond
  | S fuel =>
      match scan_value fuel s with
      | Parsed v rest =>
          match skip_ws rest with
          | String c rest' =>
              if Ascii.eqb c "," then scan_items fuel (skip_ws rest') (acc ++ [v])
              else if Ascii.eqb c "]" then Parsed (VList (acc ++ [v])) rest'
              else Malformed
          | EmptyString => Malformed
          end
      | Malformed => Malformed
      | Beyond => Beyond
      end
  end
with scan_members (fuel : nat) (s : string) (acc : dict) : parsed pyval :=
  match fuel with
  | O => Beyond
  | S fuel =>
      match s with
      | String c rest =>
          if Ascii.eqb c quote then
            match scan_string rest with
            | Parsed key rest1 =>
                match skip_ws rest1 with
                | String c' rest2 =>
                    if Ascii.eqb c' ":" then
                      match scan_value fuel (skip_ws rest2) with
                      | Parsed v rest3 =>
                          match skip_ws rest3 with
                          | String c'' rest4 =>
                              if Ascii.eqb c'' ","
                              then scan_members fuel (skip_ws rest4) (dict_set key v acc)
                              else if Ascii.eqb c'' "}"
                              then Parsed (VDict (dict_set key v acc)) rest4
                              else Malformed
                          | EmptyString => Malformed
                          end
                      | Malformed => Malformed
                      | Beyond => Beyond
                      end
                    else Malformed
                | EmptyString => Malformed
                end
            | Malformed => Malformed
            | Beyond => Beyond
            end
          else Malformed
      | EmptyString => Malformed
      end
  end.

Definition decode_error : exn := Exn ValueError "JSONDecodeError".

(** [json.loads(s)]: one value, with white space around it and nothing
    else.  [None] stands for a result beyond the model. *)
Definition loads (s : string) : option (outcome pyval) :=
  match scan_value (S (String.length s)) (skip_ws s) with
  | Parsed v rest =>
      match skip_ws rest with
      | EmptyString => Some (Ret v)
      | String _ _ => Some (Raise decode_error)
      end
  | Malformed => Some (Raise decode_error)
  | Beyond => None
  end.

End Json.
(** ** The active-record methods of [BaseModel] *)

Module ActiveRecord.

(** All model instances, by identity, each with its attributes as
    [getattr] and [setattr] see them. *)
Abbreviation heap := (gmap loc (gmap string pyval)).

(** The world the methods run in: the instances and [db.session], which
    is [None] when the [ActiveAlchemy] object was made without a uri
    ([__init__], line 359).  [S] is the state behind the scoped session
    (its pending changes and its database). *)
Record world (S : Type) := World { w_heap : heap; w_session : option S }.
Arguments World {S} w_heap w_session.
Arguments w_heap {S} w.
Arguments w_session {S} w.

(** The wrapped ORM: the four session methods the program calls and the
    constructors of the model classes (the ORM's default one or the
    user's [__init__]).  A session method may change the instances too
    (a commit expires and reloads attributes), and each may raise. *)
Class ORM := {
  Sess : Type;
  session_add : loc → M (heap * Sess) unit;
  session_delete : loc → M (heap * Sess) unit;
  session_commit : M (heap * Sess) unit;
  session_rollback : M (heap * Sess) unit;
  ModelClass : Type;
  construct : ModelClass → dict → M (world Sess) loc
}.

(** A method call [self.session.<attr>(...)]: the attribute access
    fails on [None]. *)
Definition on_session {orm : ORM} {A} (attr : string) (op : M (heap * Sess) A)
  : M (world Sess) A :=
  fun w =>
    match w_session w with
    | None => (Raise (none_has_no_attribute attr), w)
    | Some s =>
        let '(r, (h', s')) := op (w_heap w, s) in
        (r, World h' (Some s'))
    end.

(** The proxies [ActiveAlchemy.add], [.commit] and [.rollback]. *)
Definition db_add {orm : ORM} (obj : loc) : M (world Sess) unit :=
  on_session "add" (session_add obj).

Definition db_commit {orm : ORM} : M (world Sess) unit :=
  on_session "commit" session_commit.

Definition db_rollback {orm : ORM} : M (world Sess) unit :=
  on_session "rollback" session_rollback.

(** [self.db.session.delete(self)] *)
Definition db_session_delete {orm : ORM} (obj : loc) : M (world Sess) unit :=
  on_session "delete" (session_delete obj).

(** [BaseModel.save] *)
Definition save {orm : ORM} (self : loc) : M (world Sess) loc :=
  try_except
    (run db_add self;
     run db_commit;
     ret self)
    (fun e =>
       run db_rollback;
       raise e).

(** [BaseModel.delete]; it returns what [commit] returns. *)
Definition delete {orm : ORM} (self : loc) (delete hard_delete : bool)
  : M (world Sess) unit :=
  try_except
    (run db_session_delete self;
     db_commit)
    (fun e =>
       run db_rollback;
       raise e).

(** [getattr(self, name)] and [setattr(self, name, value)] on plain
    attributes. *)
Definition instance_attrs (h : heap) (self : loc) : gmap string pyval :=
  default ∅ (h !! self).

Definition getattr {S} (self : loc) (name : string) : M (world S) pyval :=
  fun w =>
    match instance_attrs (w_heap w) self !! name with
    | Some v => (Ret v, w)
    | None => (Raise (no_attribute name), w)
    end.

Definition setattr {S} (self : loc) (name : string) (v : pyval) : M (world S) unit :=
  fun w =>
    (Ret tt,
     World (<[self := <[name := v]> (instance_attrs (w_heap w) self)]> (w_heap w))
           (w_session w)).

(** [for k, v in kwargs.items(): setattr(self, k, v)] *)
Fixpoint setattrs {S} (self : loc) (kwargs : dict) : M (world S) unit :=
  match kwargs with
  | [] => ret tt
  | (k, v) :: rest =>
      run setattr self k v;
      setattrs self rest
  end.

(** [BaseModel.update] *)
Definition update {orm : ORM} (self : loc) (kwargs : dict) : M (world Sess) loc :=
  run setattrs self kwargs;
  run save self;
  ret self.

(** [BaseModel.create] *)
Definition create {orm : ORM} (cls : ModelClass) (kwargs : dict) : M (world Sess) loc :=
  do record <~ (do obj <~ construct cls kwargs; save obj);
  ret record.

(** [BaseModel.to_dict]: the dict comprehension over
    [self.__table__.columns].  [columns] lists the name [c.name] of each
    column of the table, in the table's order. *)
Fixpoint to_dict_from {S} (self : loc) (columns : list string) (acc : dict)
  : M (world S) dict :=
  match columns with
  | [] => ret acc
  | c :: rest =>
      do v <~ getattr self c;
      to_dict_from self rest (dict_set c v acc)
  end.

Definition to_dict {S} (self : loc) (columns : list string) : M (world S) dict :=
  to_dict_from self columns [].

(** [isinstance(v, (datetime.datetime, sa_utils.ArrowType, arrow.Arrow))] *)
Definition is_datetime_like (v : pyval) : bool :=
  match v with
  | VDateTime _ | VArrowType | VArrow _ => true
  | _ => false
  end.

(** [v.isoformat()] *)
Definition isoformat (v : pyval) : outcome pyval :=
  match v with
  | VDate iso | VDateTime iso | VArrow iso => Ret (VStr iso)
  | _ => Raise (no_attribute "isoformat")
  end.

(** The loop of [to_json] over the items of the dictionary, which fills
    [data]. *)
Fixpoint to_json_data (entries : dict) (data : dict) : outcome dict :=
  match entries with
  | [] => Ret data
  | (k, v) :: rest =>
      if is_datetime_like v then
        match isoformat v with
        | Ret v' => to_json_data rest (dict_set k v' data)
        | Raise e => Raise e
        end
      else to_json_data rest (dict_set k v data)
  end.

(** A call that does not touch the world. *)
Definition pure {W A} (r : outcome A) : M W A := fun w => (r, w).

(** [BaseModel.to_json] *)
Definition to_json {S} (self : loc) (columns : list string) : M (world S) string :=
  do d <~ to_dict self columns;
  do data <~ pure (to_json_data d []);
  pure (Json.dumps (VDict data)).

End ActiveRecord.

(** ** [BaseQuery]: [get_or_error] and [first_or_error] *)

Module Query.

(** The wrapped query: [Query.get] and [Query.first] run against a state
    of the library's own, return the entity or [None], and may raise;
    [call_object f] is the call [f()] of the callable [f] without
    arguments (a function, or a class, whose call makes an instance). *)
Class QueryLib := {
  QState : Type;
  query_get : pyval → M QState pyval;
  query_first : M QState pyval;
  call_object : nat → M QState pyval
}.

(** [error()]: only a callable can be called. *)
Definition call {lib : QueryLib} (f : pyval) : M QState pyval :=
  match f with
  | VCallable n => call_object n
  | _ => raise (Exn TypeError "object is not callable")
  end.

(** [isinstance(error, Exception)] on any value. *)
Definition isinstance_of_Exception (v : pyval) : bool :=
  match v with
  | VExn e => isinstance_Exception e
  | _ => false
  end.

(** [raise error] *)
Definition raise_value {W} (v : pyval) : M W pyval :=
  match v with
  | VExn e => raise e
  | _ => raise (Exn TypeError "exceptions must derive from BaseException")
  end.

(** [rv is None] *)
Definition is_None (v : pyval) : bool :=
  match v with
  | VNone => true
  | _ => false
  end.

(** [BaseQuery.get_or_error] *)
Definition get_or_error {lib : QueryLib} (uid error : pyval) : M QState pyval :=
  do rv <~ query_get uid;
  if is_None rv then
    if isinstance_of_Exception error then raise_value error
    else call error
  else ret rv.

(** [BaseQuery.first_or_error] *)
Definition first_or_error {lib : QueryLib} (error : pyval) : M QState pyval :=
  do rv <~ query_first;
  if is_None rv then
    if isinstance_of_Exception error then raise_value error
    else call error
  else ret rv.

End Query.

(** ** [EngineConnector] and the [engine] property *)

Module Engine.

(** The state of one [EngineConnector]: [_engine] is [None] or the
    engine, [_connected_for] is [None] or the pair (uri, echo) recorded
    when the engine was created. *)
Record connector_state := Connector {
  _engine : pyval;
  _connected_for : option (pyval * pyval)
}.

(** The [ActiveAlchemy] object as far as the engine is concerned: its
    fields [uri], [info], [options] and [connector], every connector
    made for it (by identity), and every engine created so far with the
    arguments of its creation.  The engine created n-th is [VRef n]. *)
Record sa_obj := SaObj {
  sa_uri : pyval;
  sa_info : pyval;
  sa_options : dict;
  sa_connector : option loc;
  connectors : gmap loc connector_state;
  engines : list (pyval * dict)
}.

(** [sqlalchemy.create_engine(info, options)] either raises (a malformed
    url, an option the dialect rejects) or returns a new engine. *)
Class EngineLib := {
  create_engine_error : pyval → dict → option exn
}.

Definition create_engine {lib : EngineLib} (info : pyval) (options : dict)
  : M sa_obj pyval :=
  fun w =>
    match create_engine_error info options with
    | Some e => (Raise e, w)
    | None =>
        (Ret (VRef (length (engines w))),
         SaObj (sa_uri w) (sa_info w) (sa_options w) (sa_connector w)
               (connectors w) (engines w ++ [(info, options)]))
    end.

(** [EngineConnector(sa_obj)]: a new connector, with no engine. *)
Definition new_connector : M sa_obj loc :=
  fun w =>
    let c := fresh (dom (connectors w)) in
    (Ret c,
     SaObj (sa_uri w) (sa_info w) (sa_options w) (sa_connector w)
           (<[c := Connector VNone None]> (connectors w)) (engines w)).

Definition connector_of (w : sa_obj) (self : loc) : connector_state :=
  default (Connector VNone None) (connectors w !! self).

Definition set_connector_state (self : loc) (st : connector_state) : M sa_obj unit :=
  fun w =>
    (Ret tt,
     SaObj (sa_uri w) (sa_info w) (sa_options w) (sa_connector w)
           (<[self := st]> (connectors w)) (engines w)).

(** [options.get('echo')] *)
Definition echo_of (w : sa_obj) : pyval := default VNone (dict_get "echo" (sa_options w)).

(** How a tuple comparison compares two items: the same object, or
    equal objects. *)
Definition item_eq (x y : pyval) : bool := bool_decide (x = y) || py_eq x y.

(** [(uri, echo) == self._connected_for]: a tuple never equals [None],
    and two pairs are equal when their items are. *)
Definition key_eq (key : pyval * pyval) (recorded : option (pyval * pyval)) : bool :=
  match recorded with
  | None => false
  | Some (uri', echo') => item_eq key.1 uri' && item_eq key.2 echo'
  end.

(** [EngineConnector.get_engine], run by one thread on its own (the
    lock is free when it starts and free again when it ends). *)
Definition get_engine {lib : EngineLib} (self : loc) : M sa_obj pyval :=
  fun w =>
    let uri := sa_uri w in
    let info := sa_info w in
    let options := sa_options w in
    let echo := echo_of w in
    if key_eq (uri, echo) (_connected_for (connector_of w self))
    then (Ret (_engine (connector_of w self)), w)
    else
      (do engine <~ create_engine info options;
       run set_connector_state self (Connector engine (Some (uri, echo)));
       ret engine) w.

(** The property [ActiveAlchemy.engine]. *)
Definition engine {lib : EngineLib} : M sa_obj pyval :=
  fun w =>
    match sa_connector w with
    | Some connector => get_engine connector w
    | None =>
        (do connector <~ new_connector;
         run (fun w' =>
                (Ret tt,
                 SaObj (sa_uri w') (sa_info w') (sa_options w') (Some connector)
                       (connectors w') (engines w')));
         get_engine connector) w
    end.

End Engine.

(** ** Threads reading [engine] and calling [get_engine]

    The interleavings of any number of threads, each running one read of
    the property [ActiveAlchemy.engine] or one call of
    [EngineConnector.get_engine], a statement at a time, with the two
    locks of the source: [self._engine_lock] around the body of the
    property and [self._lock] of the connector around the body of
    [get_engine].  User code may assign [uri], [info] and [options] at
    any moment. *)

Module Concurrent.
Import Engine.

(** What a thread runs. *)
Inductive call :=
| ReadEngine
| GetEngine (c : loc).

(** Where a thread stands.  [prop] tells whether [get_engine] was called
    from the property (whose lock the thread then holds). *)
Inductive pc :=
| Start (what : call)
| PropLocked
| PropMake
| PropInstall (c : loc)
| PropCall (c : loc)
| GetEnter (c : loc) (prop : bool)
| GetRead (c : loc) (prop : bool)
| GetCompare (c : loc) (prop : bool) (uri info : pyval) (options : dict)
| GetRecord (c : loc) (prop : bool) (key : pyval * pyval) (engine : pyval)
| GetExit (c : loc) (prop : bool) (result : outcome pyval)
| PropExit (result : outcome pyval)
| Finished (result : outcome pyval).

(** The shared object, the holders of the two kinds of lock, the
    threads, and two histories: every connector that was ever assigned
    to [self.connector], and, for every engine created, the connector
    that created it and the pair (uri, echo) it was created for. *)
Record state := State {
  obj : sa_obj;
  engine_lock : option nat;
  connector_locks : gmap loc nat;
  threads : gmap nat pc;
  installed : list loc;
  created : list (loc * (pyval * pyval))
}.

Definition set_pc (t : nat) (p : pc) (s : state) : state :=
  State (obj s) (engine_lock s) (connector_locks s) (<[t := p]> (threads s))
        (installed s) (created s).

Definition set_obj (o : sa_obj) (s : state) : state :=
  State o (engine_lock s) (connector_locks s) (threads s) (installed s) (created s).

Definition with_connectors (m : gmap loc connector_state) (o : sa_obj) : sa_obj :=
  SaObj (sa_uri o) (sa_info o) (sa_options o) (sa_connector o) m (engines o).

(** One statement of thread [t]; [None] when the thread is blocked on a
    lock, has finished, or does not exist. *)
Definition thread_step {lib : EngineLib} (t : nat) (s : state) : option state :=
  match threads s !! t with
  | None => None
  | Some (Start ReadEngine) =>
      (* with self._engine_lock: *)
      match engine_lock s with
      | Some _ => None
      | None =>
          Some (State (obj s) (Some t) (connector_locks s)
                      (<[t := PropLocked]> (threads s)) (installed s) (created s))
      end
  | Some PropLocked =>
      (* connector = self.connector; if connector is None: *)
      match sa_connector (obj s) with
      | Some c => Some (set_pc t (PropCall c) s)
      | None => Some (set_pc t PropMake s)
      end
  | Some PropMake =>
      (* connector = EngineConnector(self) *)
      let c := fresh (dom (connectors (obj s))) in
      Some (set_pc t (PropInstall c)
              (set_obj (with_connectors (<[c := Connector VNone None]> (connectors (obj s)))
                          (obj s)) s))
  | Some (PropInstall c) =>
      (* self.connector = connector *)
      Some (State (SaObj (sa_uri (obj s)) (sa_info (obj s)) (sa_options (obj s))
                         (Some c) (connectors (obj s)) (engines (obj s)))
                  (engine_lock s) (connector_locks s)
                  (<[t := PropCall c]> (threads s))
                  (installed s ++ [c]) (created s))
  | Some (PropCall c) =>
      (* return connector.get_engine() *)
      Some (set_pc t (GetEnter c true) s)
  | Some (Start (GetEngine c)) => Some (set_pc t (GetEnter c false) s)
  | Some (GetEnter c prop) =>
      (* with self._lock: *)
      match connector_locks s !! c with
      | Some _ => None
      | None =>
          Some (State (obj s) (engine_lock s) (<[c := t]> (connector_locks s))
                      (<[t := GetRead c prop]> (threads s)) (installed s) (created s))
      end
  | Some (GetRead c prop) =>
      (* uri = ...; info = ...; options = ... *)
      Some (set_pc t (GetCompare c prop (sa_uri (obj s)) (sa_info (obj s))
                        (sa_options (obj s))) s)
  | Some (GetCompare c prop uri info options) =>
      (* echo = options.get('echo'); if (uri, echo) == self._connected_for: *)
      let echo := default VNone (dict_get "echo" options) in
      let conn := connector_of (obj s) c in
      if key_eq (uri, echo) (_connected_for conn)
      then Some (set_pc t (GetExit c prop (Ret (_engine conn))) s)
      else
        (* self._engine = engine = sqlalchemy.create_engine(info, options) *)
        match create_engine_error info options with
        | Some e => Some (set_pc t (GetExit c prop (Raise e)) s)
        | None =>
            let engine := VRef (length (engines (obj s))) in
            Some (State (SaObj (sa_uri (obj s)) (sa_info (obj s)) (sa_options (obj s))
                               (sa_connector (obj s))
                               (<[c := Connector engine (_connected_for conn)]>
                                  (connectors (obj s)))
                               (engines (obj s) ++ [(info, options)]))
                        (engine_lock s) (connector_locks s)
                        (<[t := GetRecord c prop (uri, echo) engine]> (threads s))
                        (installed s) (created s ++ [(c, (uri, echo))]))
        end
  | Some (GetRecord c prop key engine) =>
      (* self._connected_for = (uri, echo) *)
      let conn := connector_of (obj s) c in
      Some (set_pc t (GetExit c prop (Ret engine))
              (set_obj (with_connectors
                          (<[c := Connector (_engine conn) (Some key)]> (connectors (obj s)))
                          (obj s)) s))
  | Some (GetExit c prop result) =>
      (* the end of the block releases self._lock *)
      Some (State (obj s) (engine_lock s) (delete c (connector_locks s))
                  (<[t := if prop then PropExit result else Finished result]> (threads s))
                  (installed s) (created s))
  | Some (PropExit result) =>
      (* the end of the block releases self._engine_lock *)
      Some (State (obj s) None (connector_locks s)
                  (<[t := Finished result]> (threads s)) (installed s) (created s))
  | Some (Finished _) => None
  end.

(** What can happen next: a thread runs a statement, a new thread starts
    a call, or user code assigns the fields of the object. *)
Inductive action :=
| Run (t : nat)
| Spawn (t : nat) (what : call)
| Assign (uri info : pyval) (options : dict).

Definition exec {lib : EngineLib} (a : action) (s : state) : option state :=
  match a with
  | Run t => thread_step t s
  | Spawn t what =>
      match threads s !! t with
      | Some _ => None
      | None => Some (set_pc t (Start what) s)
      end
  | Assign uri info options =>
      Some (set_obj (SaObj uri info options (sa_connector (obj s))
                           (connectors (obj s)) (engines (obj s))) s)
  end.

Fixpoint run_trace {lib : EngineLib} (trace : list action) (s : state) : option state :=
  match trace with
  | [] => Some s
  | a :: rest =>
      match exec a s with
      | Some s' => run_trace rest s'
      | None => None
      end
  end.

(** The object right after [__init__] set [self.connector = None], with
    no thread yet. *)
Definition initial (uri info : pyval) (options : dict) : state :=
  State (SaObj uri info options None ∅ []) None ∅ ∅ [] [].

End Concurrent.

(** ** [ModelTableNameDescriptor] *)

Module TableName.

(** [inflection.underscore] *)
Class Inflection := {
  underscore : string → string
}.

(** A model class (a subclass of [BaseModel]): its [__name__], the entry
    [__tablename__] of its own namespace [__dict__] when it has one, and
    the classes that follow it in its method resolution order, up to
    [BaseModel], which is left out. *)
Record class_obj := ClassObj {
  cls_name : string;
  cls_tablename : option pyval;
  cls_mro : list loc
}.

(** All model classes, by identity. *)
Abbreviation classes := (gmap loc class_obj).

Definition not_a_class : exn := Exn TypeError "not a class".

(** [ModelTableNameDescriptor.__get__(self, obj, type)] *)
Definition descriptor_get {lib : Inflection} (type : loc) : M classes pyval :=
  fun w =>
    match w !! type with
    | None => (Raise not_a_class, w)
    | Some cls =>
        let tablename := default VNone (cls_tablename cls) in
        if negb (truthy tablename) then
          let tablename := VStr (underscore (cls_name cls)) in
          (Ret tablename,
           <[type := ClassObj (cls_name cls) (Some tablename) (cls_mro cls)]> w)
        else (Ret tablename, w)
    end.

(** The first [__tablename__] entry in the namespaces of the classes
    [mro], in order. *)
Fixpoint find_in_mro (w : classes) (mro : list loc) : option pyval :=
  match mro with
  | [] => None
  | k :: rest =>
      match w !! k ≫= cls_tablename with
      | Some v => Some v
      | None => find_in_mro w rest
      end
  end.

(** The attribute read [type.__tablename__]: the first entry along the
    method resolution order wins; when no model class has one, the
    entry of [BaseModel] is reached, which is the descriptor (line
    146), and its [__get__] is called with the class that was read. *)
Definition read_tablename {lib : Inflection} (type : loc) : M classes pyval :=
  fun w =>
    match w !! type with
    | None => (Raise not_a_class, w)
    | Some cls =>
        match find_in_mro w (type :: cls_mro cls) with
        | Some v => (Ret v, w)
        | None => descriptor_get type w
        end
    end.

End TableName.

(** ** A model of [inflection.underscore] *)

Module InflectionModel.

Definition code (c : ascii) : N := N_of_ascii c.

Definition is_upper (c : ascii) : bool := (65 <=? code c)%N && (code c <=? 90)%N.

Definition is_lower (c : ascii) : bool := (97 <=? code c)%N && (code c <=? 122)%N.

Definition is_digit (c : ascii) : bool := (48 <=? code c)%N && (code c <=? 57)%N.

Definition next_is (p : ascii → bool) (s : string) : bool :=
  match s with
  | String c _ => p c
  | EmptyString => false
  end.

(** The substitution of [([A-Z]+)([A-Z][a-z])] by the two groups with an
    underscore between them: an underscore goes before every capital
    that follows a capital and is followed by a small letter. *)
Fixpoint split_acronyms (after_upper : bool) (s : string) : string :=
  match s with
  | EmptyString => EmptyString
  | String c rest =>
      let tail := String c (split_acronyms (is_upper c) rest) in
      if after_upper && is_upper c && next_is is_lower rest
      then String "_" tail else tail
  end.

(** The substitution of [([a-z\d])([A-Z])]: an underscore goes between a
    small letter or digit and a capital. *)
Fixpoint split_words (after_lower_or_digit : bool) (s : string) : string :=
  match s with
  | EmptyString => EmptyString
  | String c rest =>
      let tail := String c (split_words (is_lower c || is_digit c) rest) in
      if after_lower_or_digit && is_upper c then String "_" tail else tail
  end.

(** [word.replace("-", "_")] *)
Fixpoint dashes_to_underscores (s : string) : string :=
  match s with
  | EmptyString => EmptyString
  | String c rest =>
      String (if Ascii.eqb c "-" then "_"%char else c) (dashes_to_underscores rest)
  end.

(** [str.lower] on characters below 256. *)
Definition lower_char (c : ascii) : ascii :=
  if is_upper c
     || ((192 <=? code c)%N && (code c <=? 222)%N && negb (code c =? 215)%N)
  then ascii_of_N (code c + 32) else c.

Fixpoint lower (s : string) : string :=
  match s with
  | EmptyString => EmptyString
  | String c rest => String (lower_char c) (lower rest)
  end.

Definition underscore (word : string) : string :=
  lower (dashes_to_underscores (split_words false (split_acronyms false word))).

#[global] Instance inflection_lib : TableName.Inflection := {|
  TableName.underscore := underscore
|}.

End InflectionModel.

(** ** A small in-memory ORM, to run the methods on concrete inputs *)

Module Demo.
Import ActiveRecord.

(** The session keeps the instances added and deleted since the last
    commit and the rows of the database; [fault] is the exception the
    next commit meets (a lost connection, a violated constraint, a
    keyboard interrupt), if any. *)
Record store := Store {
  pending : list loc;
  removed : list loc;
  rows : list loc;
  fault : option exn
}.

Definition demo_add (obj : loc) : M (heap * store) unit :=
  fun '(h, s) => (Ret tt, (h, Store (obj :: pending s) (removed s) (rows s) (fault s))).

Definition demo_delete (obj : loc) : M (heap * store) unit :=
  fun '(h, s) => (Ret tt, (h, Store (pending s) (obj :: removed s) (rows s) (fault s))).

Definition demo_commit : M (heap * store) unit :=
  fun '(h, s) =>
    match fault s with
    | Some e => (Raise e, (h, s))
    | None =>
        (Ret tt,
         (h, Store [] []
               (filter (fun r => r ∉ removed s) (pending s ++ rows s)) None))
    end.

Definition demo_rollback : M (heap * store) unit :=
  fun '(h, s) => (Ret tt, (h, Store [] [] (rows s) None)).

(** The default constructor: a new instance whose attributes are the
    keyword arguments. *)
Definition demo_construct (cls : string) (kwargs : dict) : M (world store) loc :=
  fun w =>
    let obj := fresh (dom (w_heap w)) in
    (Ret obj, World (<[obj := list_to_map kwargs]> (w_heap w)) (w_session w)).

#[global] Instance demo_orm : ORM := {|
  Sess := store;
  session_add := demo_add;
  session_delete := demo_delete;
  session_commit := demo_commit;
  session_rollback := demo_rollback;
  ModelClass := string;
  construct := demo_construct
|}.

Definition empty_store : store := Store [] [] [] None.

Definition faulty_store (e : exn) : store := Store [] [] [] (Some e).

(** One instance, [User(id=1, name="ann")], in a connected session. *)
Definition ann : gmap string pyval :=
  <["id" := VInt 1]> (<["name" := VStr "ann"]> ∅).

Definition w_ann : world store := World (<[0%nat := ann]> ∅) (Some empty_store).

(** An instance of a model that maps the column [id] under the attribute
    [user_id], as in [user_id = db.Column('id', db.Integer)]. *)
Definition w_renamed : world store :=
  World (<[0%nat := <["user_id" := VInt 1]> (<["name" := VStr "ann"]> ∅)]> ∅)
        (Some empty_store).

(** The same instance when the database object was made without a uri. *)
Definition w_unbound : world store := World (<[0%nat := ann]> ∅) None.

(** The same instance when the next commit fails. *)
Definition w_faulty (e : exn) : world store :=
  World (<[0%nat := ann]> ∅) (Some (faulty_store e)).

(** An event with a creation time, a point held as a tuple, and a day. *)
Definition event : gmap string pyval :=
  <["id" := VInt 7]>
    (<["title" := VStr "launch"]>
       (<["created_at" := VDateTime "2024-05-01T12:30:00"]>
          (<["point" := VTuple [VInt 1; VInt 2]]>
             (<["day" := VDate "2024-05-01"]> ∅)))).

Definition w_event : world store := World (<[0%nat := event]> ∅) (Some empty_store).

Definition integrity_error : exn :=
  Exn (LibraryError "IntegrityError") "UNIQUE constraint failed".

Definition keyboard_interrupt : exn := Exn KeyboardInterrupt "".

(** A table of two rows for the queries, keyed by primary key, and two
    callables: a function that returns a default row, and the exception
    class [LookupError], whose call makes an instance. *)
Definition demo_rows : list (Z * loc) := [(1, 10%nat); (2, 11%nat)].

Definition lookup_error : exn := Exn (LibraryError "LookupError") "".

#[global] Instance demo_query (rows : list (Z * loc)) : Query.QueryLib := {|
  Query.QState := unit;
  Query.query_get uid :=
    match uid with
    | VInt pk =>
        ret (default VNone (VRef <$> (list_find (fun r => bool_decide (r.1 = pk)) rows
                                        ≫= fun '(_, r) => Some r.2)))
    | _ => ret VNone
    end;
  Query.query_first :=
    ret (default VNone (VRef <$> (snd <$> head rows)));
  Query.call_object f :=
    match f with
    | O => ret (VRef 99%nat)
    | _ => ret (VExn lookup_error)
    end
|}.

(** An engine library that rejects a missing url and accepts the rest,
    and a database object for a SQLite file, before its first engine. *)
Definition argument_error : exn :=
  Exn (LibraryError "ArgumentError") "Could not parse SQLAlchemy URL".

#[global] Instance demo_engines : Engine.EngineLib := {|
  Engine.create_engine_error info options :=
    match info with
    | VNone => Some argument_error
    | _ => None
    end
|}.

Definition db_sqlite : Engine.sa_obj :=
  Engine.SaObj (VStr "sqlite:///a.db") (VStr "sqlite:///a.db")
               [("echo", VBool false)] None ∅ [].

End Demo.

(** ** The options of the engine: [_cleanup_options] and
    [_apply_driver_hacks] *)

Module Options.

(** The url object [self.info] that [make_url] returned, as far as the
    program reads it. *)
Record url := Url {
  drivername : string;
  database : pyval;
  query : dict
}.

(** [self.info.query.setdefault(key, value)]: the library decides whether
    the query of a url can be changed in place, or raises. *)
Class UrlLib := {
  query_setdefault : string → pyval → M url pyval
}.

(** [p] is a prefix of [s]. *)
Fixpoint starts_with (p s : string) : bool :=
  match p, s with
  | EmptyString, _ => true
  | String a p', String b s' => Ascii.eqb a b && starts_with p' s'
  | String _ _, EmptyString => false
  end.

(** [needle in haystack] on strings. *)
Fixpoint contains (needle haystack : string) : bool :=
  starts_with needle haystack ||
  match haystack with
  | EmptyString => false
  | String _ rest => contains needle rest
  end.

(** [x in items] on a tuple: some item is the same object or equal. *)
Definition in_tuple (x : pyval) (items : list pyval) : bool :=
  existsb (Engine.item_eq x) items.

(** [d.setdefault(k, v)], as a statement. *)
Definition dict_setdefault (k : string) (v : pyval) (d : dict) : dict :=
  match dict_get k d with
  | Some _ => d
  | None => d ++ [(k, v)]
  end.

(** [dict(pairs)] *)
Definition dict_of_pairs (pairs : list (string * pyval)) : dict :=
  foldl (fun d kv => dict_set kv.1 kv.2 d) [] pairs.

Definition kept (kv : string * pyval) : bool :=
  negb (bool_decide (kv.2 = VNone)) && negb (String.eqb kv.1 "convert_unicode").

Definition memory_database_error : exn :=
  Exn ValueError
    "SQLite in-memory database with an empty queue (pool_size = 0) is not possible due to data loss.".

(** [ActiveAlchemy._apply_driver_hacks] *)
Definition _apply_driver_hacks {lib : UrlLib} (options : dict) : M url dict :=
  fun info =>
    if contains "mysql" (drivername info) then
      (run query_setdefault "charset" (VStr "utf8");
       ret (dict_setdefault "pool_recycle" (VInt 7200)
              (dict_setdefault "pool_size" (VInt 10) options))) info
    else if String.eqb (drivername info) "sqlite" then
      let no_pool := py_eq (default VNone (dict_get "pool_size" options)) (VInt 0) in
      let memory_based := in_tuple (database info) [VNone; VStr ""; VStr ":memory:"] in
      if memory_based && no_pool
      then (Raise memory_database_error, info)
      else (Ret options, info)
    else (Ret options, info).

(** [ActiveAlchemy._cleanup_options] *)
Definition _cleanup_options {lib : UrlLib} (kwargs : dict) : M url dict :=
  _apply_driver_hacks (dict_of_pairs (List.filter kept kwargs)).

(** The call [__init__] makes: the five keyword arguments, in its order. *)
Definition init_options {lib : UrlLib}
    (echo pool_size pool_timeout pool_recycle convert_unicode : pyval) : M url dict :=
  _cleanup_options
    [("echo", echo); ("pool_size", pool_size); ("pool_timeout", pool_timeout);
     ("pool_recycle", pool_recycle); ("convert_unicode", convert_unicode)].

End Options.

(** ** The hooks of a web application: [init_app] and [set_flask_hooks] *)

Module App.
Import ActiveRecord.

(** [scoped_session.remove()], the fifth session method the program
    calls. *)
Class ScopedSession {orm : ORM} := {
  session_remove : M (heap * Sess) unit
}.

(** The closure [shutdown] that [init_app] makes. *)
Definition shutdown {orm : ORM} {scoped : ScopedSession} (response : pyval)
  : M (world Sess) pyval :=
  run on_session "remove" session_remove;
  ret response.

(** The closure [rollback] that [init_app] makes; a function that ends
    without [return] returns [None]. *)
Definition rollback {orm : ORM} (error : pyval) : M (world Sess) pyval :=
  try_except
    (run db_rollback;
     ret VNone)
    (fun _ => ret VNone).

(** The two closures, by the database object they close over. *)
Inductive hook :=
| Shutdown (db : loc)
| Rollback (db : loc).

(** The application object: its attribute [databases] when it has one,
    the names of its other attributes, and the hooks registered on it so
    far, each with the name of the method that registered it. *)
Record app := Application {
  databases : option pyval;
  attributes : list string;
  registered : list (string * hook)
}.

(** A registration method of the application ([after_request],
    [on_exception]) either raises or keeps the hook. *)
Class AppLib := {
  register_error : string → hook → option exn
}.

(** [getattr(app, method)(f)] *)
Definition register {lib : AppLib} (method : string) (f : hook) : M app unit :=
  fun a =>
    match register_error method f with
    | Some e => (Raise e, a)
    | None =>
        (Ret tt, Application (databases a) (attributes a) (registered a ++ [(method, f)]))
    end.

(** [hasattr(app, name)] for a name other than [databases] *)
Definition hasattr (a : app) (name : string) : bool :=
  bool_decide (name ∈ attributes a).

(** [ActiveAlchemy.set_flask_hooks] *)
Definition set_flask_hooks {lib : AppLib} (shutdown rollback : hook) : M app unit :=
  run (fun a =>
         if hasattr a "after_request" then register "after_request" shutdown a
         else (Ret tt, a));
  fun a =>
    if hasattr a "on_exception" then register "on_exception" rollback a
    else (Ret tt, a).

(** [self in databases] on a list: an item is this object. *)
Definition in_list (x : pyval) (items : list pyval) : bool :=
  existsb (Engine.item_eq x) items.

(** [ActiveAlchemy.init_app]; [self] is the identity of the database
    object. *)
Definition init_app {lib : AppLib} (self : loc) : M app unit :=
  fun a =>
    let a :=
      match databases a with
      | None => Application (Some (VList [])) (attributes a) (registered a)
      | Some _ => a
      end in
    match databases a with
    | Some (VList items) =>
        if in_list (VRef self) items then (Ret tt, a)
        else
          set_flask_hooks (Shutdown self) (Rollback self)
            (Application (Some (VList (items ++ [VRef self]))) (attributes a) (registered a))
    | _ => set_flask_hooks (Shutdown self) (Rollback self) a
    end.

(** Running a registered hook in the world of its database object. *)
Definition call_hook {orm : ORM} {scoped : ScopedSession} (f : hook) (arg : pyval)
  : M (world Sess) pyval :=
  match f with
  | Shutdown _ => shutdown arg
  | Rollback _ => rollback arg
  end.

End App.

(** ** The session of the database object: [_create_scoped_session] *)

Module ScopedSessions.
Import Engine.

(** What [sessionmaker(autoflush, autocommit, bind, query_cls)] keeps. *)
Record sessionmaker := SessionMaker {
  autoflush : bool;
  autocommit : bool;
  bind : pyval;
  query_cls : pyval
}.

(** [scoped_session(session_factory)] *)
Record scoped_session := ScopedSession {
  session_factory : sessionmaker
}.

(** The pool of an engine, as the program reads it: [engine.pool.size()]
    and [engine.pool._max_overflow].  Not every pool class has them. *)
Class PoolLib := {
  pool_size : pyval → outcome pyval;
  pool_max_overflow : pyval → outcome pyval
}.

(** The database object and the lines printed so far, each the text and
    the value given to [print]. *)
Definition console : Type := list (string * pyval).

Definition read_engine {lib : EngineLib} : M (sa_obj * console) pyval :=
  fun w =>
    let '(r, o) := engine w.1 in
    (r, (o, w.2)).

Definition pure {A} (r : outcome A) : M (sa_obj * console) A :=
  fun w => (r, w).

Definition print (text : string) (value : pyval) : M (sa_obj * console) unit :=
  fun w => (Ret tt, (w.1, w.2 ++ [(text, value)])).

(** [ActiveAlchemy._create_scoped_session]; [_query_cls] is the field
    of the object that [__init__] set from its argument [query_cls]. *)
Definition _create_scoped_session {lib : EngineLib} {pool : PoolLib}
    (_query_cls class_ : pyval) : M (sa_obj * console) scoped_session :=
  let query_cls := if bool_decide (_query_cls = VNone) then class_ else _query_cls in
  do engine <~ read_engine;
  let session := SessionMaker true false engine query_cls in
  do engine <~ read_engine;
  do size <~ pure (pool_size engine);
  run print "Engine size: " size;
  do engine <~ read_engine;
  do max_overflow <~ pure (pool_max_overflow engine);
  run print "Engine max  overflow: " max_overflow;
  ret (ScopedSession session).

End ScopedSessions.

(** ** The names of SQLAlchemy on the database object:
    [_include_sqlalchemy] and [db.Table] *)

Module Schema.

(** The attributes of the database object in its own [__dict__] and the
    methods of its class, by name.  The properties of the class are not
    in it: they are computed on every read. *)
Abbreviation attrs := (gmap string pyval).

(** The properties of [ActiveAlchemy]; none has a setter. *)
Definition properties : list string := ["engine"; "metadata"; "query"].

Definition no_setter (name : string) : exn :=
  Exn AttributeError ("property '" ++ name ++ "' of 'ActiveAlchemy' object has no setter").

(** What the library's objects answer: [model.metadata] ([None] when the
    object has no such attribute), [isinstance(obj, cls)] (which raises
    when [cls] is not a class), and [sqlalchemy.Table(args, kwargs)]. *)
Class SchemaLib := {
  Tables : Type;
  metadata_of : pyval → option pyval;
  isinstance : pyval → pyval → outcome bool;
  sa_Table : list pyval → dict → M Tables pyval
}.

(** [getattr(db, name)] for a name that is not a property *)
Definition getattr (db : attrs) (name : string) : outcome pyval :=
  match db !! name with
  | Some v => Ret v
  | None => Raise (no_attribute name)
  end.

(** The property [ActiveAlchemy.metadata]: [self.Model.metadata] *)
Definition metadata {lib : SchemaLib} (db : attrs) : outcome pyval :=
  match getattr db "Model" with
  | Ret model =>
      match metadata_of model with
      | Some md => Ret md
      | None => Raise (no_attribute "metadata")
      end
  | Raise e => Raise e
  end.

(** [hasattr(db, key)] for a key other than [engine]: the property
    [query] always returns, the property [metadata] may raise
    [AttributeError], and any other name is looked up. *)
Definition hasattr {lib : SchemaLib} (db : attrs) (key : string) : bool :=
  if String.eqb key "query" then true
  else if String.eqb key "metadata" then
    match metadata db with
    | Ret _ => true
    | Raise _ => false
    end
  else bool_decide (is_Some (db !! key)).

(** [setattr(db, key, value)] *)
Definition setattr (key : string) (value : pyval) : M attrs unit :=
  fun db =>
    if bool_decide (key ∈ properties) then (Raise (no_setter key), db)
    else (Ret tt, <[key := value]> db).

(** [not any([key.startswith("_"), key.lower() == 'engine'])] *)
Definition copied (key : string) : bool :=
  negb (existsb id [Options.starts_with "_" key;
                    String.eqb (InflectionModel.lower key) "engine"]).

(** A module: the names [dir(module)] lists, in its order, each with
    [getattr(module, name)]. *)
Definition module : Type := list (string * pyval).

(** The inner loop of [_include_sqlalchemy] over one module. *)
Fixpoint include_module {lib : SchemaLib} (m : module) : M attrs unit :=
  match m with
  | [] => ret tt
  | (key, value) :: rest =>
      run (fun db =>
             if copied key then
               if negb (hasattr db key) then setattr key value db
               else (Ret tt, db)
             else (Ret tt, db));
      include_module rest
  end.

(** [_include_sqlalchemy(db)]; [table_maker] is the closure that
    [_tablemaker(db)] returns. *)
Definition _include_sqlalchemy {lib : SchemaLib}
    (sqlalchemy sqlalchemy_orm : module) (table_maker : pyval) : M attrs unit :=
  run include_module sqlalchemy;
  run include_module sqlalchemy_orm;
  setattr "Table" table_maker.

(** [kwargs.pop(key, None)], the dictionary that is left. *)
Definition dict_without (key : string) (d : dict) : dict :=
  List.filter (fun kv => negb (String.eqb kv.1 key)) d.

Definition pure {W A} (r : outcome A) : M W A := fun w => (r, w).

(** [info.setdefault('bind_key', None)]: of the values here, only a
    [dict] has the method. *)
Definition info_setdefault (info : pyval) : outcome pyval :=
  match info with
  | VDict entries => Ret (VDict (Options.dict_setdefault "bind_key" VNone entries))
  | _ => Raise (no_attribute "setdefault")
  end.

(** The closure [make_sa_table] of [_tablemaker(db)] *)
Definition make_sa_table {lib : SchemaLib} (db : attrs) (args : list pyval) (kwargs : dict)
  : M Tables pyval :=
  do args <~ pure
    match args with
    | name :: second :: rest =>
        match getattr db "Column" with
        | Ret column =>
            match isinstance second column with
            | Ret true =>
                match metadata db with
                | Ret md => Ret (name :: md :: second :: rest)
                | Raise e => Raise e
                end
            | Ret false => Ret args
            | Raise e => Raise e
            end
        | Raise e => Raise e
        end
    | _ => Ret args
    end;
  let kwargs := Options.dict_setdefault "bind_key" VNone kwargs in
  let info := default VNone (dict_get "info" kwargs) in
  let kwargs := dict_without "info" kwargs in
  let info := if truthy info then info else VDict [] in
  do info <~ pure (info_setdefault info);
  let kwargs := dict_set "info" info kwargs in
  sa_Table args kwargs.

End Schema.

(** ** [create_all], [drop_all] and [reflect] *)

Module MetaData.
Import Engine Schema.

(** The calls made on a metadata object: the method, the metadata and
    the engine it was bound to. *)
Record schema_call := SchemaCall {
  call_method : string;
  call_metadata : pyval;
  call_bind : pyval
}.

(** [metadata.create_all(bind)], [metadata.drop_all(bind)] and
    [metadata.reflect(bind)] either raise or are carried out;
    [MetaData()] makes a new metadata object. *)
Class MetaDataLib := {
  schema_call_error : schema_call → option exn;
  new_metadata : pyval
}.

(** The database object for these methods: its attributes, the part the
    engine is made from, and the calls carried out so far. *)
Record db_obj := DbObj {
  db_attrs : attrs;
  db_sa : sa_obj;
  db_calls : list schema_call
}.

Definition read_engine {lib : EngineLib} : M db_obj pyval :=
  fun w =>
    let '(r, o) := engine (db_sa w) in
    (r, DbObj (db_attrs w) o (db_calls w)).

(** The read of the property [metadata]. *)
Definition read_metadata {schema : SchemaLib} : M db_obj pyval :=
  fun w => (metadata (db_attrs w), w).

Definition call {md : MetaDataLib} (method : string) (metadata bind : pyval)
  : M db_obj unit :=
  fun w =>
    match schema_call_error (SchemaCall method metadata bind) with
    | Some e => (Raise e, w)
    | None =>
        (Ret tt,
         DbObj (db_attrs w) (db_sa w) (db_calls w ++ [SchemaCall method metadata bind]))
    end.

(** [ActiveAlchemy.create_all]: the metadata is read before the
    engine. *)
Definition create_all {lib : EngineLib} {schema : SchemaLib} {md : MetaDataLib}
  : M db_obj unit :=
  do metadata <~ read_metadata;
  do bind <~ read_engine;
  call "create_all" metadata bind.

(** [ActiveAlchemy.drop_all] *)
Definition drop_all {lib : EngineLib} {schema : SchemaLib} {md : MetaDataLib}
  : M db_obj unit :=
  do metadata <~ read_metadata;
  do bind <~ read_engine;
  call "drop_all" metadata bind.

(** [ActiveAlchemy.reflect] *)
Definition reflect {lib : EngineLib} {md : MetaDataLib} (meta : pyval) : M db_obj pyval :=
  let meta := if truthy meta then meta else new_metadata in
  do bind <~ read_engine;
  run call "reflect" meta bind;
  ret meta.

End MetaData.

(** * Properties *)

(** ** [save], [delete], [update], [create] *)

Module ActiveRecordSpec.
Import ActiveRecord.

Section Discipline.
Context `{orm : ORM}.

(** The body of [save]: add, commit, return the instance. *)
Lemma save_unfold (self : loc) (w : world Sess) :
  save self w =
    match db_add self w with
    | (Ret _, w1) =>
        match db_commit w1 with
        | (Ret _, w2) => (Ret self, w2)
        | (Raise e, w2) =>
            if isinstance_Exception e
            then match db_rollback w2 with
                 | (Ret _, w3) => (Raise e, w3)
                 | (Raise e', w3) => (Raise e', w3)
                 end
            else (Raise e, w2)
        end
    | (Raise e, w1) =>
        if isinstance_Exception e
        then match db_rollback w1 with
             | (Ret _, w2) => (Raise e, w2)
             | (Raise e', w2) => (Raise e', w2)
             end
        else (Raise e, w1)
    end.
Proof.
  unfold save, try_except, bind, ret, raise.
  destruct (db_add self w) as [[[]|e] w1]; simpl.
  - destruct (db_commit w1) as [[[]|e] w2]; simpl; [done|].
    destruct (isinstance_Exception e); [|done].
    by destruct (db_rollback w2) as [[[]|e'] w3].
  - destruct (isinstance_Exception e); [|done].
    by destruct (db_rollback w1) as [[[]|e'] w2].
Qed.

(** The body of [delete]: session delete, commit. *)
Lemma delete_unfold (self : loc) (d hd : bool) (w : world Sess) :
  delete self d hd w =
    match db_session_delete self w with
    | (Ret _, w1) =>
        match db_commit w1 with
        | (Ret _, w2) => (Ret tt, w2)
        | (Raise e, w2) =>
            if isinstance_Exception e
            then match db_rollback w2 with
                 | (Ret _, w3) => (Raise e, w3)
                 | (Raise e', w3) => (Raise e', w3)
                 end
            else (Raise e, w2)
        end
    | (Raise e, w1) =>
        if isinstance_Exception e
        then match db_rollback w1 with
             | (Ret _, w2) => (Raise e, w2)
             | (Raise e', w2) => (Raise e', w2)
             end
        else (Raise e, w1)
    end.
Proof.
  unfold delete, try_except, bind, ret, raise.
  destruct (db_session_delete self w) as [[[]|e] w1]; simpl.
  - destruct (db_commit w1) as [[[]|e] w2]; simpl; [done|].
    destruct (isinstance_Exception e); [|done].
    by destruct (db_rollback w2) as [[[]|e'] w3].
  - destruct (isinstance_Exception e); [|done].
    by destruct (db_rollback w1) as [[[]|e'] w2].
Qed.



(** The loop of [update] always returns; it touches neither the session
    nor another instance. *)
Lemma setattrs_frame (self : loc) (kwargs : dict) (w : world Sess) :
  ∃ w1, setattrs self kwargs w = (Ret tt, w1) ∧
        w_session w1 = w_session w ∧
        ∀ l, l ≠ self → w_heap w1 !! l = w_heap w !! l.
Proof.
  revert w. induction kwargs as [|[k v] rest IH]; intros w; simpl.
  - by exists w.
  - unfold bind, setattr at 1. simpl.
    destruct (IH (World (<[self := <[k := v]> (instance_attrs (w_heap w) self)]> (w_heap w))
                        (w_session w))) as (w1 & Hrun & Hs & Hother).
    exists w1. split; [done|]. split; [done|].
    intros l Hl. rewrite Hother by done. simpl. by rewrite lookup_insert_ne.
Qed.

(** What the loop leaves in the instance, read key by key. *)
Lemma setattrs_attrs (self : loc) (kwargs : dict) (w w1 : world Sess) :
  NoDup (dict_keys kwargs) →
  setattrs self kwargs w = (Ret tt, w1) →
  (∀ k v, (k, v) ∈ kwargs → instance_attrs (w_heap w1) self !! k = Some v) ∧
  (∀ k, k ∉ dict_keys kwargs →
        instance_attrs (w_heap w1) self !! k = instance_attrs (w_heap w) self !! k).
Proof.
  revert w. induction kwargs as [|[k0 v0] rest IH]; intros w Hnd Hrun; simpl in *.
  - unfold ret in Hrun. simplify_eq. split; [|done]. intros k v Hin. by apply elem_of_nil in Hin.
  - apply NoDup_cons in Hnd as [Hk0 Hnd].
    unfold bind, setattr at 1 in Hrun. simpl in Hrun.
    destruct (IH _ Hnd Hrun) as [Hset Hkeep].
    assert (Hfirst : instance_attrs
              (<[self := <[k0 := v0]> (instance_attrs (w_heap w) self)]> (w_heap w)) self
              = <[k0 := v0]> (instance_attrs (w_heap w) self)).
    { unfold instance_attrs at 1. by rewrite lookup_insert_eq. }
    split.
    + intros k v Hin. apply elem_of_cons in Hin as [Heq|Hin].
      * simplify_eq. rewrite (Hkeep k0 Hk0). simpl.
        rewrite Hfirst. by rewrite lookup_insert_eq.
      * by apply Hset.
    + intros k Hk. apply not_elem_of_cons in Hk as [Hne Hk].
      rewrite (Hkeep k Hk). simpl. rewrite Hfirst. by rewrite lookup_insert_ne.
Qed.


(** C5.  [create] calls the constructor of the class on the keyword
    arguments and saves the new instance; when the add and the commit
    return, it returns that new instance from the committed world. *)
Theorem create_constructs_then_saves
    (cls : ModelClass) (kwargs : dict) (w w1 : world Sess) (obj : loc) :
  construct cls kwargs w = (Ret obj, w1) →
  create cls kwargs w = save obj w1 ∧
  (∀ w2 w3,
     db_add obj w1 = (Ret tt, w2) → db_commit w2 = (Ret tt, w3) →
     create cls kwargs w = (Ret obj, w3)).
Proof.
  intros Hnew.
  assert (Hcreate : create cls kwargs w = save obj w1).
  { unfold create, bind at 1 2. rewrite Hnew.
    by destruct (save obj w1) as [[r|e] w2]. }
  split; [done|].
  intros w2 w3 Hadd Hcommit. rewrite Hcreate, save_unfold, Hadd, Hcommit. done.
Qed.

End Discipline.

(** ** [to_dict] *)

Section ToDict.
Context {S : Type}.

Lemma dict_set_keys (k : string) (v : pyval) (d : dict) :
  dict_keys (dict_set k v d) = if bool_decide (k ∈ dict_keys d)
                               then dict_keys d else dict_keys d ++ [k].
Proof.
  unfold dict_keys. induction d as [|[k' v'] d IH]; csimpl; [done|].
  destruct (String.eqb_spec k' k) as [->|Hne]; csimpl.
  - rewrite bool_decide_eq_true_2 by set_solver. done.
  - rewrite IH. destruct (bool_decide (k ∈ d.*1)) eqn:Hin.
    + apply bool_decide_eq_true_1 in Hin.
      rewrite bool_decide_eq_true_2 by set_solver. done.
    + apply bool_decide_eq_false_1 in Hin.
      rewrite bool_decide_eq_false_2 by set_solver. done.
Qed.

Lemma dict_get_set (k k' : string) (v : pyval) (d : dict) :
  dict_get k' (dict_set k v d) = if bool_decide (k = k') then Some v else dict_get k' d.
Proof.
  induction d as [|[k0 v0] d IH]; simpl.
  - destruct (String.eqb_spec k k') as [->|Hne].
    + by rewrite bool_decide_eq_true_2.
    + by rewrite bool_decide_eq_false_2.
  - destruct (String.eqb_spec k0 k) as [->|Hne]; simpl.
    + destruct (String.eqb_spec k k') as [->|Hne'].
      * by rewrite bool_decide_eq_true_2.
      * by rewrite bool_decide_eq_false_2.
    + rewrite IH. destruct (String.eqb_spec k0 k') as [->|Hne']; [|done].
      by rewrite bool_decide_eq_false_2.
Qed.

Lemma dict_set_NoDup (k : string) (v : pyval) (d : dict) :
  NoDup (dict_keys d) → NoDup (dict_keys (dict_set k v d)).
Proof.
  intros Hnd. rewrite dict_set_keys. case_bool_decide; [done|].
  apply NoDup_app. split; [done|]. split; [|apply NoDup_singleton].
  intros x Hx Hin. apply list_elem_of_singleton in Hin. by subst.
Qed.

Lemma to_dict_from_spec (self : loc) (columns : list string) (acc : dict) (w : world S) :
  (∀ c, c ∈ columns → is_Some (instance_attrs (w_heap w) self !! c)) →
  NoDup (dict_keys acc) →
  ∃ d, to_dict_from self columns acc w = (Ret d, w) ∧
       NoDup (dict_keys d) ∧
       (∀ k, k ∈ dict_keys d ↔ k ∈ dict_keys acc ∨ k ∈ columns) ∧
       (∀ k, dict_get k d = if bool_decide (k ∈ columns)
                            then instance_attrs (w_heap w) self !! k
                            else dict_get k acc).
Proof.
  revert acc. induction columns as [|c rest IH]; intros acc Hattr Hnd; simpl.
  - exists acc. split; [done|]. split; [done|]. split; [set_solver|].
    done.
  - destruct (Hattr c ltac:(set_solver)) as [v Hv].
    unfold bind, getattr at 1. rewrite Hv.
    destruct (IH (dict_set c v acc)) as (d & Hrun & Hnd' & Hkeys & Hget).
    { intros c' Hc'. apply Hattr. set_solver. }
    { by apply dict_set_NoDup. }
    exists d. split; [done|]. split; [done|]. split.
    + intros k. rewrite Hkeys, dict_set_keys. case_bool_decide; set_solver.
    + intros k. rewrite Hget, dict_get_set.
      destruct (decide (k ∈ rest)) as [Hin|Hnin].
      * rewrite !bool_decide_eq_true_2 by set_solver. done.
      * rewrite (bool_decide_eq_false_2 (k ∈ rest)) by done.
        destruct (decide (c = k)) as [->|Hne].
        -- rewrite !bool_decide_eq_true_2 by set_solver. done.
        -- rewrite bool_decide_eq_false_2 by done.
           rewrite bool_decide_eq_false_2 by set_solver. done.
Qed.

(** C6 (as amended).  On an instance that has an attribute for every
    column name of its table, [to_dict] returns a dictionary whose keys
    are exactly the column names (each once) and whose value for each
    column name is the attribute of that name as the instance holds it;
    nothing is changed. *)
Theorem to_dict_maps_columns_to_attributes
    (self : loc) (columns : list string) (w : world S) :
  (∀ c, c ∈ columns → is_Some (instance_attrs (w_heap w) self !! c)) →
  ∃ d, to_dict self columns w = (Ret d, w) ∧
       NoDup (dict_keys d) ∧
       (∀ k, k ∈ dict_keys d ↔ k ∈ columns) ∧
       (∀ c, c ∈ columns → dict_get c d = instance_attrs (w_heap w) self !! c).
Proof.
  intros Hattr.
  destruct (to_dict_from_spec self columns [] w Hattr) as (d & Hrun & Hnd & Hkeys & Hget).
  { constructor. }
  exists d. split; [done|]. split; [done|]. split.
  - intros k. rewrite Hkeys. set_solver.
  - intros c Hc. rewrite Hget. by rewrite bool_decide_eq_true_2.
Qed.

(** A column whose name is not an attribute of the instance (a column
    mapped under another attribute name) makes [to_dict] raise. *)
Lemma to_dict_missing_attribute (self : loc) (c : string) (rest : list string) (w : world S) :
  instance_attrs (w_heap w) self !! c = None →
  to_dict self (c :: rest) w = (Raise (no_attribute c), w).
Proof. intros Hc. unfold to_dict. simpl. unfold bind, getattr. by rewrite Hc. Qed.

End ToDict.

(** ** The methods on concrete inputs *)





(** C5 on the in-memory session: a second user is made, added and
    committed. *)
Lemma create_constructs_then_saves_witness :
  create (orm := Demo.demo_orm) "User" [("id", VInt 2)] Demo.w_ann
  = (Ret 1%nat,
     World (<[1%nat := {["id" := VInt 2]}]> (w_heap Demo.w_ann))
           (Some (Demo.Store [] [] [1%nat] None))).
Proof.
  eapply (create_constructs_then_saves (orm := Demo.demo_orm)); reflexivity.
Defined.

(** C6 on the instance [ann], whose table has the columns [id] and
    [name]. *)
Lemma to_dict_maps_columns_to_attributes_witness :
  ∃ d, to_dict 0%nat ["id"; "name"] Demo.w_ann = (Ret d, Demo.w_ann) ∧
       NoDup (dict_keys d) ∧
       (∀ k, k ∈ dict_keys d ↔ k ∈ ["id"; "name"]) ∧
       (∀ c, c ∈ ["id"; "name"] →
             dict_get c d = instance_attrs (w_heap Demo.w_ann) 0%nat !! c).
Proof.
  apply to_dict_maps_columns_to_attributes.
  intros c Hc.
  repeat (apply elem_of_cons in Hc as [->|Hc]);
    [by eexists..|by apply elem_of_nil in Hc].
Defined.

(** C6, the claim as stated fails: the table of this instance has a
    column named [id] that is mapped under the attribute [user_id]; the
    instance has no attribute [id], and [to_dict] raises instead of
    returning a dictionary. *)
Lemma to_dict_renamed_column_counterexample :
  instance_attrs (w_heap Demo.w_renamed) 0%nat !! "user_id" = Some (VInt 1) ∧
  instance_attrs (w_heap Demo.w_renamed) 0%nat !! "id" = None ∧
  to_dict 0%nat ["id"; "name"] Demo.w_renamed
    = (Raise (no_attribute "id"), Demo.w_renamed).
Proof. done. Qed.

Example to_dict_ann :
  to_dict 0%nat ["id"; "name"] Demo.w_ann
  = (Ret [("id", VInt 1); ("name", VStr "ann")], Demo.w_ann).
Proof. reflexivity. Qed.

End ActiveRecordSpec.

(** ** [get_or_error] and [first_or_error] *)

Module QuerySpec.
Import Query.

Section OrError.
Context {lib : QueryLib}.

(** What both methods do with the result [rv] of the lookup. *)
Lemma or_error_found (rv error : pyval) (w : QState) :
  rv ≠ VNone →
  (if is_None rv
   then if isinstance_of_Exception error then raise_value error else call error
   else ret rv) w = (Ret rv, w).
Proof. intros Hrv. by destruct rv. Qed.

(** C10.  Both methods return the entity found when the lookup returns
    one.  When the lookup returns [None], they raise [error] if it is an
    instance of [Exception]; otherwise they call [error] without
    arguments and their outcome is the outcome of that call: they return
    what it returns. *)
Theorem or_error_found_raise_or_call (uid error : pyval) (w : QState) :
  (∀ rv w1, query_get uid w = (Ret rv, w1) → rv ≠ VNone →
            get_or_error uid error w = (Ret rv, w1)) ∧
  (∀ e w1, query_get uid w = (Ret VNone, w1) →
           error = VExn e → isinstance_Exception e = true →
           get_or_error uid error w = (Raise e, w1)) ∧
  (∀ w1, query_get uid w = (Ret VNone, w1) →
         isinstance_of_Exception error = false →
         get_or_error uid error w = call error w1) ∧
  (∀ rv w1, query_first w = (Ret rv, w1) → rv ≠ VNone →
            first_or_error error w = (Ret rv, w1)) ∧
  (∀ e w1, query_first w = (Ret VNone, w1) →
           error = VExn e → isinstance_Exception e = true →
           first_or_error error w = (Raise e, w1)) ∧
  (∀ w1, query_first w = (Ret VNone, w1) →
         isinstance_of_Exception error = false →
         first_or_error error w = call error w1).
Proof.
  repeat split.
  - intros rv w1 Hget Hrv. unfold get_or_error, bind. rewrite Hget.
    by apply or_error_found.
  - intros e w1 Hget -> He. unfold get_or_error, bind. rewrite Hget. simpl.
    by rewrite He.
  - intros w1 Hget Herr. unfold get_or_error, bind. rewrite Hget. simpl.
    by rewrite Herr.
  - intros rv w1 Hget Hrv. unfold first_or_error, bind. rewrite Hget.
    by apply or_error_found.
  - intros e w1 Hget -> He. unfold first_or_error, bind. rewrite Hget. simpl.
    by rewrite He.
  - intros w1 Hget Herr. unfold first_or_error, bind. rewrite Hget. simpl.
    by rewrite Herr.
Qed.

End OrError.

(** C10 on the table of two rows: a row found, a missing row with an
    exception instance, with a function, and with an exception class. *)
Lemma or_error_found_raise_or_call_witness :
  get_or_error (lib := Demo.demo_query Demo.demo_rows)
    (VInt 2) (VExn Demo.lookup_error) tt = (Ret (VRef 11%nat), tt) ∧
  get_or_error (lib := Demo.demo_query Demo.demo_rows)
    (VInt 3) (VExn Demo.lookup_error) tt = (Raise Demo.lookup_error, tt) ∧
  get_or_error (lib := Demo.demo_query Demo.demo_rows)
    (VInt 3) (VCallable 0) tt = (Ret (VRef 99%nat), tt) ∧
  first_or_error (lib := Demo.demo_query []) (VCallable 1) tt
    = (Ret (VExn Demo.lookup_error), tt).
Proof.
  destruct (or_error_found_raise_or_call (lib := Demo.demo_query Demo.demo_rows)
              (VInt 2) (VExn Demo.lookup_error) tt) as (Hfound & _).
  destruct (or_error_found_raise_or_call (lib := Demo.demo_query Demo.demo_rows)
              (VInt 3) (VExn Demo.lookup_error) tt) as (_ & Hraise & _).
  destruct (or_error_found_raise_or_call (lib := Demo.demo_query Demo.demo_rows)
              (VInt 3) (VCallable 0) tt) as (_ & _ & Hcall & _).
  destruct (or_error_found_raise_or_call (lib := Demo.demo_query [])
              (VInt 0) (VCallable 1) tt) as (_ & _ & _ & _ & _ & Hfirst).
  split; [|split; [|split]].
  - by apply Hfound.
  - by eapply Hraise.
  - by rewrite (Hcall tt).
  - by rewrite (Hfirst tt).
Defined.

(** An exception class passed as [error] is called, not raised: the
    caller gets an exception instance back as the result. *)
Example first_or_error_class_is_returned :
  first_or_error (lib := Demo.demo_query []) (VCallable 1) tt
  = (Ret (VExn Demo.lookup_error), tt).
Proof. reflexivity. Qed.

End QuerySpec.

(** ** [get_engine] and the [engine] property *)

Module EngineSpec.
Import Engine.

Lemma key_eq_recorded (key : pyval * pyval) : key_eq key (Some key) = true.
Proof.
  destruct key as [u e]. unfold key_eq, item_eq. simpl.
  by rewrite !bool_decide_eq_true_2.
Qed.

Section Keyed.
Context {lib : EngineLib}.

(** The world after connector [self] has created engine number
    [length (engines w)] for the current uri and echo. *)
Definition connected (self : loc) (w : sa_obj) : sa_obj :=
  SaObj (sa_uri w) (sa_info w) (sa_options w) (sa_connector w)
        (<[self := Connector (VRef (length (engines w))) (Some (sa_uri w, echo_of w))]>
           (connectors w))
        (engines w ++ [(sa_info w, sa_options w)]).


(** The [engine] property installs a connector when there is none and
    asks it for the engine; later reads go to the connector installed. *)
Lemma engine_installs_once (w : sa_obj) :
  match sa_connector w with
  | Some c => engine w = get_engine c w
  | None =>
      ∃ c w1, new_connector w = (Ret c, w1) ∧
              sa_connector (engine w).2 = Some c ∧
              c ∉ dom (connectors w)
  end.
Proof.
  unfold engine. destruct (sa_connector w) as [c|] eqn:Hc; [done|].
  exists (fresh (dom (connectors w))). eexists. split; [done|].
  split; [|apply is_fresh].
  unfold bind, new_connector. simpl.
  unfold get_engine. simpl.
  destruct (key_eq _ _); [done|].
  unfold bind, create_engine. simpl.
  by destruct (create_engine_error _ _).
Qed.

End Keyed.

(** The first read of [engine] on a new database object installs
    connector 0 and creates engine 0; the second read returns the same
    engine; after the uri has changed, the next read creates engine 1. *)
Definition db_connected : sa_obj := (engine (lib := Demo.demo_engines) Demo.db_sqlite).2.

Definition db_moved : sa_obj :=
  SaObj (VStr "sqlite:///b.db") (VStr "sqlite:///b.db")
        (sa_options db_connected) (sa_connector db_connected)
        (connectors db_connected) (engines db_connected).

Example engine_first_read :
  (engine (lib := Demo.demo_engines) Demo.db_sqlite).1 = Ret (VRef 0%nat) ∧
  sa_connector db_connected = Some 0%nat ∧
  length (engines db_connected) = 1%nat.
Proof. done. Qed.


End EngineSpec.

(** ** Any interleaving of reads of [engine] and calls of [get_engine] *)

Module ConcurrentSpec.
Import Engine Concurrent.

(** The thread is inside the [with] block of the property. *)
Definition in_property (p : pc) : bool :=
  match p with
  | PropLocked | PropMake | PropInstall _ | PropCall _ | PropExit _ => true
  | GetEnter _ prop | GetRead _ prop | GetCompare _ prop _ _ _
  | GetRecord _ prop _ _ | GetExit _ prop _ => prop
  | Start _ | Finished _ => false
  end.

(** The connector in whose [with] block the thread is, if any. *)
Definition in_get (p : pc) : option loc :=
  match p with
  | GetRead c _ | GetCompare c _ _ _ _ | GetRecord c _ _ _ | GetExit c _ _ => Some c
  | _ => None
  end.

(** The pair for which connector [c] created its latest engine. *)
Fixpoint last_key (c : loc) (log : list (loc * (pyval * pyval))) : option (pyval * pyval) :=
  match log with
  | [] => None
  | (c', k) :: rest =>
      match last_key c rest with
      | Some k' => Some k'
      | None => if decide (c' = c) then Some k else None
      end
  end.

(** A history of creations in which every engine was created for a pair
    that differs from the one its connector had created its previous
    engine for. *)
Inductive keyed : list (loc * (pyval * pyval)) → Prop :=
| keyed_nil : keyed []
| keyed_snoc log c k :
    keyed log → key_eq k (last_key c log) = false → keyed (log ++ [(c, k)]).

Lemma last_key_snoc (c c' : loc) (k : pyval * pyval) (log : list (loc * (pyval * pyval))) :
  last_key c (log ++ [(c', k)]) = if decide (c' = c) then Some k else last_key c log.
Proof.
  induction log as [|[c0 k0] log IH]; simpl; [done|].
  rewrite IH. by repeat case_decide; destruct (last_key c log).
Qed.

(** What holds in every state that the threads can reach. *)
Record invariant (s : state) : Prop := Invariant {
  inv_engine_lock :
    ∀ t p, threads s !! t = Some p → in_property p = true → engine_lock s = Some t;
  inv_connector_lock :
    ∀ t p c, threads s !! t = Some p → in_get p = Some c →
             connector_locks s !! c = Some t;
  inv_none_installed :
    ∀ t p, threads s !! t = Some p → (p = PropMake ∨ ∃ c, p = PropInstall c) →
           sa_connector (obj s) = None;
  inv_installed : installed s = option_list (sa_connector (obj s));
  inv_keyed : keyed (created s);
  inv_recording :
    ∀ t c prop key engine,
      threads s !! t = Some (GetRecord c prop key engine) →
      last_key c (created s) = Some key;
  inv_recorded :
    ∀ c, (∀ t prop key engine, threads s !! t ≠ Some (GetRecord c prop key engine)) →
         last_key c (created s) = _connected_for (connector_of (obj s) c)
}.

Lemma invariant_initial (uri info : pyval) (options : dict) :
  invariant (initial uri info options).
Proof. by split; try constructor. Qed.

Section Preserved.
Context {lib : EngineLib}.

Lemma invariant_spawn (t : nat) (what : call) (s s' : state) :
  invariant s → exec (Spawn t what) s = Some s' → invariant s'.
Proof.
  intros [L1 L2 I H K R1 R2] Hexec. simpl in Hexec.
  destruct (threads s !! t) eqn:Ht; [done|]. simplify_eq.
  split; simpl; try done.
  - intros t' p Hp Hin. apply lookup_insert_Some in Hp as [[<- <-]|[Hne Hp]]; [done|eauto].
  - intros t' p c Hp Hin. apply lookup_insert_Some in Hp as [[<- <-]|[Hne Hp]]; [done|eauto].
  - intros t' p Hp Hin. apply lookup_insert_Some in Hp as [[<- <-]|[Hne Hp]]; [|eauto].
    by destruct Hin as [?|[? ?]].
  - intros t' c prop key engine Hp.
    apply lookup_insert_Some in Hp as [[<- ?]|[Hne Hp]]; [done|eauto].
  - intros c Hnone. apply R2. intros t' prop key engine Hp.
    apply (Hnone t' prop key engine). rewrite lookup_insert_ne; [done|].
    intros <-. by rewrite Ht in Hp.
Qed.

Lemma invariant_assign (uri info : pyval) (options : dict) (s s' : state) :
  invariant s → exec (Assign uri info options) s = Some s' → invariant s'.
Proof.
  intros [L1 L2 I H K R1 R2] Hexec. simpl in Hexec. simplify_eq.
  by split.
Qed.

Definition is_recording (p : pc) : bool :=
  match p with
  | GetRecord _ _ _ _ => true
  | _ => false
  end.

(** A statement that only moves the thread, between two places where
    nothing is being recorded. *)
Lemma invariant_set_pc (t : nat) (p p' : pc) (s : state) :
  invariant s → threads s !! t = Some p →
  is_recording p = false → is_recording p' = false →
  (in_property p' = true → engine_lock s = Some t) →
  (∀ c, in_get p' = Some c → connector_locks s !! c = Some t) →
  ((p' = PropMake ∨ ∃ c, p' = PropInstall c) → sa_connector (obj s) = None) →
  invariant (set_pc t p' s).
Proof.
  intros [L1 L2 I H K R1 R2] Ht Hp Hp' Hprop Hget Hinst.
  split; simpl; try done.
  - intros t' q Hq Hin. apply lookup_insert_Some in Hq as [[<- <-]|[Hne Hq]]; eauto.
  - intros t' q c Hq Hin. apply lookup_insert_Some in Hq as [[<- <-]|[Hne Hq]]; eauto.
  - intros t' q Hq Hin. apply lookup_insert_Some in Hq as [[<- <-]|[Hne Hq]]; eauto.
  - intros t' c prop key engine Hq.
    apply lookup_insert_Some in Hq as [[<- ->]|[Hne Hq]]; [done|eauto].
  - intros c Hnone. apply R2. intros t' prop key engine Hq.
    destruct (decide (t' = t)) as [->|Hne].
    + rewrite Ht in Hq. by simplify_eq.
    + apply (Hnone t' prop key engine). by rewrite lookup_insert_ne.
Qed.

Ltac thread_moves :=
  eapply invariant_set_pc; try done;
  try (intros [?|[? ?]]; discriminate);
  try (intros ? Hc'; simpl in Hc'; by simplify_eq).

Lemma invariant_thread_step (t : nat) (s s' : state) :
  invariant s → thread_step t s = Some s' → invariant s'.
Proof.
  intros Hinv Hstep. unfold thread_step in Hstep.
  destruct (threads s !! t) as [p|] eqn:Ht; [|done].
  pose proof Hinv as [L1 L2 I H K R1 R2].
  destruct p as [[|c]| | |c|c|c prop|c prop|c prop uri info options
                |c prop key engine|c prop result|result|result].
  - (* the property takes its lock *)
    destruct (engine_lock s) as [holder|] eqn:Hlock; [done|]. simplify_eq.
    split; simpl; try done.
    + intros t' q Hq Hin. apply lookup_insert_Some in Hq as [[<- <-]|[Hne Hq]]; [done|].
      specialize (L1 t' q Hq Hin). congruence.
    + intros t' q c Hq Hin. apply lookup_insert_Some in Hq as [[<- <-]|[Hne Hq]]; [done|eauto].
    + intros t' q Hq Hin. apply lookup_insert_Some in Hq as [[<- <-]|[Hne Hq]]; [|eauto].
      by destruct Hin as [?|[? ?]].
    + intros t' c prop key engine Hq.
      apply lookup_insert_Some in Hq as [[<- ?]|[Hne Hq]]; [done|eauto].
    + intros c Hnone. apply R2. intros t' prop key engine Hq.
      destruct (decide (t' = t)) as [->|Hne]; [by rewrite Ht in Hq|].
      apply (Hnone t' prop key engine). by rewrite lookup_insert_ne.
  - (* get_engine is called on its own *)
    simplify_eq. thread_moves.
  - (* the property reads self.connector *)
    destruct (sa_connector (obj s)) as [c|] eqn:Hc; simplify_eq.
    + thread_moves. intros _. by eapply L1.
    + thread_moves. intros _. by eapply L1.
  - (* the property makes a connector *)
    simplify_eq.
    assert (Hnone : sa_connector (obj s) = None) by (eapply I; eauto).
    split; simpl; try done.
    + intros t' q Hq Hin. apply lookup_insert_Some in Hq as [[<- <-]|[Hne Hq]]; eauto.
    + intros t' q c Hq Hin. apply lookup_insert_Some in Hq as [[<- <-]|[Hne Hq]]; [done|eauto].
    + intros t' c prop key engine Hq.
      apply lookup_insert_Some in Hq as [[<- ?]|[Hne Hq]]; [done|eauto].
    + intros c Hno.
      assert (Hold : last_key c (created s) = _connected_for (connector_of (obj s) c)).
      { apply R2. intros t' prop key engine Hq.
        destruct (decide (t' = t)) as [->|Hne]; [by rewrite Ht in Hq|].
        apply (Hno t' prop key engine). by rewrite lookup_insert_ne. }
      rewrite Hold. unfold connector_of. simpl.
      destruct (decide (fresh (dom (connectors (obj s))) = c)) as [<-|Hne].
      * rewrite lookup_insert_eq.
        assert (Hfresh : connectors (obj s) !! fresh (dom (connectors (obj s))) = None).
        { apply not_elem_of_dom, is_fresh. }
        by rewrite Hfresh.
      * by rewrite lookup_insert_ne.
  - (* the property installs the connector *)
    simplify_eq.
    assert (Hnone : sa_connector (obj s) = None) by (eapply I; eauto).
    assert (Hlock : engine_lock s = Some t) by (by eapply L1).
    split; simpl; try done.
    + intros t' q Hq Hin. apply lookup_insert_Some in Hq as [[<- <-]|[Hne Hq]]; eauto.
    + intros t' q c' Hq Hin. apply lookup_insert_Some in Hq as [[<- <-]|[Hne Hq]]; [done|eauto].
    + intros t' q Hq Hin. apply lookup_insert_Some in Hq as [[<- <-]|[Hne Hq]].
      * by destruct Hin as [?|[? ?]].
      * assert (engine_lock s = Some t') as Hl'; [|congruence].
        eapply L1; [done|]. by destruct Hin as [->|[? ->]].
    + by rewrite H, Hnone.
    + intros t' c' prop key engine Hq.
      apply lookup_insert_Some in Hq as [[<- ?]|[Hne Hq]]; [done|eauto].
    + intros c' Hno. apply (R2 c'). intros t' prop key engine Hq.
      destruct (decide (t' = t)) as [->|Hne]; [by rewrite Ht in Hq|].
      apply (Hno t' prop key engine). by rewrite lookup_insert_ne.
  - (* the property calls get_engine *)
    simplify_eq. thread_moves.
    intros _. by eapply L1.
  - (* get_engine takes the lock of the connector *)
    destruct (connector_locks s !! c) as [holder|] eqn:Hlock; [done|]. simplify_eq.
    split; simpl; try done.
    + intros t' q Hq Hin. apply lookup_insert_Some in Hq as [[<- <-]|[Hne Hq]]; eauto.
    + intros t' q c' Hq Hin. apply lookup_insert_Some in Hq as [[<- <-]|[Hne Hq]].
      * simpl in Hin. simplify_eq. by rewrite lookup_insert_eq.
      * specialize (L2 t' q c' Hq Hin).
        rewrite lookup_insert_ne; [done|]. intros <-. congruence.
    + intros t' q Hq Hin. apply lookup_insert_Some in Hq as [[<- <-]|[Hne Hq]]; [|eauto].
      by destruct Hin as [?|[? ?]].
    + intros t' c' prop' key engine Hq.
      apply lookup_insert_Some in Hq as [[<- ?]|[Hne Hq]]; [done|eauto].
    + intros c' Hno. apply (R2 c'). intros t' prop' key engine Hq.
      destruct (decide (t' = t)) as [->|Hne]; [by rewrite Ht in Hq|].
      apply (Hno t' prop' key engine). by rewrite lookup_insert_ne.
  - (* get_engine reads uri, info and options *)
    simplify_eq. thread_moves.
    + intros Hp. by eapply L1.
    + intros c' Hc'. simpl in Hc'. simplify_eq. by eapply L2.
  - (* get_engine compares, and creates an engine unless the pair is the same *)
    assert (Hmine : connector_locks s !! c = Some t) by (by eapply L2).
    assert (Hnobody : ∀ t' prop' key engine,
               threads s !! t' ≠ Some (GetRecord c prop' key engine)).
    { intros t' prop' key engine Hq.
      assert (connector_locks s !! c = Some t') by (by eapply L2).
      assert (t' = t) as -> by congruence. by rewrite Ht in Hq. }
    destruct (key_eq _ _) eqn:Hkey.
    { simplify_eq. thread_moves. intros Hp. by eapply L1. }
    destruct (create_engine_error info options) as [e|] eqn:Hcreate.
    { simplify_eq. thread_moves. intros Hp. by eapply L1. }
    simplify_eq.
    split; simpl; try done.
    + intros t' q Hq Hin. apply lookup_insert_Some in Hq as [[<- <-]|[Hne Hq]]; eauto.
    + intros t' q c' Hq Hin. apply lookup_insert_Some in Hq as [[<- <-]|[Hne Hq]]; [|eauto].
      simpl in Hin. by simplify_eq.
    + intros t' q Hq Hin. apply lookup_insert_Some in Hq as [[<- <-]|[Hne Hq]]; [|eauto].
      by destruct Hin as [?|[? ?]].
    + constructor; [done|]. by rewrite (R2 c Hnobody).
    + intros t' c' prop' key engine Hq. rewrite last_key_snoc.
      apply lookup_insert_Some in Hq as [[<- Heq]|[Hne Hq]].
      * simplify_eq. by rewrite decide_True.
      * rewrite decide_False; [eauto|].
        intros ->. by apply (Hnobody t' prop' key engine).
    + intros c' Hno. rewrite last_key_snoc.
      assert (Hne : c ≠ c').
      { intros ->. apply (Hno t prop (uri, default VNone (dict_get "echo" options))
                            (VRef (length (engines (obj s))))).
        by rewrite lookup_insert_eq. }
      rewrite decide_False by done.
      unfold connector_of. simpl. rewrite lookup_insert_ne by done.
      apply (R2 c'). intros t' prop' key engine Hq.
      destruct (decide (t' = t)) as [->|Hne']; [by rewrite Ht in Hq|].
      apply (Hno t' prop' key engine). by rewrite lookup_insert_ne.
  - (* get_engine records the pair *)
    simplify_eq.
    assert (Hmine : connector_locks s !! c = Some t) by (by eapply L2).
    split; simpl; try done.
    + intros t' q Hq Hin. apply lookup_insert_Some in Hq as [[<- <-]|[Hne Hq]]; eauto.
    + intros t' q c' Hq Hin. apply lookup_insert_Some in Hq as [[<- <-]|[Hne Hq]]; [|eauto].
      simpl in Hin. by simplify_eq.
    + intros t' q Hq Hin. apply lookup_insert_Some in Hq as [[<- <-]|[Hne Hq]]; [|eauto].
      by destruct Hin as [?|[? ?]].
    + intros t' c' prop' key' engine' Hq.
      apply lookup_insert_Some in Hq as [[<- ?]|[Hne Hq]]; [done|eauto].
    + intros c' Hno. unfold connector_of. simpl.
      destruct (decide (c = c')) as [<-|Hne].
      * rewrite lookup_insert_eq. simpl. by eapply R1.
      * rewrite lookup_insert_ne by done. apply (R2 c').
        intros t' prop' key' engine' Hq.
        destruct (decide (t' = t)) as [->|Hne'].
        -- rewrite Ht in Hq. by simplify_eq.
        -- apply (Hno t' prop' key' engine'). by rewrite lookup_insert_ne.
  - (* get_engine releases the lock of the connector *)
    simplify_eq.
    assert (Hmine : connector_locks s !! c = Some t) by (by eapply L2).
    split; simpl; try done.
    + intros t' q Hq Hin. apply lookup_insert_Some in Hq as [[<- <-]|[Hne Hq]]; [|eauto].
      eapply L1; [done|]. by destruct prop.
    + intros t' q c' Hq Hin. apply lookup_insert_Some in Hq as [[<- <-]|[Hne Hq]].
      * by destruct prop.
      * specialize (L2 t' q c' Hq Hin).
        rewrite lookup_delete_ne; [done|]. intros <-. congruence.
    + intros t' q Hq Hin. apply lookup_insert_Some in Hq as [[<- <-]|[Hne Hq]]; [|eauto].
      by destruct prop, Hin as [?|[? ?]].
    + intros t' c' prop' key engine Hq.
      apply lookup_insert_Some in Hq as [[<- ?]|[Hne Hq]]; [by destruct prop|eauto].
    + intros c' Hno. apply (R2 c'). intros t' prop' key engine Hq.
      destruct (decide (t' = t)) as [->|Hne]; [by rewrite Ht in Hq|].
      apply (Hno t' prop' key engine). by rewrite lookup_insert_ne.
  - (* the property releases its lock *)
    simplify_eq.
    assert (Hlock : engine_lock s = Some t) by (by eapply L1).
    split; simpl; try done.
    + intros t' q Hq Hin. apply lookup_insert_Some in Hq as [[<- <-]|[Hne Hq]]; [done|].
      specialize (L1 t' q Hq Hin). congruence.
    + intros t' q c' Hq Hin. apply lookup_insert_Some in Hq as [[<- <-]|[Hne Hq]]; [done|eauto].
    + intros t' q Hq Hin. apply lookup_insert_Some in Hq as [[<- <-]|[Hne Hq]]; [|eauto].
      by destruct Hin as [?|[? ?]].
    + intros t' c' prop' key engine Hq.
      apply lookup_insert_Some in Hq as [[<- ?]|[Hne Hq]]; [done|eauto].
    + intros c' Hno. apply (R2 c'). intros t' prop' key engine Hq.
      destruct (decide (t' = t)) as [->|Hne]; [by rewrite Ht in Hq|].
      apply (Hno t' prop' key engine). by rewrite lookup_insert_ne.
  - done.
Qed.

(** The invariant holds after any interleaving. *)
Lemma invariant_run_trace (trace : list action) (s s' : state) :
  invariant s → run_trace trace s = Some s' → invariant s'.
Proof.
  revert s. induction trace as [|a trace IH]; intros s Hinv Hrun; simpl in Hrun.
  - by simplify_eq.
  - destruct (exec a s) as [s1|] eqn:Hexec; [|done].
    apply (IH s1); [|done].
    destruct a as [t|t what|uri info options].
    + by apply (invariant_thread_step t s).
    + by apply (invariant_spawn t what s).
    + by apply (invariant_assign uri info options s).
Qed.

(** In a keyed history whose entries were all created for the same pair,
    every connector has at most one entry. *)
Lemma keyed_same_pair (K : pyval * pyval) (log : list (loc * (pyval * pyval))) :
  keyed log → (∀ e, e ∈ log → e.2 = K) →
  ∀ c, (filter (fun e => e.1 = c) log = [] ∧ last_key c log = None) ∨
       (filter (fun e => e.1 = c) log = [(c, K)] ∧ last_key c log = Some K).
Proof.
  induction 1 as [|log c' k Hlog IH Hkey]; intros Hsame c; [by left|].
  assert (k = K) as -> by (apply (Hsame (c', k)); set_solver).
  specialize (IH ltac:(intros e He; apply Hsame; set_solver)).
  rewrite filter_app, last_key_snoc. simpl.
  destruct (decide (c' = c)) as [<-|Hne].
  - rewrite filter_cons_True by done.
    destruct (IH c') as [[Hnone Hlast]|[Hone Hlast]].
    + right. by rewrite Hnone.
    + rewrite Hlast in Hkey.
      pose proof (EngineSpec.key_eq_recorded K). congruence.
  - rewrite filter_cons_False by done. rewrite app_nil_r. apply IH.
Qed.


End Preserved.

(** Two threads at once: thread 0 reads [engine] and installs connector
    0; before it calls [get_engine], thread 1 calls [get_engine] on that
    connector, takes its lock and creates engine 0; thread 0 then waits
    for the lock, finds the pair recorded and returns the same engine. *)
Definition two_threads : list action :=
  [Spawn 0 ReadEngine; Run 0; Run 0; Run 0; Run 0;
   Spawn 1 (GetEngine 0%nat); Run 1; Run 1; Run 0;
   Run 1; Run 1; Run 1; Run 1;
   Run 0; Run 0; Run 0; Run 0; Run 0].

Definition sqlite_a : state :=
  initial (VStr "sqlite:///a.db") (VStr "sqlite:///a.db") [("echo", VBool false)].

Definition after_two_threads : state :=
  default sqlite_a (run_trace (lib := Demo.demo_engines) two_threads sqlite_a).

Example two_threads_share_one_engine :
  run_trace (lib := Demo.demo_engines) two_threads sqlite_a = Some after_two_threads ∧
  threads after_two_threads !! 0%nat = Some (Finished (Ret (VRef 0%nat))) ∧
  threads after_two_threads !! 1%nat = Some (Finished (Ret (VRef 0%nat))) ∧
  length (engines (obj after_two_threads)) = 1%nat.
Proof. by vm_compute. Qed.


(** The uri goes from a to b and back to a, with a read of [engine]
    after each assignment. *)
Definition back_and_forth : list action :=
  [Spawn 0 ReadEngine;
   Run 0; Run 0; Run 0; Run 0; Run 0; Run 0; Run 0; Run 0; Run 0; Run 0; Run 0;
   Assign (VStr "sqlite:///b.db") (VStr "sqlite:///b.db") [("echo", VBool false)];
   Spawn 1 ReadEngine;
   Run 1; Run 1; Run 1; Run 1; Run 1; Run 1; Run 1; Run 1; Run 1;
   Assign (VStr "sqlite:///a.db") (VStr "sqlite:///a.db") [("echo", VBool false)];
   Spawn 2 ReadEngine;
   Run 2; Run 2; Run 2; Run 2; Run 2; Run 2; Run 2; Run 2; Run 2].

Definition after_back_and_forth : state :=
  default sqlite_a (run_trace (lib := Demo.demo_engines) back_and_forth sqlite_a).


End ConcurrentSpec.

(** ** The table name of a model class *)

Module TableNameSpec.
Import TableName.

Example underscore_examples :
  InflectionModel.underscore "DeviceType" = "device_type" ∧
  InflectionModel.underscore "HTMLParser" = "html_parser" ∧
  InflectionModel.underscore "IOError" = "io_error" ∧
  InflectionModel.underscore "User2Role" = "user2_role" ∧
  InflectionModel.underscore "Admin" = "admin".
Proof. done. Qed.

Section Inferred.
Context {lib : Inflection}.

(** The class [type] after the descriptor has stored the inferred name
    in its namespace. *)
Definition named (type : loc) (cls : class_obj) (w : classes) : classes :=
  <[type := ClassObj (cls_name cls) (Some (VStr (underscore (cls_name cls)))) (cls_mro cls)]> w.

(** C3 (as amended).  For a model class such that neither it nor a class
    after it in its method resolution order has [__tablename__] in its
    namespace, reading [__tablename__] gives the underscored class name
    and stores it in the namespace of the class, so that the next read
    gives the same name and changes nothing.  A class that has
    [__tablename__] in its own namespace reads its own value.  A class
    that has none but follows (inherits from) a model class that has one
    reads the first such value along the order, and nothing is stored. *)
Theorem tablename_inferred_unless_found (type : loc) (cls : class_obj) (w : classes) :
  w !! type = Some cls →
  (find_in_mro w (type :: cls_mro cls) = None →
   read_tablename type w = (Ret (VStr (underscore (cls_name cls))), named type cls w) ∧
   read_tablename type (named type cls w)
     = (Ret (VStr (underscore (cls_name cls))), named type cls w)) ∧
  (∀ v, cls_tablename cls = Some v → read_tablename type w = (Ret v, w)) ∧
  (∀ v, cls_tablename cls = None → find_in_mro w (cls_mro cls) = Some v →
        read_tablename type w = (Ret v, w)).
Proof.
  intros Htype. split; [|split].
  - intros Hnone.
    assert (Hown : cls_tablename cls = None).
    { simpl in Hnone. rewrite Htype in Hnone. simpl in Hnone.
      by destruct (cls_tablename cls). }
    split.
    + unfold read_tablename. rewrite Htype, Hnone.
      unfold descriptor_get. by rewrite Htype, Hown.
    + unfold read_tablename, named. rewrite lookup_insert_eq. simpl.
      by rewrite lookup_insert_eq.
  - intros v Hv. unfold read_tablename. rewrite Htype. simpl.
    by rewrite Htype; simpl; rewrite Hv.
  - intros v Hown Hmro. unfold read_tablename. rewrite Htype. simpl.
    by rewrite Htype; simpl; rewrite Hown, Hmro.
Qed.

End Inferred.

(** [class User(db.BaseModel)] with [__tablename__ = "users"], its
    subclass [class Admin(User)] without one (single-table inheritance),
    and [class DeviceType(db.BaseModel)] without one. *)
Definition demo_classes : classes :=
  <[0%nat := ClassObj "User" (Some (VStr "users")) []]>
    (<[1%nat := ClassObj "Admin" None [0%nat]]>
       (<[2%nat := ClassObj "DeviceType" None []]> ∅)).

(** C3, the claim as stated fails: [Admin] defines no [__tablename__],
    and reading it gives the name of its base class, not the underscored
    class name. *)
Lemma tablename_inherited_counterexample :
  cls_tablename <$> (demo_classes !! 1%nat) = Some None ∧
  read_tablename (lib := InflectionModel.inflection_lib) 1%nat demo_classes
    = (Ret (VStr "users"), demo_classes) ∧
  VStr "users" ≠ VStr (InflectionModel.underscore "Admin").
Proof. done. Qed.

(** C3 on these classes: the name of [DeviceType] is inferred and
    stored, [User] keeps its own. *)
Lemma tablename_inferred_unless_found_witness :
  read_tablename (lib := InflectionModel.inflection_lib) 2%nat demo_classes
    = (Ret (VStr "device_type"),
       named (lib := InflectionModel.inflection_lib) 2%nat
         (ClassObj "DeviceType" None []) demo_classes) ∧
  read_tablename (lib := InflectionModel.inflection_lib) 0%nat demo_classes
    = (Ret (VStr "users"), demo_classes).
Proof.
  destruct (tablename_inferred_unless_found (lib := InflectionModel.inflection_lib)
              2%nat (ClassObj "DeviceType" None []) demo_classes eq_refl)
    as (Hinferred & _).
  destruct (tablename_inferred_unless_found (lib := InflectionModel.inflection_lib)
              0%nat (ClassObj "User" (Some (VStr "users")) []) demo_classes eq_refl)
    as (_ & Hown & _).
  split.
  - by apply Hinferred.
  - by apply Hown.
Defined.

End TableNameSpec.

(** ** The encoder and the decoder are inverse on the values JSON has *)

Module JsonSpec.
Import Json.

Lemma append_nil (b : string) : "" +:+ b = b.
Proof. reflexivity. Qed.

Lemma append_cons (x : ascii) (a b : string) : String x a +:+ b = String x (a +:+ b).
Proof. reflexivity. Qed.

Ltac norm_text := repeat (rewrite append_cons || rewrite append_nil).

Lemma append_assoc (a b c : string) : (a +:+ b) +:+ c = a +:+ (b +:+ c).
Proof.
  induction a as [|x a IH]; [done|]. by rewrite !append_cons, IH.
Qed.

Lemma length_append (a b : string) :
  String.length (a +:+ b) = (String.length a + String.length b)%nat.
Proof.
  induction a as [|x a IH]; [done|]. rewrite append_cons. simpl. by rewrite IH.
Qed.

(** *** Strings *)

(** The decoder reads the replacement of a character back as that
    character. *)
Lemma scan_escape_char (c : ascii) (tail : string) :
  scan_string (escape_char c +:+ tail) = push c (scan_string tail).
Proof.
  destruct c as [[] [] [] [] [] [] [] []]; reflexivity.
Qed.

Lemma scan_escape (s rest : string) :
  scan_string (escape s +:+ String quote rest) = Parsed s rest.
Proof.
  induction s as [|c s IH]; [done|].
  change (escape (String c s)) with (escape_char c +:+ escape s).
  by rewrite append_assoc, scan_escape_char, IH.
Qed.

Lemma scan_encode_string (s rest : string) :
  ∃ body, encode_string s +:+ rest = String quote body ∧
          scan_string body = Parsed s rest.
Proof.
  exists (escape s +:+ String quote rest). split.
  - unfold encode_string.
    by rewrite append_cons, append_assoc, append_cons, append_nil.
  - apply scan_escape.
Qed.

(** *** Integers *)

(** The number that the digits [d] make when read onto [acc]. *)
Fixpoint value (d : Decimal.uint) (acc : N) : N :=
  match d with
  | Decimal.Nil => acc
  | Decimal.D0 d => value d (10 * acc + 0)
  | Decimal.D1 d => value d (10 * acc + 1)
  | Decimal.D2 d => value d (10 * acc + 2)
  | Decimal.D3 d => value d (10 * acc + 3)
  | Decimal.D4 d => value d (10 * acc + 4)
  | Decimal.D5 d => value d (10 * acc + 5)
  | Decimal.D6 d => value d (10 * acc + 6)
  | Decimal.D7 d => value d (10 * acc + 7)
  | Decimal.D8 d => value d (10 * acc + 8)
  | Decimal.D9 d => value d (10 * acc + 9)
  end%N.

Lemma scan_digits_uint (d : Decimal.uint) (acc : N) (rest : string) :
  scan_digits acc (uint_digits d +:+ rest) = scan_digits (value d acc) rest.
Proof.
  revert acc. induction d; intros acc; simpl;
    rewrite ?append_nil, ?append_cons; simpl; try done; apply IHd.
Qed.

Lemma value_pos (d : Decimal.uint) (acc : positive) :
  value d (Npos acc) = Npos (Pos.of_uint_acc d acc).
Proof.
  revert acc. induction d; intros acc; simpl; try done;
    rewrite <- IHd; f_equal; lia.
Qed.

Lemma value_0 (d : Decimal.uint) : value d 0 = Pos.of_uint d.
Proof.
  induction d; simpl; try done; by rewrite <- value_pos.
Qed.

Lemma value_to_uint (p : positive) : value (Pos.to_uint p) 0 = Npos p.
Proof. rewrite value_0. apply DecimalPos.Unsigned.of_to. Qed.

(** A positive number is written without a leading zero. *)
Lemma to_uint_head (p : positive) :
  ∀ d, Pos.to_uint p ≠ Decimal.D0 d ∧ Pos.to_uint p ≠ Decimal.Nil.
Proof.
  intros d. split; [|apply DecimalPos.Unsigned.to_uint_nonnil].
  intros Hd.
  assert (Hnorm : Decimal.unorm (Pos.to_uint p) = Pos.to_uint p).
  { rewrite <- DecimalPos.Unsigned.to_of.
    by rewrite DecimalPos.Unsigned.of_to. }
  rewrite Hd in Hnorm. unfold Decimal.unorm in Hnorm. simpl in Hnorm.
  destruct (Decimal.nzhead d) eqn:Hnz; try discriminate.
  - injection Hnorm as <-.
    by apply (DecimalPos.Unsigned.to_uint_nonzero p).
  - injection Hnorm as <-.
    by apply (DecimalFacts.nzhead_nonzero (Decimal.D0 u) u).
Qed.

(** What follows a value in the text of the encoder: a comma, a closing
    bracket or brace, or the end. *)
Definition delimited (rest : string) : Prop :=
  match rest with
  | EmptyString => True
  | String c _ => c = ","%char ∨ c = "]"%char ∨ c = "}"%char
  end.

Lemma delimited_cases (rest : string) :
  delimited rest →
  rest = "" ∨ ∃ c r, rest = String c r ∧ (c = ","%char ∨ c = "]"%char ∨ c = "}"%char).
Proof. destruct rest as [|c r]; [by left|]. intros H. right. by exists c, r. Qed.

Lemma scan_digits_stop (acc : N) (rest : string) :
  delimited rest → scan_digits acc rest = (acc, rest).
Proof.
  intros [->|(c & r & -> & [->|[->| ->]])]%delimited_cases; reflexivity.
Qed.

Lemma float_follows_delimited (rest : string) :
  delimited rest → float_follows rest = false.
Proof.
  intros [->|(c & r & -> & [->|[->| ->]])]%delimited_cases; reflexivity.
Qed.

Lemma skip_ws_delimited (rest : string) : delimited rest → skip_ws rest = rest.
Proof.
  intros [->|(c & r & -> & [->|[->| ->]])]%delimited_cases; reflexivity.
Qed.

#[local] Arguments float_follows : simpl never.

(** The scanner reads the text of an integer back, whatever the fuel. *)
Lemma scan_value_int (fuel : nat) (z : Z) (rest : string) :
  delimited rest →
  scan_value (S fuel) (print_int z +:+ rest) = Parsed (VInt z) rest.
Proof.
  intros Hrest.
  destruct z as [|p|p]; simpl print_int.
  - rewrite append_cons, append_nil. simpl. unfold scan_number. simpl.
    by rewrite (float_follows_delimited rest Hrest).
  - pose proof (value_to_uint p) as Hval.
    destruct (to_uint_head p Decimal.Nil) as [_ Hnil].
    destruct (Pos.to_uint p) as [|d|d|d|d|d|d|d|d|d|d] eqn:Hd; [done| |..].
    { by destruct (to_uint_head p d) as [Hz _]. }
    all: simpl uint_digits; rewrite append_cons; simpl;
      unfold scan_number; simpl;
      rewrite scan_digits_uint, (scan_digits_stop _ rest Hrest),
        (float_follows_delimited rest Hrest);
      simpl in Hval;
      match goal with
      | |- context [value ?d' ?e] =>
          replace (value d' e) with (N.pos p) by (rewrite <- Hval; by f_equal)
      end;
      done.
  - pose proof (value_to_uint p) as Hval.
    destruct (to_uint_head p Decimal.Nil) as [_ Hnil].
    destruct (Pos.to_uint p) as [|d|d|d|d|d|d|d|d|d|d] eqn:Hd; [done| |..].
    { by destruct (to_uint_head p d) as [Hz _]. }
    all: simpl uint_digits; rewrite !append_cons; simpl;
      unfold scan_number; simpl;
      rewrite scan_digits_uint, (scan_digits_stop _ rest Hrest),
        (float_follows_delimited rest Hrest);
      simpl in Hval;
      match goal with
      | |- context [value ?d' ?e] =>
          replace (value d' e) with (N.pos p) by (rewrite <- Hval; by f_equal)
      end;
      done.
Qed.

(** *** Values *)

(** Induction on values, through the items of lists and tuples and the
    entries of dictionaries. *)
Lemma pyval_nested_ind (P : pyval → Prop) :
  (∀ v, (∀ items, v ≠ VList items) → (∀ items, v ≠ VTuple items) →
        (∀ entries, v ≠ VDict entries) → P v) →
  (∀ items, Forall P items → P (VList items)) →
  (∀ items, Forall P items → P (VTuple items)) →
  (∀ entries, Forall (fun kv => P kv.2) entries → P (VDict entries)) →
  ∀ v, P v.
Proof.
  intros Hscalar Hlist Htuple Hdict. fix IH 1.
  intros v. destruct v as [ |b|n|s|items|items|entries|iso|iso|iso| |l|e|f];
    try (apply Hscalar; intros; discriminate).
  - apply Hlist. revert items. fix IHl 1.
    intros [|a items]; constructor; [apply IH|apply IHl].
  - apply Htuple. revert items. fix IHl 1.
    intros [|a items]; constructor; [apply IH|apply IHl].
  - apply Hdict. revert entries. fix IHl 1.
    intros [|[k a] entries]; constructor; [apply IH|apply IHl].
Qed.

(** The texts of the items of a list, as [dumps] makes them. *)
Fixpoint chunks (items : list pyval) : outcome (list string) :=
  match items with
  | [] => Ret []
  | x :: rest =>
      match dumps x with
      | Ret sx =>
          match chunks rest with
          | Ret l => Ret (sx :: l)
          | Raise e => Raise e
          end
      | Raise e => Raise e
      end
  end.

Fixpoint members (entries : list (string * pyval)) : outcome (list string) :=
  match entries with
  | [] => Ret []
  | (k, x) :: rest =>
      match dumps x with
      | Ret sx =>
          match members rest with
          | Ret l => Ret ((encode_string k +:+ ": " +:+ sx) :: l)
          | Raise e => Raise e
          end
      | Raise e => Raise e
      end
  end.

Lemma dumps_list (items : list pyval) :
  dumps (VList items) =
    match chunks items with
    | Ret l => Ret ("[" +:+ join l +:+ "]")
    | Raise e => Raise e
    end.
Proof. reflexivity. Qed.

Lemma dumps_tuple (items : list pyval) : dumps (VTuple items) = dumps (VList items).
Proof. reflexivity. Qed.

Lemma dumps_dict (entries : list (string * pyval)) :
  dumps (VDict entries) =
    match members entries with
    | Ret l => Ret ("{" +:+ join l +:+ "}")
    | Raise e => Raise e
    end.
Proof. reflexivity. Qed.

(** The fuel the scanner needs for the text of a value. *)
Fixpoint size (v : pyval) : nat :=
  let fix items_size (items : list pyval) : nat :=
    match items with
    | [] => O
    | x :: rest => S (size x + items_size rest)
    end in
  let fix entries_size (entries : list (string * pyval)) : nat :=
    match entries with
    | [] => O
    | (_, x) :: rest => S (size x + entries_size rest)
    end in
  match v with
  | VList items | VTuple items => S (items_size items)
  | VDict entries => S (entries_size entries)
  | _ => 1%nat
  end.

Fixpoint items_size (items : list pyval) : nat :=
  match items with
  | [] => O
  | x :: rest => S (size x + items_size rest)
  end.

Fixpoint entries_size (entries : list (string * pyval)) : nat :=
  match entries with
  | [] => O
  | (_, x) :: rest => S (size x + entries_size rest)
  end.

Lemma size_list (items : list pyval) : size (VList items) = S (items_size items).
Proof. reflexivity. Qed.

Lemma size_dict (entries : list (string * pyval)) :
  size (VDict entries) = S (entries_size entries).
Proof. reflexivity. Qed.

(** A text that starts a value: its first character is no white space
    and closes nothing. *)
Definition starts_value (s : string) : Prop :=
  ∃ c s', s = String c s' ∧ is_ws c = false ∧
          Ascii.eqb c "]" = false ∧ Ascii.eqb c "}" = false.

Lemma skip_ws_starts_value (s rest : string) :
  starts_value s → skip_ws (s +:+ rest) = s +:+ rest.
Proof.
  intros (c & s' & -> & Hws & _). rewrite append_cons. simpl. by rewrite Hws.
Qed.

Lemma starts_value_append (s rest : string) :
  starts_value s → starts_value (s +:+ rest).
Proof.
  intros (c & s' & -> & Hws & Hb & Hc). exists c, (s' +:+ rest). by rewrite append_cons.
Qed.

(** The scanner reads the text [s] back as the value [v]. *)
Definition reads_back (v : pyval) (s : string) : Prop :=
  starts_value s ∧
  (size v ≤ String.length s)%nat ∧
  ∀ fuel rest, (size v ≤ fuel)%nat → delimited rest →
               scan_value fuel (s +:+ rest) = Parsed v rest.

Lemma starts_value_join (sx : string) (l : list string) :
  starts_value sx → starts_value (join (sx :: l)).
Proof.
  intros Hsx. destruct l as [|sy l]; [done|].
  change (join (sx :: sy :: l)) with (sx +:+ ", " +:+ join (sy :: l)).
  by apply starts_value_append.
Qed.

#[local] Arguments join : simpl never.

Lemma join_one (sx : string) : join [sx] = sx.
Proof. reflexivity. Qed.

Lemma join_more (sx sy : string) (l : list string) :
  join (sx :: sy :: l) = sx +:+ ", " +:+ join (sy :: l).
Proof. reflexivity. Qed.

(** The items of a list, one after the other. *)
Lemma scan_items_join (items : list pyval) (l : list string) :
  Forall2 reads_back items l → items ≠ [] →
  ∀ fuel acc rest,
    (items_size items ≤ fuel)%nat →
    scan_items fuel (join l +:+ "]" +:+ rest) acc = Parsed (VList (acc ++ items)) rest.
Proof.
  induction 1 as [|x sx xs l' (Hstart & _ & Hscan) Hrest IH]; [done|].
  intros _ fuel acc rest Hfuel.
  destruct fuel as [|fuel]; [simpl in Hfuel; lia|].
  simpl in Hfuel.
  destruct Hrest as [|y sy ys l'' Hy Hys].
  - rewrite join_one. simpl scan_items.
    rewrite (Hscan fuel ("]" +:+ rest)) by (simpl; (lia || by right; left)).
    rewrite append_cons, append_nil. simpl. done.
  - rewrite join_more, !append_assoc.
    set (tail := join (sy :: l'') +:+ "]" +:+ rest).
    assert (Htail : starts_value tail).
    { apply starts_value_append, starts_value_join, Hy. }
    simpl scan_items.
    rewrite (Hscan fuel) by (first [lia | rewrite append_cons; by left]).
    rewrite !append_cons, append_nil. simpl.
    destruct Htail as (c & t & Ht & Hws & _). rewrite Ht. simpl. rewrite Hws.
    rewrite <- Ht. unfold tail.
    rewrite (IH ltac:(done) fuel (acc ++ [x]) rest) by (simpl in *; lia).
    by rewrite <- app_assoc.
Qed.

Lemma dict_set_fresh (k : string) (v : pyval) (d : dict) :
  k ∉ dict_keys d → dict_set k v d = d ++ [(k, v)].
Proof.
  unfold dict_keys. induction d as [|[k' v'] d IH]; csimpl; [done|].
  intros [Hne Hk]%not_elem_of_cons.
  destruct (String.eqb_spec k' k) as [->|_]; [done|]. by rewrite IH.
Qed.

(** The entries of a dictionary, one after the other. *)
Lemma scan_members_join (entries : list (string * pyval)) (l : list string) :
  Forall2 (fun kv s => ∃ sv, s = encode_string kv.1 +:+ ": " +:+ sv ∧ reads_back kv.2 sv)
          entries l →
  entries ≠ [] →
  ∀ fuel acc rest,
    (entries_size entries ≤ fuel)%nat →
    NoDup (dict_keys (acc ++ entries)) →
    scan_members fuel (join l +:+ "}" +:+ rest) acc = Parsed (VDict (acc ++ entries)) rest.
Proof.
  induction 1 as [|[k x] s xs l' (sx & -> & Hstart & _ & Hscan) Hrest IH]; [done|].
  intros _ fuel acc rest Hfuel Hnd.
  destruct fuel as [|fuel]; [simpl in Hfuel; lia|].
  simpl in Hfuel. simpl fst in *. simpl snd in *.
  assert (Hk : k ∉ dict_keys acc).
  { unfold dict_keys in *. rewrite fmap_app in Hnd.
    apply NoDup_app in Hnd as (_ & Hk & _). intros Hin.
    apply (Hk k Hin). csimpl. set_solver. }
  destruct Hrest as [|[k' y] s' ys l'' (sy & -> & Hy) Hys].
  - match goal with
    | |- scan_members _ ?text _ = _ =>
        replace text with (encode_string k +:+ ": " +:+ sx +:+ "}" +:+ rest)
          by (by rewrite join_one, !append_assoc)
    end.
    destruct (scan_encode_string k (": " +:+ sx +:+ "}" +:+ rest)) as (body & -> & Hbody).
    simpl scan_members. rewrite Hbody. norm_text. simpl.
    rewrite skip_ws_starts_value by done.
    rewrite (Hscan fuel (String "}" rest)) by (simpl; (lia || by right; right)).
    simpl.
    by rewrite dict_set_fresh.
  - set (tail := join ((encode_string k' +:+ ": " +:+ sy) :: l'') +:+ "}" +:+ rest).
    match goal with
    | |- scan_members _ ?text _ = _ =>
        replace text with (encode_string k +:+ ": " +:+ sx +:+ ", " +:+ tail)
          by (unfold tail; by rewrite join_more, !append_assoc)
    end.
    destruct (scan_encode_string k (": " +:+ sx +:+ ", " +:+ tail)) as (body & -> & Hbody).
    simpl scan_members. rewrite Hbody. norm_text. simpl.
    rewrite skip_ws_starts_value by done.
    rewrite (Hscan fuel) by (first [lia | by left]).
    simpl.
    assert (Htail : starts_value tail).
    { unfold tail. apply starts_value_append, starts_value_join.
      exists quote, (escape k' +:+ String quote "" +:+ ": " +:+ sy).
      split; [|done]. unfold encode_string. by rewrite append_cons, !append_assoc. }
    destruct Htail as (c & t & Ht & Hws & _). rewrite Ht. simpl. rewrite Hws.
    rewrite <- Ht. unfold tail.
    rewrite dict_set_fresh by done.
    specialize (IH ltac:(done) fuel (acc ++ [(k, x)]) rest). simpl fst in IH.
    rewrite IH.
    + by rewrite <- app_assoc.
    + simpl in *. lia.
    + by rewrite <- app_assoc.
Qed.

Lemma starts_value_print_int (z : Z) : starts_value (print_int z).
Proof.
  destruct z as [|p|p]; simpl.
  - by exists "0"%char, "".
  - destruct (to_uint_head p Decimal.Nil) as [_ Hnil].
    destruct (Pos.to_uint p) as [|d|d|d|d|d|d|d|d|d|d] eqn:Hd; [done|..];
      simpl; by eexists _, _.
  - by exists "-"%char, (uint_digits (Pos.to_uint p)).
Qed.

Lemma starts_value_length (s : string) : starts_value s → (1 ≤ String.length s)%nat.
Proof. intros (c & s' & -> & _). simpl. lia. Qed.

Lemma append_empty_r (s : string) : s +:+ "" = s.
Proof. induction s as [|c s IH]; [done|]. by rewrite append_cons, IH. Qed.

Lemma items_size_join (items : list pyval) (l : list string) :
  Forall2 reads_back items l → (items_size items ≤ S (String.length (join l)))%nat.
Proof.
  induction 1 as [|x sx xs l' (_ & Hsize & _) Hrest IH]; simpl; [lia|].
  destruct Hrest as [|y sy ys l'' Hy Hys].
  - rewrite join_one. simpl. lia.
  - rewrite join_more, !length_append. simpl in *. lia.
Qed.

Lemma entries_size_join (entries : list (string * pyval)) (l : list string) :
  Forall2 (fun kv s => ∃ sv, s = encode_string kv.1 +:+ ": " +:+ sv ∧ reads_back kv.2 sv)
          entries l →
  (entries_size entries ≤ S (String.length (join l)))%nat.
Proof.
  induction 1 as [|[k x] s xs l' (sx & -> & _ & Hsize & _) Hrest IH]; simpl; [lia|].
  destruct Hrest as [|[k' y] s' ys l'' Hy Hys].
  - rewrite join_one, !length_append. simpl in *. lia.
  - rewrite join_more, !length_append. simpl in *. lia.
Qed.

(** The texts of the items of a list of values that read back. *)
Lemma chunks_read_back (items : list pyval) :
  Forall (fun v => native v = true → ∃ s, dumps v = Ret s ∧ reads_back v s) items →
  forallb native items = true →
  ∃ l, chunks items = Ret l ∧ Forall2 reads_back items l.
Proof.
  induction 1 as [|x xs Hx _ IH]; simpl; [by exists []|].
  intros [Hnx Hnxs]%andb_true_iff.
  destruct (Hx Hnx) as (sx & -> & Hback).
  destruct (IH Hnxs) as (l & -> & Hall).
  exists (sx :: l). split; [done|]. by constructor.
Qed.

Lemma members_read_back (entries : list (string * pyval)) :
  Forall (fun kv => native kv.2 = true → ∃ s, dumps kv.2 = Ret s ∧ reads_back kv.2 s)
         entries →
  forallb (fun kv => native kv.2) entries = true →
  ∃ l, members entries = Ret l ∧
       Forall2 (fun kv s => ∃ sv, s = encode_string kv.1 +:+ ": " +:+ sv ∧
                                  reads_back kv.2 sv) entries l.
Proof.
  induction 1 as [|[k x] xs Hx _ IH]; simpl; [by exists []|].
  intros [Hnx Hnxs]%andb_true_iff. simpl in *.
  destruct (Hx Hnx) as (sx & -> & Hback).
  destruct (IH Hnxs) as (l & -> & Hall).
  eexists. split; [done|]. constructor; [|done]. by exists sx.
Qed.

(** Every value JSON has is written by the encoder as a text that the
    scanner reads back as that value. *)
Lemma dumps_reads_back (v : pyval) :
  native v = true → ∃ s, dumps v = Ret s ∧ reads_back v s.
Proof.
  induction v as [v Hl Ht Hd|items IH|items IH|entries IH] using pyval_nested_ind.
  - destruct v as [ |b|z|str|items|items|entries|iso|iso|iso| |l|e|f];
      try discriminate; intros _.
    + exists "null". split; [done|]. split; [by exists "n"%char, "ull"|].
      split; [simpl; lia|]. intros [|fuel] rest Hfuel _; [simpl in Hfuel; lia|done].
    + destruct b.
      * exists "true". split; [done|]. split; [by exists "t"%char, "rue"|].
        split; [simpl; lia|]. intros [|fuel] rest Hfuel _; [simpl in Hfuel; lia|done].
      * exists "false". split; [done|]. split; [by exists "f"%char, "alse"|].
        split; [simpl; lia|]. intros [|fuel] rest Hfuel _; [simpl in Hfuel; lia|done].
    + exists (print_int z). split; [done|].
      split; [apply starts_value_print_int|].
      split; [apply starts_value_length, starts_value_print_int|].
      intros [|fuel] rest Hfuel Hrest; [simpl in Hfuel; lia|].
      by apply scan_value_int.
    + exists (encode_string str). split; [done|].
      assert (Hstart : starts_value (encode_string str)).
      { by exists quote, (escape str +:+ String quote ""). }
      split; [done|]. split; [by apply starts_value_length|].
      intros [|fuel] rest Hfuel _; [simpl in Hfuel; lia|].
      destruct (scan_encode_string str rest) as (body & -> & Hbody).
      simpl. by rewrite Hbody.
    + by destruct (Hl items).
    + by destruct (Hd entries).
  - intros Hnative. simpl in Hnative.
    destruct (chunks_read_back items IH Hnative) as (l & Hchunks & Hall).
    exists ("[" +:+ join l +:+ "]"). split; [by rewrite dumps_list, Hchunks|].
    split; [by exists "["%char, (join l +:+ "]")|].
    pose proof (items_size_join items l Hall) as Hsize.
    split.
    { rewrite size_list, append_cons, append_nil. simpl. rewrite length_append. simpl. lia. }
    intros [|fuel] rest Hfuel Hrest; [simpl in Hfuel; lia|].
    rewrite size_list in Hfuel.
    rewrite !append_assoc, append_cons, append_nil.
    destruct Hall as [|x sx xs l' Hx Hxs].
    + norm_text. done.
    + assert (Hstart : starts_value (join (sx :: l') +:+ "]" +:+ rest)).
      { apply starts_value_append, starts_value_join, Hx. }
      pose proof (scan_items_join (x :: xs) (sx :: l') ltac:(by constructor)
                    ltac:(done) fuel [] rest ltac:(lia)) as Hscan.
      destruct Hstart as (c & t & Ht & Hws & Hb & _).
      rewrite Ht in *. simpl. by rewrite Hws, Hb.
  - discriminate.
  - intros Hnative. simpl in Hnative.
    apply andb_true_iff in Hnative as [Hnd Hnative].
    apply bool_decide_eq_true_1 in Hnd.
    destruct (members_read_back entries IH Hnative) as (l & Hmembers & Hall).
    exists ("{" +:+ join l +:+ "}"). split; [by rewrite dumps_dict, Hmembers|].
    split; [by exists "{"%char, (join l +:+ "}")|].
    pose proof (entries_size_join entries l Hall) as Hsize.
    split.
    { rewrite size_dict, append_cons, append_nil. simpl. rewrite length_append. simpl. lia. }
    intros [|fuel] rest Hfuel Hrest; [simpl in Hfuel; lia|].
    rewrite size_dict in Hfuel.
    rewrite !append_assoc, append_cons, append_nil.
    destruct Hall as [|[k x] s xs l' (sx & -> & Hx) Hxs].
    + norm_text. done.
    + assert (Hstart : starts_value
                (join ((encode_string k +:+ ": " +:+ sx) :: l') +:+ "}" +:+ rest)).
      { apply starts_value_append, starts_value_join.
        exists quote, (escape k +:+ String quote "" +:+ ": " +:+ sx).
        split; [|done]. unfold encode_string. by rewrite append_cons, !append_assoc. }
      pose proof (scan_members_join ((k, x) :: xs) _
                    ltac:(constructor; [by exists sx|done])
                    ltac:(done) fuel [] rest ltac:(lia) Hnd) as Hscan.
      destruct Hstart as (c & t & Ht & Hws & _ & Hc).
      simpl fst in *. rewrite Ht in *. simpl. by rewrite Hws, Hc.
Qed.

(** [json.loads(json.dumps(v))] is [v] for every value JSON has. *)
Lemma loads_dumps (v : pyval) :
  native v = true → ∃ s, dumps v = Ret s ∧ loads s = Some (Ret v).
Proof.
  intros Hnative.
  destruct (dumps_reads_back v Hnative) as (s & Hdumps & Hstart & Hsize & Hscan).
  exists s. split; [done|]. unfold loads.
  rewrite <- (append_empty_r s) at 2.
  rewrite skip_ws_starts_value by done.
  rewrite Hscan by (simpl; (lia || done)). done.
Qed.

End JsonSpec.

(** ** [to_json] *)

Module ToJsonSpec.
Import ActiveRecord.

(** What [to_json] puts in [data] for a value: the ISO string of a
    datetime or an Arrow, the value itself otherwise. *)
Definition iso_value (v : pyval) : pyval :=
  match v with
  | VDateTime iso | VArrow iso => VStr iso
  | _ => v
  end.

(** The mapping of [to_dict] with every value so replaced. *)
Definition transformed (d : dict) : dict := prod_map id iso_value <$> d.

Lemma transformed_keys (d : dict) : dict_keys (transformed d) = dict_keys d.
Proof.
  unfold dict_keys, transformed. rewrite <- list_fmap_compose.
  apply list_fmap_ext. by intros i [k v] _.
Qed.

(** The loop of [to_json] makes the transformed mapping, unless a value
    is an instance of the column type [ArrowType]. *)
Lemma to_json_data_transformed (d acc : dict) :
  NoDup (dict_keys (acc ++ d)) →
  VArrowType ∉ d.*2 →
  to_json_data d acc = Ret (acc ++ transformed d).
Proof.
  revert acc. induction d as [|[k v] d IH]; intros acc Hnd Hno; csimpl.
  - by rewrite app_nil_r.
  - assert (Hk : k ∉ dict_keys acc).
    { unfold dict_keys in *. rewrite fmap_app in Hnd.
      apply NoDup_app in Hnd as (_ & Hk & _). intros Hin.
      apply (Hk k Hin). csimpl. set_solver. }
    assert (Hset : ∀ v', dict_set k v' acc = acc ++ [(k, v')]).
    { intros v'. by apply JsonSpec.dict_set_fresh. }
    assert (Hrest : ∀ v', to_json_data d (acc ++ [(k, v')])
                          = Ret (acc ++ (k, v') :: transformed d)).
    { intros v'. rewrite IH.
      - by rewrite <- app_assoc.
      - unfold dict_keys in *. rewrite !fmap_app in *. csimpl in *.
        by rewrite <- app_assoc.
      - csimpl in Hno. set_solver. }
    destruct v; simpl; rewrite ?Hset, ?Hrest; try done.
    csimpl in Hno. set_solver.
Qed.

Section ToJson.
Context {S : Type}.

Lemma to_dict_from_returns (self : loc) (columns : list string) (acc d : dict)
    (w w' : world S) :
  NoDup (dict_keys acc) →
  to_dict_from self columns acc w = (Ret d, w') →
  NoDup (dict_keys d) ∧ w' = w.
Proof.
  revert acc. induction columns as [|c rest IH]; intros acc Hnd Hrun; simpl in Hrun.
  - unfold ret in Hrun. by simplify_eq.
  - unfold bind, getattr at 1 in Hrun.
    destruct (instance_attrs (w_heap w) self !! c) as [v|]; [|done].
    eapply IH; [|done]. by apply ActiveRecordSpec.dict_set_NoDup.
Qed.


End ToJson.


(** A value the encoder does not know (here a date) makes [to_json]
    raise, as [json.dumps] does. *)
Example to_json_date_raises :
  to_json 0%nat ["id"; "day"] Demo.w_event = (Raise Json.not_serializable, Demo.w_event).
Proof. reflexivity. Qed.


End ToJsonSpec.

(** ** Reading [engine] again and again *)

Module EnginePropertySpec.
Import Engine.

Section Reads.
Context {lib : EngineLib}.

(** The object after its first read of [engine] installed connector [c]
    and that connector created an engine. *)
Definition first_read (c : loc) (w : sa_obj) : sa_obj :=
  SaObj (sa_uri w) (sa_info w) (sa_options w) (Some c)
        (<[c := Connector (VRef (length (engines w))) (Some (sa_uri w, echo_of w))]>
           (connectors w))
        (engines w ++ [(sa_info w, sa_options w)]).

(** The object after a first read on which [create_engine] raised: the
    connector is installed, and holds nothing. *)
Definition failed_read (c : loc) (w : sa_obj) : sa_obj :=
  SaObj (sa_uri w) (sa_info w) (sa_options w) (Some c)
        (<[c := Connector VNone None]> (connectors w)) (engines w).

(** The first read on an object without connector, when
    [create_engine] returns. *)
Lemma first_read_creates (w : sa_obj) :
  sa_connector w = None →
  create_engine_error (sa_info w) (sa_options w) = None →
  engine w = (Ret (VRef (length (engines w))), first_read (fresh (dom (connectors w))) w).
Proof.
  intros Hnone Hok.
  unfold engine. rewrite Hnone.
  unfold bind at 1, new_connector. simpl. unfold bind at 1. simpl.
  unfold get_engine, connector_of. simpl. rewrite lookup_insert_eq. simpl.
  unfold bind, create_engine, set_connector_state. simpl. rewrite Hok. simpl.
  unfold first_read, ret. by rewrite insert_insert_eq.
Qed.

(** A read after the first. *)
Lemma later_read_returns (c : loc) (w : sa_obj) :
  engine (first_read c w) = (Ret (VRef (length (engines w))), first_read c w).
Proof.
  assert (Hrec : connector_of (first_read c w) c
                 = Connector (VRef (length (engines w))) (Some (sa_uri w, echo_of w))).
  { unfold connector_of, first_read. simpl. by rewrite lookup_insert_eq. }
  unfold engine. simpl. unfold get_engine. rewrite Hrec.
  change (sa_uri (first_read c w)) with (sa_uri w).
  change (echo_of (first_read c w)) with (echo_of w).
  unfold _connected_for at 1.
  by rewrite (EngineSpec.key_eq_recorded (sa_uri w, echo_of w)).
Qed.

(** X1.  The first read of [engine] on an object without connector installs a
    new connector and, when [create_engine] returns, returns an engine
    that did not exist before; the second read returns that same engine
    and changes nothing: no second connector, no second engine. *)
Theorem engine_first_and_second_read (w : sa_obj) :
  sa_connector w = None →
  create_engine_error (sa_info w) (sa_options w) = None →
  let c := fresh (dom (connectors w)) in
  connectors w !! c = None ∧
  engine w = (Ret (VRef (length (engines w))), first_read c w) ∧
  engine (first_read c w) = (Ret (VRef (length (engines w))), first_read c w).
Proof.
  intros Hnone Hok c.
  split; [apply not_elem_of_dom, is_fresh|].
  split; [by apply first_read_creates|apply later_read_returns].
Qed.

(** X2.  When [create_engine] raises on the first read, the read raises the
    same exception, but the new connector stays installed, with no
    engine; the next read calls [create_engine] again on that
    connector. *)
Theorem engine_failed_first_read (w : sa_obj) (e : exn) :
  sa_connector w = None →
  create_engine_error (sa_info w) (sa_options w) = Some e →
  let c := fresh (dom (connectors w)) in
  engine w = (Raise e, failed_read c w) ∧
  engine (failed_read c w) = (Raise e, failed_read c w).
Proof.
  intros Hnone Hfail c. split.
  - unfold engine. rewrite Hnone.
    unfold bind at 1, new_connector. simpl. unfold bind at 1. simpl.
    unfold get_engine, connector_of. simpl. rewrite lookup_insert_eq. simpl.
    unfold bind, create_engine. simpl. by rewrite Hfail.
  - unfold engine. simpl.
    unfold get_engine, connector_of. simpl. rewrite lookup_insert_eq. simpl.
    unfold bind, create_engine. simpl. by rewrite Hfail.
Qed.

(** X3.  A read of [engine] never replaces a connector that is installed and
    never makes another one, whatever the uri and the options have
    become and whether the read returns or raises. *)
Theorem engine_keeps_installed_connector (w : sa_obj) (c : loc) :
  sa_connector w = Some c →
  sa_connector (engine w).2 = Some c ∧
  ∀ c', c' ≠ c → connectors (engine w).2 !! c' = connectors w !! c'.
Proof.
  intros Hc. unfold engine. rewrite Hc. unfold get_engine.
  destruct (key_eq _ _); [done|].
  unfold bind, create_engine.
  destruct (create_engine_error _ _); simpl; [done|].
  split; [done|]. intros c' Hne. by rewrite lookup_insert_ne.
Qed.

End Reads.

(** A database object made without a uri: [create_engine] rejects it. *)
Definition db_unbound : sa_obj := SaObj VNone VNone [] None ∅ [].

(** The two reads on the SQLite object: connector 0, engine 0. *)
Lemma engine_first_and_second_read_witness :
  engine (lib := Demo.demo_engines) Demo.db_sqlite
    = (Ret (VRef 0%nat), first_read 0%nat Demo.db_sqlite) ∧
  engine (lib := Demo.demo_engines) (first_read 0%nat Demo.db_sqlite)
    = (Ret (VRef 0%nat), first_read 0%nat Demo.db_sqlite).
Proof.
  exact (proj2 (engine_first_and_second_read (lib := Demo.demo_engines)
                  Demo.db_sqlite eq_refl eq_refl)).
Defined.

(** The two reads on the object without uri. *)
Lemma engine_failed_first_read_witness :
  engine (lib := Demo.demo_engines) db_unbound
    = (Raise Demo.argument_error, failed_read 0%nat db_unbound) ∧
  engine (lib := Demo.demo_engines) (failed_read 0%nat db_unbound)
    = (Raise Demo.argument_error, failed_read 0%nat db_unbound).
Proof.
  exact (engine_failed_first_read (lib := Demo.demo_engines)
           db_unbound Demo.argument_error eq_refl eq_refl).
Defined.

(** A read after the uri moved keeps connector 0. *)
Lemma engine_keeps_installed_connector_witness :
  sa_connector (engine (lib := Demo.demo_engines) EngineSpec.db_moved).2 = Some 0%nat.
Proof.
  exact (proj1 (engine_keeps_installed_connector (lib := Demo.demo_engines)
                  EngineSpec.db_moved 0%nat eq_refl)).
Defined.

End EnginePropertySpec.

(** ** The options that reach [create_engine] *)

Module OptionsSpec.
Import Options.

Lemma dict_get_None (k : string) (d : dict) :
  dict_get k d = None ↔ k ∉ dict_keys d.
Proof.
  unfold dict_keys. induction d as [|[k' v'] d IH]; csimpl.
  - split; [set_solver|done].
  - destruct (String.eqb_spec k' k) as [->|Hne].
    + split; [done|set_solver].
    + rewrite IH. set_solver.
Qed.

Lemma dict_get_app (k : string) (d d' : dict) :
  dict_get k (d ++ d') = match dict_get k d with
                         | Some v => Some v
                         | None => dict_get k d'
                         end.
Proof.
  induction d as [|[k' v'] d IH]; simpl; [done|].
  by destruct (String.eqb k' k).
Qed.

Lemma dict_get_setdefault (k k' : string) (v : pyval) (d : dict) :
  dict_get k' (dict_setdefault k v d)
  = match dict_get k' d with
    | Some x => Some x
    | None => if String.eqb k k' then Some v else None
    end.
Proof.
  unfold dict_setdefault. destruct (dict_get k d) as [x|] eqn:Hk.
  - destruct (dict_get k' d) eqn:Hk'; [done|].
    destruct (String.eqb_spec k k') as [->|_]; [congruence|done].
  - rewrite dict_get_app. by destruct (dict_get k' d).
Qed.

Lemma dict_setdefault_NoDup (k : string) (v : pyval) (d : dict) :
  NoDup (dict_keys d) → NoDup (dict_keys (dict_setdefault k v d)).
Proof.
  intros Hnd. unfold dict_setdefault.
  destruct (dict_get k d) eqn:Hk; [done|].
  apply dict_get_None in Hk. unfold dict_keys in *. rewrite fmap_app.
  apply NoDup_app. split; [done|]. split; [|apply NoDup_singleton].
  intros x Hx Hin. apply list_elem_of_singleton in Hin. by subst.
Qed.

Lemma filter_keys (f : string * pyval → bool) (d : dict) (k : string) :
  k ∈ dict_keys (List.filter f d) → k ∈ dict_keys d.
Proof.
  unfold dict_keys. induction d as [|kv d IH]; csimpl; [done|].
  destruct (f kv); csimpl; set_solver.
Qed.

Lemma filter_NoDup (f : string * pyval → bool) (d : dict) :
  NoDup (dict_keys d) → NoDup (dict_keys (List.filter f d)).
Proof.
  unfold dict_keys. induction d as [|kv d IH]; csimpl; [done|].
  intros [Hk Hnd]%NoDup_cons. destruct (f kv); csimpl; [|by apply IH].
  apply NoDup_cons. split; [|by apply IH].
  intros Hin. by apply filter_keys in Hin.
Qed.

Lemma dict_get_filter (f : string * pyval → bool) (d : dict) (k : string) :
  NoDup (dict_keys d) →
  dict_get k (List.filter f d)
  = match dict_get k d with
    | Some v => if f (k, v) then Some v else None
    | None => None
    end.
Proof.
  unfold dict_keys. induction d as [|[k' v'] d IH]; csimpl; [done|].
  intros [Hk Hnd]%NoDup_cons.
  destruct (String.eqb_spec k' k) as [->|Hne].
  - destruct (f (k, v')) eqn:Hf; simpl.
    + by rewrite String.eqb_refl.
    + apply dict_get_None. intros Hin. by apply filter_keys in Hin.
  - destruct (f (k', v')); simpl; [|by apply IH].
    destruct (String.eqb_spec k' k) as [->|_]; [done|]. by apply IH.
Qed.

Lemma dict_of_pairs_from (acc pairs : dict) :
  NoDup (dict_keys (acc ++ pairs)) →
  foldl (fun d kv => dict_set kv.1 kv.2 d) acc pairs = acc ++ pairs.
Proof.
  revert acc. induction pairs as [|[k v] pairs IH]; intros acc Hnd; simpl.
  - by rewrite app_nil_r.
  - rewrite JsonSpec.dict_set_fresh.
    + rewrite IH; rewrite <- app_assoc; done.
    + unfold dict_keys in *. rewrite fmap_app in Hnd.
      apply NoDup_app in Hnd as (_ & Hdisj & _).
      intros Hin. apply (Hdisj k Hin). set_solver.
Qed.

(** [dict(pairs)] of pairs with distinct keys has the pairs as its
    entries. *)
Lemma dict_of_pairs_NoDup (pairs : dict) :
  NoDup (dict_keys pairs) → dict_of_pairs pairs = pairs.
Proof. intros Hnd. by apply (dict_of_pairs_from []). Qed.

(** What [_cleanup_options] hands to [_apply_driver_hacks]. *)
Lemma cleanup_unfold {lib : UrlLib} (kwargs : dict) :
  NoDup (dict_keys kwargs) →
  _cleanup_options kwargs = _apply_driver_hacks (List.filter kept kwargs).
Proof.
  intros Hnd. unfold _cleanup_options.
  rewrite dict_of_pairs_NoDup; [done|by apply filter_NoDup].
Qed.

Lemma kept_spec (k : string) (v : pyval) :
  kept (k, v) = true ↔ v ≠ VNone ∧ k ≠ "convert_unicode".
Proof.
  unfold kept. simpl. rewrite andb_true_iff, !negb_true_iff.
  rewrite bool_decide_eq_false. by rewrite String.eqb_neq.
Qed.

(** The value of [key] the caller gave, or [fallback] when the caller
    gave none or gave [None]. *)
Definition given_or (key : string) (fallback : pyval) (kwargs : dict) : pyval :=
  match dict_get key kwargs with
  | Some v => if bool_decide (v = VNone) then fallback else v
  | None => fallback
  end.

Lemma memory_based_spec (db : pyval) :
  in_tuple db [VNone; VStr ""; VStr ":memory:"] = true
  ↔ db = VNone ∨ db = VStr "" ∨ db = VStr ":memory:".
Proof.
  unfold in_tuple, Engine.item_eq. simpl. rewrite !orb_true_iff.
  rewrite !bool_decide_eq_true.
  assert (Hnone : py_eq db VNone = true → db = VNone).
  { by destruct db. }
  assert (Hstr : ∀ s, py_eq db (VStr s) = true → db = VStr s).
  { intros s. destruct db; simpl; try done. by intros ?%bool_decide_eq_true. }
  naive_solver.
Qed.

Lemma no_pool_spec (options : dict) :
  py_eq (default VNone (dict_get "pool_size" options)) (VInt 0) = true
  ↔ ∃ v, dict_get "pool_size" options = Some v ∧ as_int v = Some 0.
Proof.
  destruct (dict_get "pool_size" options) as [v|]; simpl.
  - split.
    + intros Heq. exists v. split; [done|].
      destruct v; simpl in *; try done.
      * destruct b; [done|done].
      * apply Z.eqb_eq in Heq. by subst.
    + intros (v' & [= <-] & Hv). destruct v; simpl in *; try done.
      * by destruct b.
      * injection Hv as ->. done.
  - split; [done|]. by intros (? & ? & ?).
Qed.

Section Cleanup.
Context {lib : UrlLib}.

(** X4.  Whatever the driver, the options that [_cleanup_options] returns
    hold no [convert_unicode] and no [None]; every other value the
    caller gave is in them unchanged, and the only entries the caller
    did not give are the two defaults of a mysql url. *)
Theorem cleanup_options_keeps_what_was_given
    (kwargs : dict) (info info' : url) (options : dict) :
  NoDup (dict_keys kwargs) →
  _cleanup_options kwargs info = (Ret options, info') →
  NoDup (dict_keys options) ∧
  dict_get "convert_unicode" options = None ∧
  (∀ k, dict_get k options ≠ Some VNone) ∧
  (∀ k v, k ≠ "convert_unicode" → v ≠ VNone →
          dict_get k kwargs = Some v → dict_get k options = Some v) ∧
  (∀ k v, dict_get k options = Some v →
          dict_get k kwargs = Some v ∨
          (contains "mysql" (drivername info) = true ∧
           dict_get k kwargs ≫= (fun x => if bool_decide (x = VNone) then None else Some x) = None ∧
           (k, v) ∈ [("pool_size", VInt 10); ("pool_recycle", VInt 7200)])).
Proof.
  intros Hnd. rewrite cleanup_unfold by done.
  set (given := List.filter kept kwargs).
  assert (Hgnd : NoDup (dict_keys given)) by by apply filter_NoDup.
  assert (Hget : ∀ k, dict_get k given
                      = match dict_get k kwargs with
                        | Some v => if kept (k, v) then Some v else None
                        | None => None
                        end) by (intros k; by apply dict_get_filter).
  assert (Hcu : dict_get "convert_unicode" given = None).
  { rewrite Hget. destruct (dict_get _ kwargs) as [v|]; [|done].
    destruct (kept _) eqn:Hk; [|done]. apply kept_spec in Hk. naive_solver. }
  assert (Hnn : ∀ k, dict_get k given ≠ Some VNone).
  { intros k. rewrite Hget. destruct (dict_get _ kwargs) as [v|]; [|done].
    destruct (kept _) eqn:Hk; [|done]. apply kept_spec in Hk. naive_solver. }
  assert (Hin : ∀ k v, k ≠ "convert_unicode" → v ≠ VNone →
                       dict_get k kwargs = Some v → dict_get k given = Some v).
  { intros k v Hk Hv Hkv. rewrite Hget, Hkv.
    by rewrite (proj2 (kept_spec k v)). }
  assert (Hout : ∀ k v, dict_get k given = Some v → dict_get k kwargs = Some v).
  { intros k v. rewrite Hget. destruct (dict_get _ kwargs) as [x|]; [|done].
    destruct (kept _); [|done]. done. }
  assert (Hnone : ∀ k, k ≠ "convert_unicode" → dict_get k given = None →
            dict_get k kwargs ≫= (fun x => if bool_decide (x = VNone) then None else Some x)
            = None).
  { intros k Hk. rewrite Hget. destruct (dict_get _ kwargs) as [x|]; [|done].
    destruct (kept _) eqn:Hkept; [done|]. intros _. simpl.
    case_bool_decide; [done|].
    assert (kept (k, x) = true) by by apply kept_spec. congruence. }
  clearbody given. unfold _apply_driver_hacks.
  destruct (contains "mysql" (drivername info)) eqn:Hmysql.
  - unfold bind, ret.
    destruct (query_setdefault "charset" (VStr "utf8") info) as [[r|e] info0]; [|done].
    intros [= <- <-]. split; [by do 2 apply dict_setdefault_NoDup|].
    split; [by rewrite !dict_get_setdefault, Hcu|].
    split.
    { intros k. rewrite !dict_get_setdefault.
      destruct (dict_get k given) eqn:Hk; [by rewrite <- Hk|].
      destruct (String.eqb "pool_size" k); [done|].
      by destruct (String.eqb "pool_recycle" k). }
    split.
    { intros k v Hk Hv Hkv. rewrite !dict_get_setdefault.
      by rewrite (Hin k v). }
    intros k v. rewrite !dict_get_setdefault.
    destruct (dict_get k given) eqn:Hk.
    { intros [= ->]. left. by apply Hout. }
    destruct (String.eqb_spec "pool_size" k) as [<-|_].
    { intros [= <-]. right. split; [done|]. split; [by apply Hnone|set_solver]. }
    destruct (String.eqb_spec "pool_recycle" k) as [<-|_]; [|done].
    intros [= <-]. right. split; [done|]. split; [by apply Hnone|set_solver].
  - destruct (String.eqb (drivername info) "sqlite").
    + destruct (_ && _); [done|]. intros [= <- <-]. naive_solver.
    + intros [= <- <-]. naive_solver.
Qed.

(** X5.  On a url whose driver name contains [mysql], the pool size is the
    caller's or 10 and the pool recycle time the caller's or 7200,
    provided the url lets its query be given a default; when it does
    not, its exception is what the caller sees. *)
Theorem mysql_defaults_fill_gaps (kwargs : dict) (info : url) :
  NoDup (dict_keys kwargs) →
  contains "mysql" (drivername info) = true →
  match query_setdefault "charset" (VStr "utf8") info with
  | (Ret _, info') =>
      ∃ options,
        _cleanup_options kwargs info = (Ret options, info') ∧
        dict_get "pool_size" options = Some (given_or "pool_size" (VInt 10) kwargs) ∧
        dict_get "pool_recycle" options = Some (given_or "pool_recycle" (VInt 7200) kwargs)
  | (Raise e, info') => _cleanup_options kwargs info = (Raise e, info')
  end.
Proof.
  intros Hnd Hmysql. rewrite cleanup_unfold by done.
  unfold _apply_driver_hacks. rewrite Hmysql. unfold bind, ret.
  destruct (query_setdefault "charset" (VStr "utf8") info) as [[r|e] info0]; [|done].
  eexists. split; [done|].
  rewrite !dict_get_setdefault, !dict_get_filter by done.
  unfold given_or, kept. simpl.
  split.
  - destruct (dict_get "pool_size" kwargs) as [v|]; [|done].
    by case_bool_decide.
  - destruct (dict_get "pool_recycle" kwargs) as [v|]; [|done].
    by case_bool_decide.
Qed.

(** X6.  On a url whose driver name does not contain [mysql], the url is
    left alone and nothing is added to the options; the call raises
    exactly when the driver name is [sqlite], the database is [None],
    empty or [:memory:], and the caller gave a pool size equal to 0
    (which [False] is too), and then it raises the [ValueError]. *)
Theorem cleanup_options_refuses_memory_sqlite_without_pool
    (kwargs : dict) (info : url) :
  NoDup (dict_keys kwargs) →
  contains "mysql" (drivername info) = false →
  let refused :=
    drivername info = "sqlite" ∧
    (database info = VNone ∨ database info = VStr "" ∨ database info = VStr ":memory:") ∧
    ∃ v, dict_get "pool_size" kwargs = Some v ∧ as_int v = Some 0 in
  (refused → _cleanup_options kwargs info = (Raise memory_database_error, info)) ∧
  (¬ refused → _cleanup_options kwargs info = (Ret (List.filter kept kwargs), info)).
Proof.
  intros Hnd Hmysql refused. subst refused. rewrite cleanup_unfold by done.
  unfold _apply_driver_hacks. rewrite Hmysql.
  assert (Hpool : (∃ v, dict_get "pool_size" (List.filter kept kwargs) = Some v ∧ as_int v = Some 0)
                  ↔ ∃ v, dict_get "pool_size" kwargs = Some v ∧ as_int v = Some 0).
  { rewrite dict_get_filter by done. unfold kept. simpl.
    destruct (dict_get "pool_size" kwargs) as [v|]; [|done].
    case_bool_decide; simpl; [|done]. subst.
    split; [by intros (? & ? & ?)|]. by intros (? & [= <-] & ?). }
  destruct (String.eqb_spec (drivername info) "sqlite") as [Hsq|Hsq];
    [|split; [naive_solver|done]].
  destruct (in_tuple _ _) eqn:Hmem; simpl.
  - apply memory_based_spec in Hmem.
    destruct (py_eq _ _) eqn:Hno.
    + split; [done|]. apply no_pool_spec, Hpool in Hno. naive_solver.
    + split; [|done]. intros (_ & _ & Hv). apply Hpool, no_pool_spec in Hv. congruence.
  - split; [|done]. intros (_ & Hdb & _). apply memory_based_spec in Hdb. congruence.
Qed.

End Cleanup.

(** A url whose query is a plain [dict]: [setdefault] adds the entry
    when the key is absent, and returns the entry's value. *)
#[local] Instance plain_query : UrlLib := {|
  query_setdefault k v := fun info =>
    match dict_get k (query info) with
    | Some x => (Ret x, info)
    | None => (Ret v, Url (drivername info) (database info) (query info ++ [(k, v)]))
    end
|}.

Definition mysql_url : url := Url "mysql+pymysql" (VStr "shop") [].

Definition memory_url : url := Url "sqlite" (VStr ":memory:") [].

(** The options [__init__] makes of its own defaults on a mysql url:
    no [convert_unicode]. *)
Lemma cleanup_options_keeps_what_was_given_witness :
  init_options (VBool false) VNone VNone VNone (VBool true) mysql_url
    = (Ret [("echo", VBool false); ("pool_size", VInt 10); ("pool_recycle", VInt 7200)],
       Url "mysql+pymysql" (VStr "shop") [("charset", VStr "utf8")]) ∧
  dict_get "convert_unicode"
    [("echo", VBool false); ("pool_size", VInt 10); ("pool_recycle", VInt 7200)] = None.
Proof.
  split; [reflexivity|].
  refine (proj1 (proj2 (cleanup_options_keeps_what_was_given
            [("echo", VBool false); ("pool_size", VNone); ("pool_timeout", VNone);
             ("pool_recycle", VNone); ("convert_unicode", VBool true)]
            mysql_url _ _ _ eq_refl))).
  unfold dict_keys. compute_done.
Defined.

(** A caller who gives a pool size of 5 to a mysql url keeps it, and
    gets the default recycle time. *)
Lemma mysql_defaults_fill_gaps_witness :
  ∃ options,
    init_options (VBool false) (VInt 5) VNone VNone (VBool true) mysql_url
      = (Ret options, Url "mysql+pymysql" (VStr "shop") [("charset", VStr "utf8")]) ∧
    dict_get "pool_size" options = Some (VInt 5) ∧
    dict_get "pool_recycle" options = Some (VInt 7200).
Proof.
  refine (mysql_defaults_fill_gaps
            [("echo", VBool false); ("pool_size", VInt 5); ("pool_timeout", VNone);
             ("pool_recycle", VNone); ("convert_unicode", VBool true)]
            mysql_url _ eq_refl).
  unfold dict_keys. compute_done.
Defined.

(** [pool_size=False] on an in-memory SQLite url is refused. *)
Lemma cleanup_options_refuses_memory_sqlite_without_pool_witness :
  init_options (VBool false) (VBool false) VNone VNone (VBool true) memory_url
    = (Raise memory_database_error, memory_url).
Proof.
  refine (proj1 (cleanup_options_refuses_memory_sqlite_without_pool
            [("echo", VBool false); ("pool_size", VBool false); ("pool_timeout", VNone);
             ("pool_recycle", VNone); ("convert_unicode", VBool true)]
            memory_url _ eq_refl) _).
  - unfold dict_keys. compute_done.
  - split; [done|]. split; [by right; right|]. by exists (VBool false).
Defined.

End OptionsSpec.

(** ** What the application hooks do, and how often they are registered *)

Module AppSpec.
Import ActiveRecord App.

Section Hooks.
Context {orm : ORM} {scoped : ScopedSession}.

(** X7.  The hook registered on [on_exception] never raises an exception
    that derives from [Exception], whatever [session.rollback] does, and
    what it returns is [None]; on a database object made without a uri
    ([session] is [None]) the [AttributeError] is swallowed like any
    other, and nothing happens. *)
Theorem rollback_hook_swallows_exceptions (error : pyval) (w : world Sess) :
  (∀ e, (rollback error w).1 = Raise e →
        isinstance_Exception e = false ∧
        ∃ s, w_session w = Some s ∧ (session_rollback (w_heap w, s)).1 = Raise e) ∧
  (∀ v, (rollback error w).1 = Ret v → v = VNone) ∧
  (w_session w = None → rollback error w = (Ret VNone, w)).
Proof.
  unfold rollback, try_except, bind, db_rollback, on_session, ret.
  destruct (w_session w) as [s|]; simpl.
  - destruct (session_rollback (w_heap w, s)) as [[[]|e] [h' s']] eqn:Hrb; simpl.
    + split; [done|]. split; [by intros v [= <-]|done].
    + destruct (isinstance_Exception e) eqn:He; simpl.
      * split; [done|]. split; [by intros v [= <-]|done].
      * split; [|done]. intros e' [= <-]. split; [done|]. exists s.
        by rewrite Hrb.
  - split; [done|]. split; [by intros v [= <-]|done].
Qed.

(** X8.  The hook registered on [after_request] returns the response it was
    given, whenever it returns; on a database object made without a uri
    it raises [AttributeError] on every response. *)
Theorem shutdown_hook_returns_the_response (response : pyval) (w : world Sess) :
  (∀ v, (shutdown response w).1 = Ret v → v = response ∧ is_Some (w_session w)) ∧
  (∀ e, (shutdown response w).1 = Raise e →
        match w_session w with
        | None => e = none_has_no_attribute "remove"
        | Some s => (session_remove (w_heap w, s)).1 = Raise e
        end) ∧
  (w_session w = None →
   shutdown response w = (Raise (none_has_no_attribute "remove"), w)).
Proof.
  unfold shutdown, bind, on_session, ret.
  destruct (w_session w) as [s|]; simpl.
  - destruct (session_remove (w_heap w, s)) as [[[]|e] [h' s']] eqn:Hrm; simpl.
    + split; [by intros v [= <-]|done].
    + split; [done|]. split; [by intros e' [= <-]|done].
  - split; [done|]. split; [by intros e' [= <-]|done].
Qed.

End Hooks.

(** The hooks that one call of [set_flask_hooks] registers on an
    application with these attributes. *)
Definition hooks_of (self : loc) (a : app) : list (string * hook) :=
  (if hasattr a "after_request" then [("after_request", Shutdown self)] else []) ++
  (if hasattr a "on_exception" then [("on_exception", Rollback self)] else []).

(** The application after [n] calls of [init_app] that all returned. *)
Fixpoint init_app_times {lib : AppLib} (n : nat) (self : loc) (a : app) : app :=
  match n with
  | O => a
  | S n' => init_app_times n' self (init_app self a).2
  end.

Lemma set_flask_hooks_registers {lib : AppLib} (self : loc) (a : app) :
  (∀ method f, register_error method f = None) →
  set_flask_hooks (Shutdown self) (Rollback self) a
  = (Ret tt, Application (databases a) (attributes a) (registered a ++ hooks_of self a)).
Proof.
  intros Hok. unfold set_flask_hooks, bind, register, hooks_of, hasattr. simpl.
  destruct (bool_decide ("after_request" ∈ attributes a)); simpl;
    rewrite ?Hok; simpl;
    destruct (bool_decide ("on_exception" ∈ attributes a)); simpl;
    rewrite ?Hok; simpl; rewrite ?app_nil_r, <- ?app_assoc; by destruct a.
Qed.

Lemma set_flask_hooks_frame {lib : AppLib} (f g : hook) (a : app) :
  databases (set_flask_hooks f g a).2 = databases a ∧
  attributes (set_flask_hooks f g a).2 = attributes a.
Proof.
  unfold set_flask_hooks, bind, register, hasattr. simpl.
  destruct (bool_decide ("after_request" ∈ attributes a)); simpl.
  - destruct (register_error "after_request" f); simpl; [done|].
    destruct (bool_decide ("on_exception" ∈ attributes a)); simpl; [|done].
    by destruct (register_error "on_exception" g).
  - destruct (bool_decide ("on_exception" ∈ attributes a)); simpl; [|done].
    by destruct (register_error "on_exception" g).
Qed.

Lemma in_list_snoc (x : pyval) (items : list pyval) :
  in_list x (items ++ [x]) = true.
Proof.
  unfold in_list. rewrite existsb_app. simpl. unfold Engine.item_eq.
  rewrite bool_decide_eq_true_2 by done. simpl. apply orb_true_r.
Qed.

Section Registration.
Context {lib : AppLib}.

(** X9.  When the application has no attribute [databases], or has a list
    there, a second [init_app] of the same database object does nothing,
    whether the first returned or raised: the object is in the list, and
    was put there before any hook was registered.  When the registration
    methods return, the first call returns, and registers the hooks once
    if the object was not in the list and not at all if it was. *)
Theorem init_app_registers_once (self : loc) (a : app) (items : list pyval) :
  databases a = None ∧ items = [] ∨ databases a = Some (VList items) →
  let a1 := (init_app self a).2 in
  init_app self a1 = (Ret tt, a1) ∧
  databases a1
    = Some (VList (if in_list (VRef self) items then items else items ++ [VRef self])) ∧
  ((∀ method f, register_error method f = None) →
   init_app self a = (Ret tt, a1) ∧
   registered a1
     = registered a ++ (if in_list (VRef self) items then [] else hooks_of self a)).
Proof.
  intros Hdb a1. subst a1.
  assert (Hcall : init_app self a
          = if in_list (VRef self) items
            then (Ret tt, Application (Some (VList items)) (attributes a) (registered a))
            else set_flask_hooks (Shutdown self) (Rollback self)
                   (Application (Some (VList (items ++ [VRef self]))) (attributes a)
                      (registered a))).
  { unfold init_app. destruct Hdb as [[Hd ->] | Hd]; rewrite Hd; simpl; [done|].
    rewrite Hd. destruct (in_list (VRef self) items); [|done].
    destruct a. simpl in *. by subst. }
  rewrite Hcall. clear Hcall.
  destruct (in_list (VRef self) items) eqn:Hin; simpl.
  - split; [|split].
    + unfold init_app. simpl. by rewrite Hin.
    + done.
    + intros _. by rewrite app_nil_r.
  - set (a0 := Application _ _ _).
    destruct (set_flask_hooks_frame (Shutdown self) (Rollback self) a0) as [Hd Ha].
    simpl in Hd, Ha.
    split; [|split].
    + unfold init_app. rewrite Hd. simpl. rewrite Hd. by rewrite in_list_snoc.
    + done.
    + intros Hok. by rewrite set_flask_hooks_registers.
Qed.

(** X10.  When the attribute [databases] of the application is not a list (a
    tuple, [None]), every [init_app] registers the hooks again, and the
    attribute stays as it is: after [n] calls the hooks are registered
    [n] times. *)
Theorem init_app_registers_every_time (n : nat) (self : loc) (a : app) (v : pyval) :
  databases a = Some v →
  (∀ items, v ≠ VList items) →
  (∀ method f, register_error method f = None) →
  init_app self a
    = (Ret tt, Application (Some v) (attributes a) (registered a ++ hooks_of self a)) ∧
  init_app_times n self a
    = Application (Some v) (attributes a)
        (registered a ++ concat (replicate n (hooks_of self a))).
Proof.
  intros Hdb Hv Hok.
  assert (Hone : ∀ a', databases a' = Some v →
            init_app self a' = (Ret tt, Application (Some v) (attributes a')
                                          (registered a' ++ hooks_of self a'))).
  { intros a' Hdb'. unfold init_app. rewrite Hdb'. simpl. rewrite Hdb'.
    destruct v; try (rewrite set_flask_hooks_registers by done; by rewrite Hdb').
    by destruct (Hv items). }
  split; [by apply Hone|].
  revert a Hdb. induction n as [|n IH]; intros a Hdb; simpl.
  - rewrite app_nil_r. destruct a. simpl in *. by subst.
  - rewrite (Hone a Hdb). simpl. rewrite IH by done. simpl.
    by rewrite <- app_assoc.
Qed.

End Registration.

(** An application whose registration methods keep every hook. *)
#[local] Instance keeps_hooks : AppLib := {|
  register_error _ _ := None
|}.

(** An application with [after_request] and without [on_exception],
    never initialised. *)
Definition new_app : app := Application None ["after_request"; "teardown_request"] [].

(** An application whose [databases] is a tuple. *)
Definition tuple_app : app :=
  Application (Some (VTuple [])) ["after_request"; "on_exception"] [].

(** Two calls on the new application: one hook, registered once. *)
Lemma init_app_registers_once_witness :
  init_app 0%nat (init_app 0%nat new_app).2 = (Ret tt, (init_app 0%nat new_app).2) ∧
  registered (init_app 0%nat new_app).2 = [("after_request", Shutdown 0%nat)].
Proof.
  destruct (init_app_registers_once 0%nat new_app []
              (or_introl (conj eq_refl eq_refl))) as (Hagain & _ & Hfirst).
  split; [exact Hagain|].
  exact (proj2 (Hfirst (fun _ _ => eq_refl))).
Defined.

(** Three calls on the application with the tuple: six hooks. *)
Lemma init_app_registers_every_time_witness :
  registered (init_app_times 3 0%nat tuple_app)
  = [("after_request", Shutdown 0%nat); ("on_exception", Rollback 0%nat);
     ("after_request", Shutdown 0%nat); ("on_exception", Rollback 0%nat);
     ("after_request", Shutdown 0%nat); ("on_exception", Rollback 0%nat)].
Proof.
  exact (f_equal registered
           (proj2 (init_app_registers_every_time 3 0%nat tuple_app (VTuple []) eq_refl
                     (fun items H => eq_ind (VTuple []) (fun v => match v with VTuple _ => True | _ => False end) I _ H)
                     (fun _ _ => eq_refl)))).
Defined.

End AppSpec.

(** ** Threads that only read [engine] share one engine *)

Module SingletonSpec.
Import Engine Concurrent.

(** The trace runs threads and starts reads of the property, and
    nothing else: no direct call of [get_engine], no assignment to the
    fields of the object. *)
Definition only_reads (trace : list action) : bool :=
  forallb (fun a => match a with
                    | Run _ | Spawn _ ReadEngine => true
                    | Spawn _ (GetEngine _) | Assign _ _ _ => false
                    end) trace.

Section OneEngine.
Context {lib : EngineLib}.
Variables (uri info : pyval) (options : dict).

(** The pair that [get_engine] compares and records. *)
Definition key : pyval * pyval := (uri, default VNone (dict_get "echo" options)).

(** What a call may have as its result: engine 0, which is then the only
    engine, or the exception of [create_engine]. *)
Definition result_ok (o : sa_obj) (r : outcome pyval) : Prop :=
  match r with
  | Ret v => v = VRef 0%nat ∧ engines o = [(info, options)]
  | Raise e => create_engine_error info options = Some e
  end.

(** What holds of the object while a thread stands at [p]. *)
Definition pc_ok (o : sa_obj) (p : pc) : Prop :=
  match p with
  | Start ReadEngine | PropLocked | PropMake => True
  | Start (GetEngine _) => False
  | PropInstall c => connectors o !! c = Some (Connector VNone None)
  | PropCall c | GetEnter c _ | GetRead c _ => sa_connector o = Some c
  | GetCompare c _ u i opts =>
      sa_connector o = Some c ∧ u = uri ∧ i = info ∧ opts = options
  | GetRecord c _ k e =>
      sa_connector o = Some c ∧ k = key ∧ e = VRef 0%nat ∧
      connector_of o c = Connector (VRef 0%nat) None ∧ engines o = [(info, options)]
  | GetExit _ _ r | PropExit r | Finished r => result_ok o r
  end.

(** The three stages of the installed connector: no engine yet; engine 0
    created and its pair about to be recorded by the thread that created
    it; engine 0 recorded. *)
Definition connector_ok (s : state) (c : loc) : Prop :=
  (connector_of (obj s) c = Connector VNone None ∧ engines (obj s) = []) ∨
  (connector_of (obj s) c = Connector (VRef 0%nat) None ∧
   ∃ t prop, threads s !! t = Some (GetRecord c prop key (VRef 0%nat))) ∨
  (connector_of (obj s) c = Connector (VRef 0%nat) (Some key) ∧
   engines (obj s) = [(info, options)]).

Record singleton (s : state) : Prop := Singleton {
  one_uri : sa_uri (obj s) = uri;
  one_info : sa_info (obj s) = info;
  one_options : sa_options (obj s) = options;
  one_pcs : ∀ t p, threads s !! t = Some p → pc_ok (obj s) p;
  one_installed : ∀ c, sa_connector (obj s) = Some c → connector_ok s c;
  one_none : sa_connector (obj s) = None → engines (obj s) = []
}.

Lemma singleton_initial : singleton (initial uri info options).
Proof. by split. Qed.

(** A statement that leaves the object as it is and moves a thread that
    is not about to record. *)
Lemma singleton_moves (t : nat) (p p' : pc) (s s' : state) :
  singleton s → threads s !! t = Some p →
  ConcurrentSpec.is_recording p = false →
  obj s' = obj s → threads s' = <[t := p']> (threads s) →
  pc_ok (obj s) p' →
  singleton s'.
Proof.
  intros [U I O P C N] Ht Hp Hobj Hth Hp'.
  split; rewrite ?Hobj; try done.
  - intros t' q. rewrite Hth. intros [[<- <-]|[Hne Hq]]%lookup_insert_Some; eauto.
  - intros c Hc. destruct (C c Hc) as [Ha|[[Hb (t0 & prop & Ht0)]|Hc']];
      unfold connector_ok; rewrite Hobj; [by left| |by right; right].
    right. left. split; [done|]. exists t0, prop. rewrite Hth.
    rewrite lookup_insert_ne; [done|]. intros <-. rewrite Ht in Ht0. by simplify_eq.
Qed.

Lemma singleton_thread_step (t : nat) (s s' : state) :
  ConcurrentSpec.invariant s → singleton s → thread_step t s = Some s' → singleton s'.
Proof.
  intros [L1 L2 I H K R1 R2] Hone Hstep. unfold thread_step in Hstep.
  destruct (threads s !! t) as [p|] eqn:Ht; [|done].
  pose proof Hone as [U If O P C N].
  pose proof (P t p Ht) as Hp.
  destruct p as [[|c]| | |c|c|c prop|c prop|c prop u i opts
                |c prop k e|c prop result|result|result]; simpl in Hp.
  - destruct (engine_lock s); [done|]. simplify_eq.
    by eapply (singleton_moves t _ PropLocked s).
  - done.
  - destruct (sa_connector (obj s)) as [c|] eqn:Hc; simplify_eq.
    + by eapply (singleton_moves t _ (PropCall c) s).
    + by eapply (singleton_moves t _ PropMake s).
  - (* a connector is made *)
    simplify_eq.
    assert (Hnone : sa_connector (obj s) = None) by (eapply I; eauto).
    split; simpl; try done.
    + intros t' q [[<- <-]|[Hne Hq]]%lookup_insert_Some; simpl.
      * by rewrite lookup_insert_eq.
      * specialize (P t' q Hq).
        destruct q; simpl in *; try done; try congruence;
          try (destruct P; congruence).
        rewrite lookup_insert_ne; [done|]. intros <-.
        pose proof (is_fresh (dom (connectors (obj s)))) as Hfresh.
        apply not_elem_of_dom in Hfresh. congruence.
    + intros c Hc. congruence.
  - (* the connector is installed *)
    simplify_eq.
    assert (Hnone : sa_connector (obj s) = None) by (eapply I; eauto).
    split; simpl; try done.
    + intros t' q [[<- <-]|[Hne Hq]]%lookup_insert_Some; simpl; [done|].
      specialize (P t' q Hq).
      destruct q; simpl in *; try done; try congruence; try (destruct P; congruence).
    + intros c' [= <-]. left. unfold connector_of. simpl. rewrite Hp. eauto.
  - simplify_eq. by eapply (singleton_moves t _ (GetEnter c true) s).
  - destruct (connector_locks s !! c); [done|]. simplify_eq.
    by eapply (singleton_moves t _ (GetRead c prop) s).
  - simplify_eq. by eapply (singleton_moves t _ (GetCompare c prop _ _ _) s).
  - (* the comparison, and the creation *)
    destruct Hp as (Hc & -> & -> & ->).
    fold key in Hstep.
    destruct (C c Hc) as [[Ha Hno]|[[Hb (t0 & prop0 & Ht0)]|[Hc' Hen]]].
    + rewrite Ha in Hstep. simpl in Hstep.
      destruct (create_engine_error info options) as [e|] eqn:Herr; simplify_eq.
      * by eapply (singleton_moves t _ (GetExit c prop (Raise e)) s).
      * rewrite Hno. simpl.
        split; simpl; try done.
        -- intros t' q [[<- <-]|[Hne Hq]]%lookup_insert_Some; simpl.
           ++ unfold connector_of. simpl. by rewrite lookup_insert_eq.
           ++ specialize (P t' q Hq).
              destruct q as [[|?]| | |c'|?|? ?|? ?|? ? ? ? ?|? ? ? ?|? ? r|r|r];
                simpl in *; try done.
              ** assert (sa_connector (obj s) = None); [|congruence].
                 eapply I; eauto.
              ** destruct P as (_ & _ & _ & _ & ?). congruence.
              ** destruct r; simpl in *; [|done]. destruct P. congruence.
              ** destruct r; simpl in *; [|done]. destruct P. congruence.
              ** destruct r; simpl in *; [|done]. destruct P. congruence.
        -- intros c' Hc''. assert (c' = c) as -> by congruence.
           right. left. unfold connector_of. simpl. rewrite lookup_insert_eq.
           split; [done|]. exists t, prop. by rewrite lookup_insert_eq.
        -- congruence.
    + assert (t0 = t) as ->.
      { pose proof (L2 t0 _ c Ht0 eq_refl). pose proof (L2 t _ c Ht eq_refl). congruence. }
      rewrite Ht in Ht0. done.
    + rewrite Hc' in Hstep. unfold _connected_for in Hstep.
      rewrite (EngineSpec.key_eq_recorded key) in Hstep. simpl in Hstep. simplify_eq.
      by eapply (singleton_moves t _ (GetExit c prop (Ret (VRef 0%nat))) s).
  - (* the pair is recorded *)
    destruct Hp as (Hc & -> & -> & Hconn & Hen). simplify_eq.
    rewrite Hconn. simpl.
    split; simpl; try done.
    + intros t' q [[<- <-]|[Hne Hq]]%lookup_insert_Some; simpl; [done|].
      specialize (P t' q Hq).
      destruct q as [[|?]| | |c'|?|? ?|? ?|? ? ? ? ?|c' ? ? ?|? ? r|r|r];
        simpl in *; try done.
      * assert (sa_connector (obj s) = None); [|congruence].
        eapply I; eauto.
      * destruct P as (Hc' & _). assert (c' = c) as -> by congruence.
        assert (t' = t); [|done].
        pose proof (L2 t' _ c Hq eq_refl). pose proof (L2 t _ c Ht eq_refl). congruence.
    + intros c' Hc''. assert (c' = c) as -> by congruence.
      right. right. unfold connector_of. simpl. by rewrite lookup_insert_eq.
  - simplify_eq.
    by eapply (singleton_moves t _ (if prop then PropExit result else Finished result) s);
      [..|by destruct prop].
  - simplify_eq. by eapply (singleton_moves t _ (Finished result) s).
  - done.
Qed.

Lemma singleton_run_trace (trace : list action) (s s' : state) :
  only_reads trace = true →
  ConcurrentSpec.invariant s → singleton s →
  run_trace trace s = Some s' → singleton s'.
Proof.
  revert s. induction trace as [|a trace IH]; intros s Hreads Hinv Hone Hrun;
    simpl in *; [by simplify_eq|].
  apply andb_true_iff in Hreads as [Ha Hreads].
  destruct (exec a s) as [s1|] eqn:Hexec; [|done].
  destruct a as [t|t [|c]|]; try done.
  - apply (IH s1); [done| |by eapply singleton_thread_step|done].
    by apply (ConcurrentSpec.invariant_thread_step t s).
  - apply (IH s1); [done| | |done].
    + by apply (ConcurrentSpec.invariant_spawn t ReadEngine s).
    + simpl in Hexec. destruct (threads s !! t) eqn:Ht; [done|]. simplify_eq.
      destruct Hone as [U If O P C N]. split; simpl; try done.
      * intros t' q [[<- <-]|[Hne Hq]]%lookup_insert_Some; simpl; eauto.
      * intros c Hc. destruct (C c Hc) as [Ha'|[[Hb (t0 & prop & Ht0)]|Hc']];
          [by left| |by right; right].
        right. left. split; [done|]. exists t0, prop. simpl.
        rewrite lookup_insert_ne; [done|]. intros <-. congruence.
Qed.

(** X11.  When threads only read the property [engine], in whatever
    interleaving and however many, and nothing assigns the fields of the
    object: at most one engine is ever created; every read that returns
    returns that one engine, created from the object's [info] and
    [options]; and a read raises only what [create_engine] raised for
    them. *)
Theorem concurrent_reads_share_one_engine (trace : list action) (s : state) :
  only_reads trace = true →
  run_trace trace (initial uri info options) = Some s →
  (length (engines (obj s)) ≤ 1)%nat ∧
  (∀ t v, threads s !! t = Some (Finished (Ret v)) →
          v = VRef 0%nat ∧ engines (obj s) = [(info, options)]) ∧
  (∀ t e, threads s !! t = Some (Finished (Raise e)) →
          create_engine_error info options = Some e).
Proof.
  intros Hreads Hrun.
  pose proof (singleton_run_trace trace _ s Hreads
                (ConcurrentSpec.invariant_initial uri info options)
                singleton_initial Hrun) as [U If O P C N].
  assert (Hengines : engines (obj s) = [] ∨ engines (obj s) = [(info, options)]).
  { destruct (sa_connector (obj s)) as [c|] eqn:Hc; [|by left; apply N].
    destruct (C c eq_refl) as [[_ ?]|[[_ (t0 & prop & Ht0)]|[_ ?]]]; [by left| |by right].
    right. by destruct (P t0 _ Ht0) as (_ & _ & _ & _ & ?). }
  split; [|split].
  - destruct Hengines as [->| ->]; simpl; lia.
  - intros t v Ht. exact (P t _ Ht).
  - intros t e Ht. exact (P t _ Ht).
Qed.

End OneEngine.

(** Thread 0 reads [engine]; thread 1 starts its read while thread 0 is
    in the property, and runs when thread 0 has left it. *)
Definition two_reads : list action :=
  [Spawn 0 ReadEngine; Run 0; Run 0; Run 0; Run 0;
   Spawn 1 ReadEngine;
   Run 0; Run 0; Run 0; Run 0; Run 0; Run 0; Run 0;
   Run 1; Run 1; Run 1; Run 1; Run 1; Run 1; Run 1; Run 1].

Definition after_two_reads : state :=
  default ConcurrentSpec.sqlite_a
    (run_trace (lib := Demo.demo_engines) two_reads ConcurrentSpec.sqlite_a).

(** Both reads of that interleaving returned, and returned engine 0. *)
Lemma concurrent_reads_share_one_engine_witness :
  threads after_two_reads !! 0%nat = Some (Finished (Ret (VRef 0%nat))) ∧
  threads after_two_reads !! 1%nat = Some (Finished (Ret (VRef 0%nat))) ∧
  (length (engines (obj after_two_reads)) ≤ 1)%nat ∧
  engines (obj after_two_reads) = [(VStr "sqlite:///a.db", [("echo", VBool false)])].
Proof.
  split; [by vm_compute|]. split; [by vm_compute|].
  destruct (concurrent_reads_share_one_engine (lib := Demo.demo_engines)
              (VStr "sqlite:///a.db") (VStr "sqlite:///a.db") [("echo", VBool false)]
              two_reads after_two_reads eq_refl)
    as (Hone & Hret & _); [by vm_compute|].
  split; [exact Hone|].
  apply (Hret 1%nat (VRef 0%nat)). by vm_compute.
Defined.

End SingletonSpec.

(** ** The two locks never leave the threads stuck *)

Module ProgressSpec.
Import Engine Concurrent.

(** The thread has returned or raised. *)
Definition finished (p : pc) : bool :=
  match p with
  | Finished _ => true
  | _ => false
  end.

(** The statements a thread at [p] has before it at most. *)
Definition remaining (p : pc) : nat :=
  match p with
  | Finished _ => 0
  | PropExit _ => 1
  | GetExit _ prop _ => if prop then 2 else 1
  | GetRecord _ prop _ _ => if prop then 3 else 2
  | GetCompare _ prop _ _ _ => if prop then 4 else 3
  | GetRead _ prop => if prop then 5 else 4
  | GetEnter _ prop => if prop then 6 else 5
  | Start (GetEngine _) => 6
  | PropCall _ => 7
  | PropInstall _ => 8
  | PropMake => 9
  | PropLocked => 10
  | Start ReadEngine => 11
  end.

Definition total (threads : gmap nat pc) : nat :=
  map_fold (fun _ p n => (remaining p + n)%nat) 0%nat threads.

(** A lock that is taken is held by a thread that is inside the block
    the lock guards. *)
Record held (s : state) : Prop := Held {
  held_engine :
    ∀ t, engine_lock s = Some t →
         ∃ p, threads s !! t = Some p ∧ ConcurrentSpec.in_property p = true;
  held_connector :
    ∀ c t, connector_locks s !! c = Some t →
           ∃ p, threads s !! t = Some p ∧ ConcurrentSpec.in_get p = Some c
}.

Lemma held_initial (uri info : pyval) (options : dict) : held (initial uri info options).
Proof. by split. Qed.

(** A statement that takes and releases no lock. *)
Lemma held_moves (t : nat) (p p' : pc) (s s' : state) :
  held s → threads s !! t = Some p →
  engine_lock s' = engine_lock s → connector_locks s' = connector_locks s →
  threads s' = <[t := p']> (threads s) →
  (ConcurrentSpec.in_property p = true → ConcurrentSpec.in_property p' = true) →
  (∀ c, ConcurrentSpec.in_get p = Some c → ConcurrentSpec.in_get p' = Some c) →
  held s'.
Proof.
  intros [E C] Ht He Hc Hth Hprop Hget. split.
  - intros h. rewrite He, Hth. intros (q & Hq & Hin)%E.
    destruct (decide (h = t)) as [->|Hne].
    + exists p'. rewrite lookup_insert_eq. split; [done|]. apply Hprop. congruence.
    + exists q. by rewrite lookup_insert_ne.
  - intros c h. rewrite Hc, Hth. intros (q & Hq & Hin)%C.
    destruct (decide (h = t)) as [->|Hne].
    + exists p'. rewrite lookup_insert_eq. split; [done|]. apply Hget. congruence.
    + exists q. by rewrite lookup_insert_ne.
Qed.

Section Progress.
Context {lib : EngineLib}.

Lemma held_thread_step (t : nat) (s s' : state) :
  held s → thread_step t s = Some s' → held s'.
Proof.
  intros Hheld Hstep. unfold thread_step in Hstep.
  destruct (threads s !! t) as [p|] eqn:Ht; [|done].
  pose proof Hheld as [E C].
  destruct p as [[|c]| | |c|c|c prop|c prop|c prop u i opts
                |c prop k e|c prop result|result|result].
  - (* the lock of the property is taken *)
    destruct (engine_lock s) eqn:Hlock; [done|]. simplify_eq. split; simpl.
    + intros h [= <-]. exists PropLocked. by rewrite lookup_insert_eq.
    + intros c h (q & Hq & Hin)%C. exists q. split; [|done].
      rewrite lookup_insert_ne; [done|]. intros <-. rewrite Ht in Hq. by simplify_eq.
  - simplify_eq. by eapply (held_moves t _ (GetEnter c false) s).
  - destruct (sa_connector (obj s)); simplify_eq.
    + by eapply (held_moves t _ (PropCall _) s).
    + by eapply (held_moves t _ PropMake s).
  - simplify_eq. by eapply (held_moves t _ (PropInstall _) s).
  - simplify_eq. by eapply (held_moves t _ (PropCall c) s).
  - simplify_eq. by eapply (held_moves t _ (GetEnter c true) s).
  - (* the lock of the connector is taken *)
    destruct (connector_locks s !! c) eqn:Hlock; [done|]. simplify_eq. split; simpl.
    + intros h (q & Hq & Hin)%E. destruct (decide (h = t)) as [->|Hne].
      * exists (GetRead c prop). rewrite lookup_insert_eq. split; [done|].
        rewrite Ht in Hq. by simplify_eq.
      * exists q. by rewrite lookup_insert_ne.
    + intros c' h [[<- <-]|[Hne Hh]]%lookup_insert_Some.
      * exists (GetRead c prop). by rewrite lookup_insert_eq.
      * apply C in Hh as (q & Hq & Hin). exists q. split; [|done].
        rewrite lookup_insert_ne; [done|]. intros <-. rewrite Ht in Hq. by simplify_eq.
  - simplify_eq. by eapply (held_moves t _ (GetCompare c prop _ _ _) s).
  - destruct (key_eq _ _).
    + simplify_eq. by eapply (held_moves t _ (GetExit c prop _) s).
    + destruct (create_engine_error i opts); simplify_eq.
      * by eapply (held_moves t _ (GetExit c prop _) s).
      * by eapply (held_moves t _ (GetRecord c prop _ _) s).
  - simplify_eq. by eapply (held_moves t _ (GetExit c prop _) s).
  - (* the lock of the connector is released *)
    simplify_eq. split; simpl.
    + intros h (q & Hq & Hin)%E. destruct (decide (h = t)) as [->|Hne].
      * eexists. rewrite lookup_insert_eq. split; [done|].
        rewrite Ht in Hq. simplify_eq. simpl in Hin. by subst.
      * exists q. by rewrite lookup_insert_ne.
    + intros c' h [Hne Hh]%lookup_delete_Some.
      apply C in Hh as (q & Hq & Hin). exists q. split; [|done].
      rewrite lookup_insert_ne; [done|]. intros <-. rewrite Ht in Hq.
      simplify_eq. simpl in Hin. by simplify_eq.
  - (* the lock of the property is released *)
    simplify_eq. split; simpl; [done|].
    intros c h (q & Hq & Hin)%C. exists q. split; [|done].
    rewrite lookup_insert_ne; [done|]. intros <-. rewrite Ht in Hq. by simplify_eq.
  - done.
Qed.

Lemma held_exec (a : action) (s s' : state) :
  held s → exec a s = Some s' → held s'.
Proof.
  intros Hheld Hexec. destruct a as [t|t what|uri info options]; simpl in Hexec.
  - by eapply held_thread_step.
  - destruct (threads s !! t) eqn:Ht; [done|]. simplify_eq.
    destruct Hheld as [E C]. split; simpl.
    + intros h (q & Hq & Hin)%E. exists q. split; [|done].
      rewrite lookup_insert_ne; [done|]. intros <-. congruence.
    + intros c h (q & Hq & Hin)%C. exists q. split; [|done].
      rewrite lookup_insert_ne; [done|]. intros <-. congruence.
  - simplify_eq. by destruct Hheld.
Qed.

Lemma held_run_trace (trace : list action) (s s' : state) :
  held s → run_trace trace s = Some s' → held s'.
Proof.
  revert s. induction trace as [|a trace IH]; intros s Hheld Hrun; simpl in Hrun.
  - by simplify_eq.
  - destruct (exec a s) as [s1|] eqn:Hexec; [|done].
    apply (IH s1); [|done]. by eapply held_exec.
Qed.

(** A thread inside the block of [get_engine] can run its next
    statement. *)
Lemma in_get_runs (t : nat) (p : pc) (c : loc) (s : state) :
  threads s !! t = Some p → ConcurrentSpec.in_get p = Some c →
  is_Some (thread_step t s).
Proof.
  intros Ht Hin. unfold thread_step. rewrite Ht.
  destruct p; simpl in Hin; try done.
  destruct (key_eq _ _); [done|]. by destruct (create_engine_error _ _).
Qed.

(** When a thread waits for the lock of a connector, some thread can
    run. *)
Lemma get_enter_runs (t : nat) (c : loc) (prop : bool) (s : state) :
  held s → threads s !! t = Some (GetEnter c prop) →
  ∃ t', is_Some (thread_step t' s).
Proof.
  intros [E C] Ht.
  destruct (connector_locks s !! c) as [h|] eqn:Hlock.
  - apply C in Hlock as (q & Hq & Hin). exists h. by eapply in_get_runs.
  - exists t. unfold thread_step. by rewrite Ht, Hlock.
Qed.

(** When a thread is inside the block of the property, some thread can
    run. *)
Lemma in_property_runs (t : nat) (p : pc) (s : state) :
  held s → threads s !! t = Some p → ConcurrentSpec.in_property p = true →
  ∃ t', is_Some (thread_step t' s).
Proof.
  intros Hheld Ht Hin.
  destruct (ConcurrentSpec.in_get p) as [c|] eqn:Hget.
  { exists t. by eapply in_get_runs. }
  destruct p; simpl in Hin, Hget; try done;
    try (exists t; unfold thread_step; rewrite Ht; by eauto).
  - exists t. unfold thread_step. rewrite Ht. by destruct (sa_connector (obj s)).
  - by eapply get_enter_runs.
Qed.

(** While a thread has not finished, some thread can run. *)
Lemma unfinished_runs (t : nat) (p : pc) (s : state) :
  held s → threads s !! t = Some p → finished p = false →
  ∃ t', is_Some (thread_step t' s).
Proof.
  intros Hheld Ht Hfin.
  destruct (ConcurrentSpec.in_property p) eqn:Hin; [by eapply in_property_runs|].
  destruct (ConcurrentSpec.in_get p) as [c|] eqn:Hget.
  { exists t. by eapply in_get_runs. }
  destruct p as [[|c]| | |?|?|c prop|? ?|? ? ? ? ?|? ? ? ?|? ? ?|?|?];
    simpl in Hin, Hget, Hfin; try done.
  - destruct (engine_lock s) as [h|] eqn:Hlock.
    + destruct Hheld as [E C]. apply E in Hlock as (q & Hq & Hq').
      by eapply (in_property_runs h q).
    + exists t. unfold thread_step. by rewrite Ht, Hlock.
  - exists t. unfold thread_step. by rewrite Ht.
  - by eapply get_enter_runs.
Qed.

(** Every statement brings its thread nearer to its end, and leaves the
    other threads where they are. *)
Lemma thread_step_remaining (t : nat) (s s' : state) :
  thread_step t s = Some s' →
  ∃ p p', threads s !! t = Some p ∧ threads s' = <[t := p']> (threads s) ∧
          (remaining p' < remaining p)%nat.
Proof.
  unfold thread_step. destruct (threads s !! t) as [p|] eqn:Ht; [|done].
  intros Hstep. exists p.
  destruct p as [[|c]| | |c|c|c prop|c prop|c prop u i opts
                |c prop k e|c prop result|result|result]; simpl.
  - destruct (engine_lock s); [done|]. simplify_eq. eexists. split; [done|]. split; [done|].
    simpl. lia.
  - simplify_eq. eexists. split; [done|]. split; [done|]. simpl. lia.
  - destruct (sa_connector (obj s)); simplify_eq;
      (eexists; split; [done|]; split; [done|]; simpl; lia).
  - simplify_eq. eexists. split; [done|]. split; [done|]. simpl. lia.
  - simplify_eq. eexists. split; [done|]. split; [done|]. simpl. lia.
  - simplify_eq. eexists. split; [done|]. split; [done|]. simpl. lia.
  - destruct (connector_locks s !! c); [done|]. simplify_eq.
    eexists. split; [done|]. split; [done|]. simpl. destruct prop; lia.
  - simplify_eq. eexists. split; [done|]. split; [done|]. simpl. destruct prop; lia.
  - destruct (key_eq _ _); [|destruct (create_engine_error i opts)]; simplify_eq;
      (eexists; split; [done|]; split; [done|]; simpl; destruct prop; lia).
  - simplify_eq. eexists. split; [done|]. split; [done|]. simpl. destruct prop; lia.
  - simplify_eq. eexists. split; [done|]. split; [done|]. destruct prop; simpl; lia.
  - simplify_eq. eexists. split; [done|]. split; [done|]. simpl. lia.
  - done.
Qed.

Lemma total_insert (t : nat) (p p' : pc) (m : gmap nat pc) :
  m !! t = Some p →
  (total (<[t := p']> m) + remaining p = total m + remaining p')%nat.
Proof.
  intros Ht. unfold total.
  rewrite (map_fold_delete_L _ _ t p m); [|intros; lia|done].
  rewrite <- (insert_delete_eq m).
  rewrite (map_fold_insert_L _ _ t p'); [lia|intros; lia|apply lookup_delete_eq].
Qed.

Lemma all_or_unfinished (m : gmap nat pc) :
  (∀ t p, m !! t = Some p → finished p = true) ∨
  ∃ t p, m !! t = Some p ∧ finished p = false.
Proof.
  induction m as [|t p m Hnone _ IH] using map_first_key_ind.
  - left. intros t p. by rewrite lookup_empty.
  - destruct (finished p) eqn:Hp.
    + destruct IH as [Hall|(t' & q & Hq & Hfin)].
      * left. intros t' q [[<- <-]|[_ Hq]]%lookup_insert_Some; eauto.
      * right. exists t', q. split; [|done].
        rewrite lookup_insert_ne; [done|]. intros <-. congruence.
    + right. exists t, p. by rewrite lookup_insert_eq.
Qed.

(** From a state in which the locks are held as they should, the
    threads can be scheduled so that all of them finish. *)
Lemma held_finishes (n : nat) (s : state) :
  held s → (total (threads s) ≤ n)%nat →
  ∃ schedule s', run_trace (Run <$> schedule) s = Some s' ∧
                 ∀ t p, threads s' !! t = Some p → finished p = true.
Proof.
  revert s.
  assert (Hnext : ∀ s, held s →
            (∀ t p, threads s !! t = Some p → finished p = true) ∨
            ∃ t' s1, thread_step t' s = Some s1 ∧
                     (total (threads s1) < total (threads s))%nat).
  { intros s Hheld.
    destruct (all_or_unfinished (threads s)) as [Hall|(t & p & Ht & Hp)];
      [by left|right].
    destruct (unfinished_runs t p s Hheld Ht Hp) as (t' & s1 & Hstep).
    destruct (thread_step_remaining t' s s1 Hstep) as (q & q' & Hq & Hth & Hlt).
    pose proof (total_insert t' q q' (threads s) Hq) as Htotal.
    rewrite <- Hth in Htotal. exists t', s1. split; [done|lia]. }
  induction n as [|n IH]; intros s Hheld Hn;
    (destruct (Hnext s Hheld) as [Hall|(t' & s1 & Hstep & Hlt)]; [by exists [], s|]);
    [lia|].
  destruct (IH s1) as (schedule & s' & Hrun & Hdone);
    [by eapply held_thread_step|lia|].
  exists (t' :: schedule), s'. split; [|done]. csimpl. by rewrite Hstep.
Qed.

(** X12.  No deadlock: whatever the threads have done so far, and whatever was
    assigned to the object, if a thread has not finished then some
    thread can run its next statement, and there is a schedule after
    which every read of [engine] and every call of [get_engine] has
    returned or raised. *)
Theorem every_call_can_finish
    (trace : list action) (uri info : pyval) (options : dict) (s : state) :
  run_trace trace (initial uri info options) = Some s →
  ((∃ t p, threads s !! t = Some p ∧ finished p = false) →
   ∃ t', is_Some (thread_step t' s)) ∧
  ∃ schedule s',
    run_trace (Run <$> schedule) s = Some s' ∧
    ∀ t p, threads s' !! t = Some p → finished p = true.
Proof.
  intros Hrun.
  pose proof (held_run_trace trace _ s (held_initial uri info options) Hrun) as Hheld.
  split.
  - intros (t & p & Ht & Hp). by eapply unfinished_runs.
  - by eapply held_finishes.
Qed.

End Progress.

(** Thread 0 is inside the property and holds its lock, thread 1 waits
    for the lock, thread 2 is inside [get_engine] of connector 0. *)
Definition three_threads : list action :=
  [Spawn 0 ReadEngine; Run 0; Run 0; Run 0; Run 0;
   Spawn 1 ReadEngine;
   Spawn 2 (GetEngine 0%nat); Run 2; Run 2; Run 2].

Definition amid_three_threads : state :=
  default ConcurrentSpec.sqlite_a
    (run_trace (lib := Demo.demo_engines) three_threads ConcurrentSpec.sqlite_a).

(** The three threads can all be brought to their end. *)
Lemma every_call_can_finish_witness :
  thread_step (lib := Demo.demo_engines) 1 amid_three_threads = None ∧
  ∃ schedule s',
    run_trace (lib := Demo.demo_engines) (Run <$> schedule) amid_three_threads = Some s' ∧
    ∀ t p, threads s' !! t = Some p → finished p = true.
Proof.
  split; [by vm_compute|].
  refine (proj2 (every_call_can_finish (lib := Demo.demo_engines) three_threads
                   (VStr "sqlite:///a.db") (VStr "sqlite:///a.db") [("echo", VBool false)]
                   amid_three_threads _)).
  by vm_compute.
Defined.

End ProgressSpec.

(** ** The session is bound to the engine of the property *)

Module ScopedSessionsSpec.
Import Engine ScopedSessions.

Section Bound.
Context {lib : EngineLib} {pool : PoolLib}.

(** X13.  On an object that has not read its engine yet, making the session
    creates one engine, although the property is read three times, and
    binds the session to it; a later read of [engine] returns the engine
    the session is bound to.  The pool of the engine must have [size()]
    and [_max_overflow]: when it lacks one, its exception is raised and
    no session is made, but the engine stays. *)
Theorem scoped_session_is_bound_to_the_engine
    (_query_cls class_ : pyval) (o : sa_obj) (out : console) :
  sa_connector o = None →
  create_engine_error (sa_info o) (sa_options o) = None →
  let e := VRef (length (engines o)) in
  let made := _create_scoped_session _query_cls class_ (o, out) in
  engines made.2.1 = engines o ++ [(sa_info o, sa_options o)] ∧
  engine made.2.1 = (Ret e, made.2.1) ∧
  match pool_size e, pool_max_overflow e with
  | Ret size, Ret max_overflow =>
      made.1 = Ret (ScopedSession
                      (SessionMaker true false e
                         (if bool_decide (_query_cls = VNone) then class_ else _query_cls))) ∧
      made.2.2 = out ++ [("Engine size: ", size); ("Engine max  overflow: ", max_overflow)]
  | Ret size, Raise x => made.1 = Raise x ∧ made.2.2 = out ++ [("Engine size: ", size)]
  | Raise x, _ => made.1 = Raise x ∧ made.2.2 = out
  end.
Proof.
  intros Hnone Hok e made. subst made e.
  set (c := fresh (dom (connectors o))).
  pose proof (EnginePropertySpec.first_read_creates o Hnone Hok) as Hfirst.
  pose proof (EnginePropertySpec.later_read_returns c o) as Hlater.
  fold c in Hfirst.
  assert (Hmade : (_create_scoped_session _query_cls class_ (o, out)).2.1
                  = EnginePropertySpec.first_read c o ∧
          match pool_size (VRef (length (engines o))),
                pool_max_overflow (VRef (length (engines o))) with
          | Ret size, Ret max_overflow =>
              (_create_scoped_session _query_cls class_ (o, out)).1
              = Ret (ScopedSession
                       (SessionMaker true false (VRef (length (engines o)))
                          (if bool_decide (_query_cls = VNone) then class_ else _query_cls))) ∧
              (_create_scoped_session _query_cls class_ (o, out)).2.2
              = out ++ [("Engine size: ", size); ("Engine max  overflow: ", max_overflow)]
          | Ret size, Raise x =>
              (_create_scoped_session _query_cls class_ (o, out)).1 = Raise x ∧
              (_create_scoped_session _query_cls class_ (o, out)).2.2
              = out ++ [("Engine size: ", size)]
          | Raise x, _ =>
              (_create_scoped_session _query_cls class_ (o, out)).1 = Raise x ∧
              (_create_scoped_session _query_cls class_ (o, out)).2.2 = out
          end).
  { unfold _create_scoped_session, Py.bind, read_engine, pure, print, ret. simpl.
    rewrite Hfirst. simpl. rewrite Hlater.
    destruct (pool_size (VRef (length (engines o)))) as [size|x]; [|done].
    simpl. rewrite Hlater.
    destruct (pool_max_overflow (VRef (length (engines o)))) as [max_overflow|x]; [|done].
    simpl. by rewrite <- app_assoc. }
  destruct Hmade as [-> Hresult].
  split; [done|]. split; [done|]. exact Hresult.
Qed.

End Bound.

(** A pool of five connections that allows ten more. *)
#[local] Instance queue_pool : PoolLib := {|
  pool_size _ := Ret (VInt 5);
  pool_max_overflow _ := Ret (VInt 10)
|}.

(** The session of the SQLite object: engine 0, and the two lines. *)
Lemma scoped_session_is_bound_to_the_engine_witness :
  (_create_scoped_session (lib := Demo.demo_engines) VNone VNone (Demo.db_sqlite, [])).1
    = Ret (ScopedSession (SessionMaker true false (VRef 0%nat) VNone)) ∧
  (_create_scoped_session (lib := Demo.demo_engines) VNone VNone (Demo.db_sqlite, [])).2.2
    = [("Engine size: ", VInt 5); ("Engine max  overflow: ", VInt 10)].
Proof.
  exact (proj2 (proj2 (scoped_session_is_bound_to_the_engine (lib := Demo.demo_engines)
                         VNone VNone Demo.db_sqlite [] eq_refl eq_refl))).
Defined.

End ScopedSessionsSpec.

(** ** What [_include_sqlalchemy] copies, and what [db.Table] passes on *)

Module SchemaSpec.
Import Schema.

Definition is_property (key : string) : bool := bool_decide (key ∈ properties).

(** The value a module has for [key], when the key is one that the loop
    copies. *)
Definition offered (key : string) (m : module) : option pyval :=
  if copied key && negb (is_property key) then dict_get key m else None.

(** The entries of the [info] the caller gave, when it is a dictionary. *)
Definition entries_of (info : pyval) : dict :=
  match info with
  | VDict entries => entries
  | _ => []
  end.

Lemma offered_cons (key key0 : string) (v0 : pyval) (m : module) :
  offered key ((key0, v0) :: m)
  = if String.eqb key0 key
    then (if copied key && negb (is_property key) then Some v0 else None)
    else offered key m.
Proof.
  unfold offered. simpl.
  by destruct (String.eqb key0 key), (copied key && negb (is_property key)).
Qed.

Lemma hasattr_lookup {lib : SchemaLib} (db : attrs) (key : string) :
  is_property key = false → hasattr db key = bool_decide (is_Some (db !! key)).
Proof.
  unfold is_property, properties, hasattr. intros Hkey.
  apply bool_decide_eq_false in Hkey.
  destruct (String.eqb_spec key "query") as [->|_]; [set_solver|].
  destruct (String.eqb_spec key "metadata") as [->|_]; [set_solver|]. done.
Qed.

Section Include.
Context {lib : SchemaLib}.

(** One module: an attribute that is there stays, and a name that is
    not there gets the value the module offers. *)
Lemma include_module_spec (m : module) (db db' : attrs) :
  include_module m db = (Ret tt, db') →
  ∀ key, db' !! key = match db !! key with
                      | Some v => Some v
                      | None => offered key m
                      end.
Proof.
  revert db. induction m as [|[key0 v0] m IH]; intros db Hrun key; simpl in Hrun.
  - unfold ret in Hrun. simplify_eq. unfold offered. simpl.
    destruct (db' !! key); [done|]. by destruct (_ && _).
  - unfold bind in Hrun. rewrite offered_cons.
    destruct (copied key0) eqn:Hcopied.
    + destruct (hasattr db key0) eqn:Hhas; simpl in Hrun.
      * rewrite (IH db Hrun key).
        destruct (db !! key) eqn:Hkey; [done|].
        destruct (String.eqb_spec key0 key) as [->|_]; [|done].
        rewrite Hcopied. simpl.
        destruct (is_property key) eqn:Hprop; simpl.
        -- unfold offered. by rewrite Hprop, andb_false_r.
        -- rewrite hasattr_lookup in Hhas by done.
           apply bool_decide_eq_true in Hhas as [v Hv]. congruence.
      * unfold setattr in Hrun. fold (is_property key0) in Hrun.
        destruct (is_property key0) eqn:Hprop; [done|].
        rewrite hasattr_lookup in Hhas by done.
        apply bool_decide_eq_false in Hhas.
        rewrite (IH _ Hrun key).
        destruct (String.eqb_spec key0 key) as [->|Hne].
        -- rewrite lookup_insert_eq, Hcopied, Hprop. simpl.
           destruct (db !! key) eqn:Hkey; [|done]. destruct Hhas. eauto.
        -- by rewrite lookup_insert_ne.
    + rewrite (IH db Hrun key).
      destruct (db !! key) eqn:Hkey; [done|].
      destruct (String.eqb_spec key0 key) as [->|_]; [|done].
      rewrite Hcopied. simpl. unfold offered. by rewrite Hcopied.
Qed.

(** A module that does not list [metadata] is copied without error. *)
Lemma include_module_returns (m : module) (db : attrs) :
  dict_get "metadata" m = None → ∃ db', include_module m db = (Ret tt, db').
Proof.
  revert db. induction m as [|[key0 v0] m IH]; intros db Hnone; simpl in *.
  - by exists db.
  - destruct (String.eqb_spec key0 "metadata") as [->|Hne]; [done|].
    unfold bind. destruct (copied key0) eqn:Hcopied; [|by apply IH].
    destruct (hasattr db key0) eqn:Hhas; simpl; [by apply IH|].
    unfold setattr, properties. case_bool_decide as Hprop; [|by apply IH].
    exfalso. unfold hasattr in Hhas.
    destruct (String.eqb_spec key0 "query") as [->|Hq]; [done|].
    assert (key0 = "engine") as -> by set_solver. done.
Qed.

(** X14.  [_include_sqlalchemy] never changes an attribute that the object
    has, except [Table], which it always sets to the table maker; it
    never adds a name that starts with an underscore or that is [engine]
    in any case of letters, and never a property of the class; any other
    name that the object lacks gets the value of [sqlalchemy], or else
    that of [sqlalchemy.orm].  It returns whenever neither module lists
    [metadata]. *)
Theorem include_sqlalchemy_never_overwrites
    (sqlalchemy sqlalchemy_orm : module) (table_maker : pyval) (db : attrs) :
  (∀ db', _include_sqlalchemy sqlalchemy sqlalchemy_orm table_maker db = (Ret tt, db') →
     db' !! "Table" = Some table_maker ∧
     (∀ key v, key ≠ "Table" → db !! key = Some v → db' !! key = Some v) ∧
     (∀ key, key ≠ "Table" → db !! key = None →
             copied key = false ∨ key ∈ properties → db' !! key = None) ∧
     (∀ key, key ≠ "Table" → db !! key = None → copied key = true → key ∉ properties →
             db' !! key = match dict_get key sqlalchemy with
                          | Some v => Some v
                          | None => dict_get key sqlalchemy_orm
                          end)) ∧
  (dict_get "metadata" sqlalchemy = None → dict_get "metadata" sqlalchemy_orm = None →
   ∃ db', _include_sqlalchemy sqlalchemy sqlalchemy_orm table_maker db = (Ret tt, db')).
Proof.
  split.
  - intros db'. unfold _include_sqlalchemy, bind.
    destruct (include_module sqlalchemy db) as [[[]|e] db1] eqn:H1; [|done].
    destruct (include_module sqlalchemy_orm db1) as [[[]|e] db2] eqn:H2; [|done].
    unfold setattr. simpl. intros [= <-].
    split; [by rewrite lookup_insert_eq|].
    assert (Hkey : ∀ key, key ≠ "Table" →
              <["Table" := table_maker]> db2 !! key
              = match db !! key with
                | Some v => Some v
                | None =>
                    match offered key sqlalchemy with
                    | Some v => Some v
                    | None => offered key sqlalchemy_orm
                    end
                end).
    { intros key Hkey. rewrite lookup_insert_ne by done.
      rewrite (include_module_spec _ _ _ H2 key), (include_module_spec _ _ _ H1 key).
      destruct (db !! key); [done|]. by destruct (offered key sqlalchemy). }
    split; [|split].
    + intros key v Hne Hv. by rewrite Hkey, Hv.
    + intros key Hne Hnone Hnot. rewrite Hkey, Hnone by done. unfold offered.
      destruct Hnot as [->|Hprop]; [done|].
      unfold is_property. rewrite bool_decide_eq_true_2 by done.
      by rewrite andb_false_r.
    + intros key Hne Hnone Hcopied Hprop. rewrite Hkey, Hnone by done. unfold offered.
      unfold is_property. rewrite Hcopied, bool_decide_eq_false_2 by done. done.
  - intros Hm1 Hm2. unfold _include_sqlalchemy, bind.
    destruct (include_module_returns sqlalchemy db Hm1) as [db1 ->].
    destruct (include_module_returns sqlalchemy_orm db1 Hm2) as [db2 ->].
    unfold setattr. simpl. eauto.
Qed.

Lemma dict_get_without (key k : string) (d : dict) :
  NoDup (dict_keys d) →
  dict_get k (dict_without key d) = if String.eqb k key then None else dict_get k d.
Proof.
  intros Hnd. unfold dict_without. rewrite OptionsSpec.dict_get_filter by done. simpl.
  destruct (dict_get k d); [|by destruct (String.eqb k key)].
  by destruct (String.eqb k key).
Qed.


End Include.

(** A library for examples: the class of an object is the head of the
    list that stands for it, the metadata of a class is the object after
    it, and [Table] keeps the arguments of every call. *)
#[local] Instance demo_schema : SchemaLib := {|
  Tables := list (list pyval * dict);
  metadata_of model :=
    match model with
    | VRef l => Some (VRef (S l))
    | _ => None
    end;
  isinstance obj cls :=
    match cls, obj with
    | VRef _, VList (head :: _) => Ret (bool_decide (head = cls))
    | VRef _, _ => Ret false
    | _, _ => Raise (Exn TypeError "isinstance() arg 2 must be a type")
    end;
  sa_Table args kwargs := fun ts => (Ret (VRef (length ts)), ts ++ [(args, kwargs)])
|}.

(** Two small modules: both have [select], one has a private name and
    [Engine], the other has [session]. *)
Definition demo_sqlalchemy : module :=
  [("Column", VRef 1%nat); ("Engine", VRef 2%nat); ("Table", VRef 3%nat);
   ("__version__", VStr "2.0"); ("select", VRef 4%nat)].

Definition demo_orm_module : module :=
  [("relationship", VRef 5%nat); ("select", VRef 6%nat); ("session", VRef 7%nat)].

(** The object right after [__init__] set its fields, made without a
    uri. *)
Definition demo_db : attrs :=
  <["session" := VNone]> (<["uri" := VNone]> ∅).

Definition demo_included : attrs :=
  <["Table" := VCallable 0%nat]>
    (<["relationship" := VRef 5%nat]>
       (<["select" := VRef 4%nat]> (<["Column" := VRef 1%nat]> demo_db))).

(** What the inclusion of the two modules gives. *)
Lemma include_sqlalchemy_never_overwrites_witness :
  _include_sqlalchemy demo_sqlalchemy demo_orm_module (VCallable 0%nat) demo_db
    = (Ret tt, demo_included) ∧
  demo_included !! "Table" = Some (VCallable 0%nat) ∧
  demo_included !! "session" = Some VNone ∧
  demo_included !! "Engine" = None ∧
  demo_included !! "select" = Some (VRef 4%nat).
Proof.
  assert (Hrun : _include_sqlalchemy demo_sqlalchemy demo_orm_module (VCallable 0%nat) demo_db
                 = (Ret tt, demo_included)) by by vm_compute.
  destruct (include_sqlalchemy_never_overwrites demo_sqlalchemy demo_orm_module
              (VCallable 0%nat) demo_db) as [Hspec _].
  destruct (Hspec demo_included Hrun) as (Htable & Hkeep & Hnot & Hnew).
  split; [exact Hrun|]. split; [exact Htable|].
  split; [by apply Hkeep|].
  split; [apply Hnot; [done|done|by left]|].
  apply (Hnew "select"); [done|done|done|].
  unfold properties. set_solver.
Defined.

(** The object with [Column] and [Model], and a call with a column in
    second place and an [info]. *)
Definition demo_model_db : attrs := <["Model" := VRef 8%nat]> demo_included.

(** No table made yet. *)
Definition no_tables : @Tables demo_schema := [].


End SchemaSpec.

(** ** When [to_dict] and [to_json] raise *)

Module ToJsonErrorsSpec.
Import ActiveRecord.

(** The values [json.dumps] writes: [None], booleans, integers, strings,
    and lists, tuples and dictionaries of such. *)
Fixpoint encodable (v : pyval) : bool :=
  match v with
  | VNone | VBool _ | VInt _ | VStr _ => true
  | VList items | VTuple items => forallb encodable items
  | VDict entries => forallb (fun kv => encodable kv.2) entries
  | _ => false
  end.

(** [json.dumps] returns a text on these values and raises [TypeError]
    on every other. *)
Lemma dumps_encodable (v : pyval) :
  if encodable v then ∃ s, Json.dumps v = Ret s
  else Json.dumps v = Raise Json.not_serializable.
Proof.
  induction v as [v Hl Ht Hd|items IH|items IH|entries IH] using JsonSpec.pyval_nested_ind.
  - destruct v as [ |b|z|str|items|items|entries|iso|iso|iso| |l|e|f]; simpl; eauto.
    + destruct b; eauto.
    + by destruct (Hl items).
    + by destruct (Ht items).
    + by destruct (Hd entries).
  - assert (Hchunks : if forallb encodable items then ∃ l, JsonSpec.chunks items = Ret l
                      else JsonSpec.chunks items = Raise Json.not_serializable).
    { induction IH as [|x items Hx _ IHitems]; simpl; [eauto|].
      destruct (encodable x); simpl.
      - destruct Hx as [sx ->]. destruct (forallb encodable items).
        + destruct IHitems as [l ->]. eauto.
        + by rewrite IHitems.
      - by rewrite Hx. }
    rewrite JsonSpec.dumps_list. simpl.
    destruct (forallb encodable items).
    + destruct Hchunks as [l ->]. eauto.
    + by rewrite Hchunks.
  - assert (Hchunks : if forallb encodable items then ∃ l, JsonSpec.chunks items = Ret l
                      else JsonSpec.chunks items = Raise Json.not_serializable).
    { induction IH as [|x items Hx _ IHitems]; simpl; [eauto|].
      destruct (encodable x); simpl.
      - destruct Hx as [sx ->]. destruct (forallb encodable items).
        + destruct IHitems as [l ->]. eauto.
        + by rewrite IHitems.
      - by rewrite Hx. }
    rewrite JsonSpec.dumps_tuple, JsonSpec.dumps_list. simpl.
    destruct (forallb encodable items).
    + destruct Hchunks as [l ->]. eauto.
    + by rewrite Hchunks.
  - assert (Hmembers : if forallb (fun kv => encodable kv.2) entries
                       then ∃ l, JsonSpec.members entries = Ret l
                       else JsonSpec.members entries = Raise Json.not_serializable).
    { induction IH as [|[k x] entries Hx _ IHentries]; simpl in *; [eauto|].
      destruct (encodable x); simpl.
      - destruct Hx as [sx ->].
        destruct (forallb (fun kv => encodable kv.2) entries).
        + destruct IHentries as [l ->]. eauto.
        + by rewrite IHentries.
      - by rewrite Hx. }
    rewrite JsonSpec.dumps_dict. simpl.
    destruct (forallb (fun kv => encodable kv.2) entries).
    + destruct Hmembers as [l ->]. eauto.
    + by rewrite Hmembers.
Qed.

(** The loop of [to_json] stops at a value that is an instance of the
    column type [ArrowType]: it passes the [isinstance] test and has no
    [isoformat]. *)
Lemma to_json_data_arrow_type (d acc : dict) :
  VArrowType ∈ d.*2 → to_json_data d acc = Raise (no_attribute "isoformat").
Proof.
  revert acc. induction d as [|[k v] d IH]; intros acc Hin; csimpl in *.
  - by apply elem_of_nil in Hin.
  - apply elem_of_cons in Hin as [<-|Hin]; [done|].
    destruct v; simpl; by rewrite ?IH.
Qed.

Lemma encodable_transformed (d : dict) :
  forallb (fun kv => encodable kv.2) (ToJsonSpec.transformed d)
  = forallb (fun kv => encodable (ToJsonSpec.iso_value kv.2)) d.
Proof.
  unfold ToJsonSpec.transformed. induction d as [|[k v] d IH]; csimpl; [done|].
  by rewrite IH.
Qed.

Section Errors.
Context {S : Type}.

Lemma to_dict_from_missing (self : loc) (present : list string) (c : string)
    (rest : list string) (acc : dict) (w : world S) :
  (∀ x, x ∈ present → is_Some (instance_attrs (w_heap w) self !! x)) →
  instance_attrs (w_heap w) self !! c = None →
  to_dict_from self (present ++ c :: rest) acc w = (Raise (no_attribute c), w).
Proof.
  revert acc. induction present as [|x present IH]; intros acc Hpresent Hc; simpl.
  - unfold bind, getattr. by rewrite Hc.
  - destruct (Hpresent x ltac:(set_solver)) as [v Hv].
    unfold bind, getattr at 1. rewrite Hv. apply IH; [|done].
    intros y Hy. apply Hpresent. set_solver.
Qed.

(** X16.  [to_dict] and [to_json] raise [AttributeError] for the first column,
    in the order of the table, whose name is not an attribute of the
    instance, and change nothing. *)
Theorem to_dict_raises_for_first_missing_column
    (self : loc) (present : list string) (c : string) (rest : list string) (w : world S) :
  (∀ x, x ∈ present → is_Some (instance_attrs (w_heap w) self !! x)) →
  instance_attrs (w_heap w) self !! c = None →
  to_dict self (present ++ c :: rest) w = (Raise (no_attribute c), w) ∧
  to_json self (present ++ c :: rest) w = (Raise (no_attribute c), w).
Proof.
  intros Hpresent Hc.
  assert (Hdict : to_dict self (present ++ c :: rest) w = (Raise (no_attribute c), w))
    by by apply to_dict_from_missing.
  split; [done|]. unfold to_json, bind. by rewrite Hdict.
Qed.


End Errors.

(** The event of the examples: its column [day] holds a date, and it
    has no attribute [place]. *)
Lemma to_dict_raises_for_first_missing_column_witness :
  to_dict 0%nat ["id"; "place"; "title"] Demo.w_event
    = (Raise (no_attribute "place"), Demo.w_event) ∧
  to_json 0%nat ["id"; "place"; "title"] Demo.w_event
    = (Raise (no_attribute "place"), Demo.w_event).
Proof.
  apply (to_dict_raises_for_first_missing_column 0%nat ["id"] "place" ["title"] Demo.w_event).
  - intros x Hx. apply list_elem_of_singleton in Hx as ->. by eexists.
  - reflexivity.
Defined.


End ToJsonErrorsSpec.

(** ** A database object made without a uri *)

Module UnboundSpec.
Import ActiveRecord.

Section Unbound.
Context {orm : ORM}.

Lemma save_unbound (self : loc) (w : world Sess) :
  w_session w = None →
  save self w = (Raise (none_has_no_attribute "rollback"), w).
Proof.
  intros Hnone.
  unfold save, try_except, bind, db_add, db_rollback, on_session.
  rewrite Hnone. simpl. by rewrite Hnone.
Qed.


End Unbound.


End UnboundSpec.

(** ** [create_all] and [drop_all] need [Model], and share the engine *)

Module MetaDataSpec.
Import Engine Schema MetaData.

Section Calls.
Context {lib : EngineLib} {schema : SchemaLib} {md : MetaDataLib}.

(** X19.  [__init__] assigns no attribute [Model], and [_include_sqlalchemy]
    adds none unless a module lists the name: on the object it leaves,
    [create_all] and [drop_all] raise [AttributeError] before they read
    the engine, so that no connector is installed and no engine created,
    and [db.Table] raises it when its second argument is a column. *)
Theorem create_all_needs_model
    (sqlalchemy sqlalchemy_orm : module) (table_maker : pyval) (db db' : attrs) :
  db !! "Model" = None →
  dict_get "Model" sqlalchemy = None →
  dict_get "Model" sqlalchemy_orm = None →
  _include_sqlalchemy sqlalchemy sqlalchemy_orm table_maker db = (Ret tt, db') →
  ∀ (sa : sa_obj) (calls : list schema_call),
    create_all (DbObj db' sa calls) = (Raise (no_attribute "Model"), DbObj db' sa calls) ∧
    drop_all (DbObj db' sa calls) = (Raise (no_attribute "Model"), DbObj db' sa calls) ∧
    ∀ name second rest column kwargs ts,
      db' !! "Column" = Some column → isinstance second column = Ret true →
      make_sa_table db' (name :: second :: rest) kwargs ts
        = (Raise (no_attribute "Model"), ts).
Proof.
  intros Hdb Hm1 Hm2 Hrun.
  assert (Hmodel : db' !! "Model" = None).
  { unfold _include_sqlalchemy, bind in Hrun.
    destruct (include_module sqlalchemy db) as [[[]|e] db1] eqn:H1; [|done].
    destruct (include_module sqlalchemy_orm db1) as [[[]|e] db2] eqn:H2; [|done].
    unfold setattr in Hrun. simpl in Hrun. simplify_eq.
    rewrite lookup_insert_ne by done.
    rewrite (SchemaSpec.include_module_spec _ _ _ H2 "Model").
    rewrite (SchemaSpec.include_module_spec _ _ _ H1 "Model"), Hdb.
    unfold SchemaSpec.offered. simpl. by rewrite Hm1, Hm2. }
  assert (Hmd : metadata db' = Raise (no_attribute "Model")).
  { unfold metadata, getattr. by rewrite Hmodel. }
  intros sa calls. split; [|split].
  - unfold create_all, bind, read_metadata. simpl. by rewrite Hmd.
  - unfold drop_all, bind, read_metadata. simpl. by rewrite Hmd.
  - intros name second rest column kwargs ts Hcolumn His.
    unfold make_sa_table, bind, pure, getattr. by rewrite Hcolumn, His, Hmd.
Qed.

(** X20.  On an object with a [Model] that has not read its engine yet,
    [create_all], [reflect] and [drop_all] one after the other create
    one engine, and all three calls are bound to it; [reflect] uses the
    metadata it is given, or a new one, and returns it. *)
Theorem create_all_and_drop_all_share_the_engine
    (w : db_obj) (m meta : pyval) :
  metadata (db_attrs w) = Ret m →
  sa_connector (db_sa w) = None →
  create_engine_error (sa_info (db_sa w)) (sa_options (db_sa w)) = None →
  (∀ c, schema_call_error c = None) →
  let e := VRef (length (engines (db_sa w))) in
  let reflected := if truthy meta then meta else new_metadata in
  ∃ sa',
    (run create_all; do r <~ reflect meta; run drop_all; ret r) w
      = (Ret reflected,
         DbObj (db_attrs w) sa'
               (db_calls w ++ [SchemaCall "create_all" m e;
                               SchemaCall "reflect" reflected e;
                               SchemaCall "drop_all" m e])) ∧
    engines sa' = engines (db_sa w) ++ [(sa_info (db_sa w), sa_options (db_sa w))] ∧
    engine sa' = (Ret e, sa').
Proof.
  intros Hmd Hnone Hok Hcalls e reflected. subst e reflected.
  set (c := fresh (dom (connectors (db_sa w)))).
  pose proof (EnginePropertySpec.first_read_creates (db_sa w) Hnone Hok) as Hfirst.
  pose proof (EnginePropertySpec.later_read_returns c (db_sa w)) as Hlater.
  fold c in Hfirst.
  exists (EnginePropertySpec.first_read c (db_sa w)).
  split; [|split; [done|done]].
  unfold create_all, drop_all, reflect, bind, read_metadata, read_engine, call, ret. simpl.
  rewrite Hmd, Hfirst, !Hcalls. simpl. rewrite Hlater, !Hcalls. simpl.
  rewrite Hmd, Hlater, !Hcalls. simpl. by rewrite <- !app_assoc.
Qed.

End Calls.

(** Every call on a metadata object is carried out. *)
#[local] Instance carries_out : MetaDataLib := {|
  schema_call_error _ := None;
  new_metadata := VRef 20%nat
|}.

(** The example object after the inclusion has no [Model]. *)
Lemma create_all_needs_model_witness :
  create_all (lib := Demo.demo_engines) (schema := SchemaSpec.demo_schema)
    (DbObj SchemaSpec.demo_included Demo.db_sqlite [])
  = (Raise (no_attribute "Model"), DbObj SchemaSpec.demo_included Demo.db_sqlite []).
Proof.
  refine (proj1 (create_all_needs_model (lib := Demo.demo_engines)
                   (schema := SchemaSpec.demo_schema)
                   SchemaSpec.demo_sqlalchemy SchemaSpec.demo_orm_module (VCallable 0%nat)
                   SchemaSpec.demo_db SchemaSpec.demo_included
                   eq_refl eq_refl eq_refl _ Demo.db_sqlite [])).
  by vm_compute.
Defined.

(** With a [Model], the three calls of the example are bound to engine
    0. *)
Lemma create_all_and_drop_all_share_the_engine_witness :
  ∃ sa',
    (run create_all (lib := Demo.demo_engines) (schema := SchemaSpec.demo_schema);
     do r <~ reflect (lib := Demo.demo_engines) VNone;
     run drop_all (lib := Demo.demo_engines) (schema := SchemaSpec.demo_schema);
     ret r) (DbObj SchemaSpec.demo_model_db Demo.db_sqlite [])
    = (Ret (VRef 20%nat),
       DbObj SchemaSpec.demo_model_db sa'
             [SchemaCall "create_all" (VRef 9%nat) (VRef 0%nat);
              SchemaCall "reflect" (VRef 20%nat) (VRef 0%nat);
              SchemaCall "drop_all" (VRef 9%nat) (VRef 0%nat)]) ∧
    engines sa' = [(VStr "sqlite:///a.db", [("echo", VBool false)])] ∧
    engine (lib := Demo.demo_engines) sa' = (Ret (VRef 0%nat), sa').
Proof.
  exact (create_all_and_drop_all_share_the_engine (lib := Demo.demo_engines)
           (schema := SchemaSpec.demo_schema)
           (DbObj SchemaSpec.demo_model_db Demo.db_sqlite []) (VRef 9%nat) VNone
           eq_refl eq_refl eq_refl (fun _ => eq_refl)).
Defined.

End MetaDataSpec.
